(** * The axis-grids tutorial notebook, as a program

    The repository holds one artefact, [doc/tutorial/axis_grids.ipynb]: an
    nbformat-3 notebook whose single worksheet is a sequence of text cells
    and Python code cells.  This development embeds the worksheet as data
    (abstract syntax of every code cell, in document order), gives the
    Python fragment it is written in an executable semantics over an
    arbitrary external library, and settles the statements of the
    specification about it. *)

From Stdlib Require Import ZArith Ascii String List Bool Lia Sorted.
From stdpp Require Import base option list strings gmap sets.

Local Open Scope string_scope.
Local Open Scope list_scope.
Set Warnings "-register-all".

(** ** Abstract syntax of the Python used in code cells

    The syntax is wider than what the notebook uses: it has the compound
    and control constructs of Python whose absence the specification
    asserts, so that "this cell has no try block" is a property to be
    checked and not a consequence of the data type. *)

Module PyAst.

Inductive expr : Type :=
| EName (id : string)
| EStr (s : string)
| EInt (n : Z)
| EFloat (lit : string)            (* decimal literal, digits as written *)
| EBool (b : bool)
| ENone
| ENeg (e : expr)                  (* unary minus *)
| EAttr (e : expr) (attr : string) (* e.attr *)
| ECall (f : expr) (args : list expr) (kwargs : list (string * expr))
| EList (es : list expr)
| ETuple (es : list expr)
| EDict (items : list (expr * expr))
| EIfExp (c t f : expr)            (* t if c else f *)
| ELambda (params : list string) (body : expr)
| EYield (e : expr)
| EAwait (e : expr).

Inductive stmt : Type :=
| SMagic (line : string)                         (* %line, an IPython magic *)
| SImport (module : string) (asname : string)    (* import module as asname *)
| SImportFrom (module : string) (name : string)  (* from module import name *)
| SAssign (target : string) (e : expr)           (* target = e *)
| SExpr (e : expr)                               (* e   (value discarded) *)
| SPass
| SIf (c : expr) (thn els : list stmt)
| SWhile (c : expr) (body : list stmt)
| SFor (target : string) (iter : expr) (body : list stmt)
| STry (body : list stmt) (handler : option (list stmt))
       (final : list stmt)                       (* try/except/finally *)
| SRaise (e : expr)
| SAssert (e : expr)
| SWith (ctx : expr) (body : list stmt)
| SDef (is_async : bool) (name : string) (params : list string)
       (body : list stmt)
| SClass (name : string) (bases : list expr) (body : list stmt)
| SGlobal (names : list string)
| SReturn (e : expr).

Arguments EInt n%_Z.

(** A cell of the worksheet.  Text cells ([raw] and [heading]) carry the
    number of source lines and their opening words only: their prose is
    never executed.  A code cell carries its statements; the trailing
    semicolons of the source only silence the echo of a value in the
    notebook front end and are not represented. *)
Inductive cell : Type :=
| Raw (lines : nat) (lead : string)
| Heading (level : nat) (title : string)
| Code (input : list stmt).

Abbreviation notebook := (list cell).

End PyAst.
Import PyAst.

(** ** The worksheet of [axis_grids.ipynb], cell by cell *)

Module Notebook.

Definition sns (a : string) : expr := EAttr (EName "sns") a.
Definition plt (a : string) : expr := EAttr (EName "plt") a.
Definition stats (a : string) : expr := EAttr (EName "stats") a.
Definition g (a : string) : expr := EAttr (EName "g") a.

Definition cell_magic : list stmt :=
  [ SMagic "matplotlib inline" ].

Definition cell_imports : list stmt :=
  [ SImport "numpy" "np";
    SImport "pandas" "pd";
    SImport "seaborn" "sns";
    SImportFrom "scipy" "stats";
    SImport "matplotlib" "mpl";
    SImport "matplotlib.pyplot" "plt" ].

Definition cell_setup : list stmt :=
  [ SExpr (ECall (sns "set") [] [("style", EStr "white")]);
    SExpr (ECall (EAttr (EAttr (EName "np") "random") "seed")
             [ECall (EName "sum")
                [ECall (EName "map") [EName "ord"; EStr "axis_grids"] []] []]
             []) ].

Definition cell_tips : list stmt :=
  [ SAssign "tips" (ECall (sns "load_dataset") [EStr "tips"] []) ].

Definition cell_facet_init : list stmt :=
  [ SAssign "g" (ECall (sns "FacetGrid") [EName "tips"] [("col", EStr "time")]) ].

Definition cell_facet_hist : list stmt :=
  [ SAssign "g" (ECall (sns "FacetGrid") [EName "tips"] [("col", EStr "time")]);
    SExpr (ECall (g "map") [plt "hist"; EStr "tip"] []) ].

Definition cell_facet_hue : list stmt :=
  [ SAssign "g" (ECall (sns "FacetGrid") [EName "tips"]
                   [("col", EStr "sex"); ("hue", EStr "smoker")]);
    SExpr (ECall (g "map") [plt "scatter"; EStr "total_bill"; EStr "tip"]
             [("alpha", EFloat ".7")]);
    SExpr (ECall (g "add_legend") [] []) ].

Definition cell_facet_margin : list stmt :=
  [ SAssign "g" (ECall (sns "FacetGrid") [EName "tips"]
                   [("row", EStr "smoker"); ("col", EStr "time");
                    ("margin_titles", EBool true)]);
    SExpr (ECall (g "map") [sns "regplot"; EStr "size"; EStr "total_bill"]
             [("color", EStr ".3"); ("fit_reg", EBool false);
              ("x_jitter", EFloat ".1")]) ].

Definition cell_facet_size : list stmt :=
  [ SAssign "g" (ECall (sns "FacetGrid") [EName "tips"]
                   [("col", EStr "day"); ("size", EInt 4);
                    ("aspect", EFloat ".5")]);
    SExpr (ECall (g "map") [sns "barplot"; EStr "sex"; EStr "total_bill"] []) ].

Definition cell_facet_order : list stmt :=
  [ SAssign "days" (EList [EStr "Thur"; EStr "Fri"; EStr "Sat"; EStr "Sun"]);
    SAssign "g" (ECall (sns "FacetGrid") [EName "tips"]
                   [("row", EStr "day"); ("hue", EStr "day");
                    ("palette", EStr "Greens_d"); ("size", EFloat "1.7");
                    ("aspect", EInt 4); ("hue_order", EName "days");
                    ("row_order", EName "days")]);
    SExpr (ECall (g "map") [sns "distplot"; EStr "total_bill"] []) ].

Definition cell_facet_palette : list stmt :=
  [ SAssign "pal" (ECall (EName "dict") []
                     [("Lunch", EStr "seagreen"); ("Dinner", EStr "gray")]);
    SAssign "g" (ECall (sns "FacetGrid") [EName "tips"]
                   [("hue", EStr "time"); ("palette", EName "pal");
                    ("size", EInt 5)]);
    SExpr (ECall (g "map") [plt "scatter"; EStr "total_bill"; EStr "tip"]
             [("s", EInt 50); ("alpha", EFloat ".7");
              ("linewidth", EFloat ".5"); ("edgecolor", EStr "white")]);
    SExpr (ECall (g "add_legend") [] []) ].

Definition cell_facet_hue_kws : list stmt :=
  [ SAssign "g" (ECall (sns "FacetGrid") [EName "tips"]
                   [("hue", EStr "sex"); ("palette", EStr "Set1");
                    ("size", EInt 5);
                    ("hue_kws",
                     EDict [(EStr "marker", EList [EStr "^"; EStr "v"])])]);
    SExpr (ECall (g "map") [plt "scatter"; EStr "total_bill"; EStr "tip"]
             [("s", EInt 100); ("linewidth", EFloat ".5");
              ("edgecolor", EStr "white")]);
    SExpr (ECall (g "add_legend") [] []) ].

Definition cell_facet_wrap : list stmt :=
  [ SAssign "attend"
      (ECall (EAttr (ECall (sns "load_dataset") [EStr "attention"] []) "query")
         [EStr "subject <= 12"] []);
    SAssign "g" (ECall (sns "FacetGrid") [EName "attend"]
                   [("col", EStr "subject"); ("col_wrap", EInt 4);
                    ("size", EInt 2);
                    ("ylim", ETuple [EInt 0; EInt 10])]);
    SExpr (ECall (g "map") [sns "pointplot"; EStr "solutions"; EStr "score"]
             [("color", EStr ".3"); ("ci", ENone)]) ].

Definition cell_facet_labels : list stmt :=
  [ SAssign "g" (ECall (sns "FacetGrid") [EName "tips"]
                   [("row", EStr "sex"); ("col", EStr "smoker");
                    ("margin_titles", EBool true); ("size", EFloat "2.5")]);
    SExpr (ECall (g "map") [plt "scatter"; EStr "total_bill"; EStr "tip"]
             [("color", EStr "#334488"); ("edgecolor", EStr "white");
              ("lw", EFloat ".5")]);
    SExpr (ECall (g "set_axis_labels")
             [EStr "Total bill (US Dollars)"; EStr "Tip"] []);
    SExpr (ECall (g "set") []
             [("xticks", EList [EInt 10; EInt 30; EInt 50]);
              ("yticks", EList [EInt 2; EInt 6; EInt 10])]);
    SExpr (ECall (EAttr (g "fig") "subplots_adjust") []
             [("wspace", EFloat ".02"); ("hspace", EFloat ".02")]) ].

Definition cell_pair_basic : list stmt :=
  [ SAssign "iris" (ECall (sns "load_dataset") [EStr "iris"] []);
    SAssign "g" (ECall (sns "PairGrid") [EName "iris"] []);
    SExpr (ECall (g "map") [plt "scatter"] []) ].

Definition cell_pair_diag : list stmt :=
  [ SAssign "g" (ECall (sns "PairGrid") [EName "iris"] []);
    SExpr (ECall (g "map_diag") [plt "hist"] []);
    SExpr (ECall (g "map_offdiag") [plt "scatter"] []) ].

Definition cell_pair_hue : list stmt :=
  [ SAssign "g" (ECall (sns "PairGrid") [EName "iris"]
                   [("hue", EStr "species")]);
    SExpr (ECall (g "map_diag") [plt "hist"] []);
    SExpr (ECall (g "map_offdiag") [plt "scatter"] []);
    SExpr (ECall (g "add_legend") [] []) ].

Definition cell_pair_vars : list stmt :=
  [ SAssign "g" (ECall (sns "PairGrid") [EName "iris"]
                   [("vars", EList [EStr "sepal_length"; EStr "sepal_width"]);
                    ("hue", EStr "species")]);
    SExpr (ECall (g "map") [plt "scatter"] []) ].

Definition cell_pair_triangles : list stmt :=
  [ SAssign "g" (ECall (sns "PairGrid") [EName "iris"] []);
    SExpr (ECall (g "map_upper") [plt "scatter"] []);
    SExpr (ECall (g "map_lower") [sns "kdeplot"] [("cmap", EStr "Blues_d")]);
    SExpr (ECall (g "map_diag") [sns "kdeplot"]
             [("lw", EInt 3); ("legend", EBool false)]) ].

Definition cell_pair_xy : list stmt :=
  [ SAssign "g" (ECall (sns "PairGrid") [EName "tips"]
                   [("y_vars", EList [EStr "tip"]);
                    ("x_vars", EList [EStr "total_bill"; EStr "size"]);
                    ("size", EInt 4)]);
    SExpr (ECall (g "map") [sns "regplot"] [("color", EStr ".3")]);
    SExpr (ECall (g "set") []
             [("ylim", ETuple [ENeg (EInt 1); EInt 11]);
              ("yticks", EList [EInt 0; EInt 5; EInt 10])]) ].

Definition cell_pair_palette : list stmt :=
  [ SAssign "g" (ECall (sns "PairGrid") [EName "tips"]
                   [("hue", EStr "size"); ("palette", EStr "GnBu_d")]);
    SExpr (ECall (g "map") [plt "scatter"]
             [("s", EInt 50); ("edgecolor", EStr "white")]);
    SExpr (ECall (g "add_legend") [] []) ].

Definition cell_pairplot : list stmt :=
  [ SExpr (ECall (sns "pairplot") [EName "iris"]
             [("hue", EStr "species"); ("size", EFloat "2.5")]) ].

Definition cell_pairplot_kde : list stmt :=
  [ SAssign "g" (ECall (sns "pairplot") [EName "iris"]
                   [("hue", EStr "species"); ("palette", EStr "Set2");
                    ("diag_kind", EStr "kde"); ("size", EFloat "2.5")]) ].

Definition joint_grid (kwargs : list (string * expr)) : expr :=
  ECall (sns "JointGrid") [EStr "total_bill"; EStr "tip"; EName "tips"] kwargs.

Definition cell_joint_init : list stmt :=
  [ SAssign "g" (joint_grid []) ].

Definition cell_joint_plot : list stmt :=
  [ SAssign "g" (joint_grid []);
    SExpr (ECall (g "plot")
             [sns "regplot"; sns "distplot"; stats "pearsonr"] []) ].

Definition cell_joint_parts : list stmt :=
  [ SAssign "g" (joint_grid []);
    SExpr (ECall (g "plot_marginals") [sns "distplot"]
             [("kde", EBool false); ("color", EStr ".5")]);
    SExpr (ECall (g "plot_joint") [plt "scatter"]
             [("color", EStr ".5"); ("edgecolor", EStr "white")]);
    SExpr (ECall (g "annotate") [stats "spearmanr"]
             [("template", EStr "{stat} = {val:.3f} (p = {p:.3g})")]) ].

Definition cell_joint_ratio : list stmt :=
  [ SAssign "g" (joint_grid [("size", EInt 4); ("ratio", EInt 30)]);
    SAssign "color" (EStr "#228833");
    SExpr (ECall (g "plot_marginals") [sns "rugplot"]
             [("color", EName "color"); ("alpha", EFloat ".7");
              ("lw", EInt 1)]);
    SExpr (ECall (g "plot_joint") [plt "scatter"]
             [("color", EName "color"); ("alpha", EFloat ".7");
              ("marker", EStr ".")]) ].

Definition cell_joint_space : list stmt :=
  [ SAssign "g" (joint_grid [("space", EInt 0)]);
    SExpr (ECall (g "plot_marginals") [sns "kdeplot"] [("shade", EBool true)]);
    SExpr (ECall (g "plot_joint") [sns "kdeplot"]
             [("shade", EBool true); ("cmap", EStr "PuBu");
              ("n_levels", EInt 40)]) ].

Definition cell_jointplot : list stmt :=
  [ SExpr (ECall (sns "jointplot")
             [EStr "total_bill"; EStr "tip"; EName "tips"] []) ].

Definition cell_jointplot_hex : list stmt :=
  [ SExpr (ECall (sns "jointplot")
             [EStr "total_bill"; EStr "tip"; EName "tips"]
             [("kind", EStr "hex"); ("color", EStr "#8855AA")]) ].

(** The worksheet, all 61 cells in document order. *)
Definition axis_grids : notebook :=
  [ Raw 3 ".. _axis_grids:";
    Heading 1 "Plotting on data-aware grids";
    Raw 5 "When exploring medium-dimensional data";
    Code cell_magic;
    Code cell_imports;
    Code cell_setup;
    Raw 8 ".. _facet_grid:";
    Code cell_tips;
    Code cell_facet_init;
    Raw 3 "Initializing the grid like this";
    Code cell_facet_hist;
    Raw 1 "This function will draw the figure";
    Code cell_facet_hue;
    Raw 1 "There are several options";
    Code cell_facet_margin;
    Raw 3 "Note that ``margin_titles``";
    Code cell_facet_size;
    Raw 1 "By default, the facets are plotted";
    Code cell_facet_order;
    Raw 1 "Any seaborn color palette";
    Code cell_facet_palette;
    Raw 1 "You can also let other aspects";
    Code cell_facet_hue_kws;
    Raw 1 "If you have many levels of one variable";
    Code cell_facet_wrap;
    Raw 4 "Once you've drawn a plot";
    Code cell_facet_labels;
    Raw 1 "Both the :func:`lmplot` and :func:`factorplot`";
    Raw 10 ".. _pair_grid:";
    Code cell_pair_basic;
    Raw 1 "It's possible to plot a different function";
    Code cell_pair_diag;
    Raw 1 "A very common way to use this plot";
    Code cell_pair_hue;
    Raw 1 "By default every numeric column";
    Code cell_pair_vars;
    Raw 1 "It's also possible to use a different function";
    Code cell_pair_triangles;
    Raw 1 "The square grid with identity relationships";
    Code cell_pair_xy;
    Raw 1 "Of course, the aesthetic attributes are configurable";
    Code cell_pair_palette;
    Raw 3 ".. _pairplot:";
    Code cell_pairplot;
    Raw 1 "You can also control the aesthetics";
    Code cell_pairplot_kde;
    Raw 8 ".. _joint_grid:";
    Code cell_joint_init;
    Raw 1 "The easiest way to use :class:`JointPlot`";
    Code cell_joint_plot;
    Raw 1 "For more flexibility";
    Code cell_joint_parts;
    Raw 1 "To control the presentation of the grid";
    Code cell_joint_ratio;
    Raw 1 "The ``space`` keyword argument";
    Code cell_joint_space;
    Raw 3 ".. _jointplot:";
    Code cell_jointplot;
    Raw 1 "It can draw several different kinds of plots";
    Code cell_jointplot_hex;
    Raw 1 "In many cases, :func:`jointplot` should be sufficient" ].

End Notebook.
Import Notebook.

(** ** Static analyses of cell code *)

Module Static.

(** *** Traversals *)

(** The call expressions inside [e], in Python's evaluation order: the
    callee, then the positional arguments left to right, then the keyword
    arguments, then the call itself. *)
Fixpoint calls (e : expr) : list expr :=
  match e with
  | EName _ | EStr _ | EInt _ | EFloat _ | EBool _ | ENone => []
  | ENeg e1 | EAttr e1 _ | EYield e1 | EAwait e1 => calls e1
  | ECall f args kwargs =>
      calls f ++ flat_map calls args
        ++ flat_map (fun kv => calls (snd kv)) kwargs ++ [e]
  | EList es | ETuple es => flat_map calls es
  | EDict items =>
      flat_map (fun kv => calls (fst kv) ++ calls (snd kv)) items
  | EIfExp c t f => calls c ++ calls t ++ calls f
  | ELambda _ body => calls body
  end.

(** An expression of the plain fragment: no conditional expression, no
    lambda, no yield, no await. *)
Fixpoint plain_expr (e : expr) : bool :=
  match e with
  | EName _ | EStr _ | EInt _ | EFloat _ | EBool _ | ENone => true
  | ENeg e1 | EAttr e1 _ => plain_expr e1
  | ECall f args kwargs =>
      plain_expr f && forallb plain_expr args
        && forallb (fun kv => plain_expr (snd kv)) kwargs
  | EList es | ETuple es => forallb plain_expr es
  | EDict items =>
      forallb (fun kv => plain_expr (fst kv) && plain_expr (snd kv)) items
  | EIfExp _ _ _ | ELambda _ _ | EYield _ | EAwait _ => false
  end.

(** Does [e] contain a suspension point ([yield] or [await])? *)
Fixpoint suspends (e : expr) : bool :=
  match e with
  | EName _ | EStr _ | EInt _ | EFloat _ | EBool _ | ENone => false
  | ENeg e1 | EAttr e1 _ => suspends e1
  | ECall f args kwargs =>
      suspends f || existsb suspends args
        || existsb (fun kv => suspends (snd kv)) kwargs
  | EList es | ETuple es => existsb suspends es
  | EDict items =>
      existsb (fun kv => suspends (fst kv) || suspends (snd kv)) items
  | EIfExp c t f => suspends c || suspends t || suspends f
  | ELambda _ body => suspends body
  | EYield _ | EAwait _ => true
  end.

(** The names [e] reads, in evaluation order.  Attribute names and keyword
    names are not variable reads; a lambda's parameters are bound in its
    body. *)
Fixpoint reads (e : expr) : list string :=
  match e with
  | EName x => [x]
  | EStr _ | EInt _ | EFloat _ | EBool _ | ENone => []
  | ENeg e1 | EAttr e1 _ | EYield e1 | EAwait e1 => reads e1
  | ECall f args kwargs =>
      reads f ++ flat_map reads args ++ flat_map (fun kv => reads (snd kv)) kwargs
  | EList es | ETuple es => flat_map reads es
  | EDict items =>
      flat_map (fun kv => reads (fst kv) ++ reads (snd kv)) items
  | EIfExp c t f => reads c ++ reads t ++ reads f
  | ELambda params body =>
      List.filter (fun x => negb (bool_decide (x ∈ params))) (reads body)
  end.

(** A dotted name [a.b.c] as the list of its components. *)
Fixpoint dotted (e : expr) : option (list string) :=
  match e with
  | EName x => Some [x]
  | EAttr e1 a => (fun p => p ++ [a]) <$> dotted e1
  | _ => None
  end.

(** The simple statements: the ones that run to completion in one step and
    hand control to the next statement of the cell. *)
Definition simple_stmt (s : stmt) : bool :=
  match s with
  | SMagic _ | SImport _ _ | SImportFrom _ _ | SPass => true
  | SAssign _ e | SExpr e => plain_expr e
  | _ => false
  end.

Definition straight_line (ss : list stmt) : bool := forallb simple_stmt ss.

(** The expression a simple statement evaluates, if any. *)
Definition stmt_expr (s : stmt) : option expr :=
  match s with
  | SAssign _ e | SExpr e => Some e
  | _ => None
  end.

(** The name a simple statement binds in the notebook namespace, if any. *)
Definition stmt_binds (s : stmt) : option string :=
  match s with
  | SImport _ a => Some a
  | SImportFrom _ n => Some n
  | SAssign x _ => Some x
  | _ => None
  end.

Definition stmt_reads (s : stmt) : list string :=
  from_option reads [] (stmt_expr s).

Definition stmt_calls (s : stmt) : list expr :=
  from_option calls [] (stmt_expr s).

Definition cell_calls (ss : list stmt) : list expr := flat_map stmt_calls ss.

Definition cell_binds (ss : list stmt) : list string := omap stmt_binds ss.

(** The names a cell reads before binding them itself: its inputs from
    outside the cell. *)
Fixpoint external_reads (own : list string) (ss : list stmt) : list string :=
  match ss with
  | [] => []
  | s :: rest =>
      List.filter (fun x => negb (bool_decide (x ∈ own))) (stmt_reads s)
        ++ external_reads (from_option (fun x => x :: own) own (stmt_binds s)) rest
  end.

(** *** The code cells of a notebook, with their positions *)

Definition code_of (c : cell) : option (list stmt) :=
  match c with Code ss => Some ss | _ => None end.

Definition is_text (c : cell) : bool :=
  match c with Code _ => false | _ => true end.

Definition code_cells (nb : notebook) : list (nat * list stmt) :=
  omap (fun p => pair (fst p) <$> code_of (snd p)) (imap pair nb).

(** The statements of all code cells before position [i]. *)
Definition code_before (nb : notebook) (i : nat) : list stmt :=
  flat_map snd (List.filter (fun p => fst p <? i)%nat (code_cells nb)).

(** *** Vocabulary of the plotting library *)

(** The five charting entry points named by the specification. *)
Definition charting_api : list string :=
  ["FacetGrid"; "PairGrid"; "JointGrid"; "pairplot"; "jointplot"].

(** Methods that draw data onto a grid. *)
Definition mapping_methods : list string :=
  ["map"; "map_diag"; "map_offdiag"; "map_upper"; "map_lower";
   "plot"; "plot_joint"; "plot_marginals"].

(** Methods that label or annotate a grid once it is drawn. *)
Definition labeling_methods : list string :=
  ["add_legend"; "set_axis_labels"; "set"; "annotate"].

(** Python builtins: names every cell can read without binding them. *)
Definition builtins : list string := ["sum"; "map"; "ord"; "dict"].

(** Library functions whose effect is to change state global to the
    process: [seaborn.set] rewrites the plotting defaults, and
    [numpy.random.seed] re-seeds numpy's global random generator. *)
Definition global_setters : list (list string) :=
  [ ["sns"; "set"]; ["np"; "random"; "seed"] ].

Definition callee (e : expr) : option expr :=
  match e with ECall f _ _ => Some f | _ => None end.

Definition call_path (e : expr) : option (list string) := callee e ≫= dotted.

Definition is_charting_call (e : expr) : bool :=
  match call_path e with
  | Some [m; f] => bool_decide (m = "sns") && bool_decide (f ∈ charting_api)
  | _ => false
  end.

Definition is_dataset_load (e : expr) : bool :=
  bool_decide (call_path e = Some ["sns"; "load_dataset"]).

Definition is_global_setter (e : expr) : bool :=
  match call_path e with
  | Some p => bool_decide (p ∈ global_setters)
  | None => false
  end.

Definition charting_calls (ss : list stmt) : list expr :=
  List.filter is_charting_call (cell_calls ss).

End Static.
Import Static.

(** ** Executable semantics

    Code cells run in one Python process against libraries that live
    outside the repository.  The semantics is therefore parametric in a
    [world] (everything the process and its libraries remember: the random
    generator, plotting defaults, open figures, ...) and in a function
    [lib] that answers each external operation.  Names are looked up in
    the notebook's single namespace, which persists from cell to cell. *)

Module Sem.

Inductive value : Type :=
| VStr (s : string)
| VInt (n : Z)
| VFloat (lit : string)
| VBool (b : bool)
| VNone
| VList (vs : list value)
| VTuple (vs : list value)
| VDict (items : list (value * value))
| VModule (path : string)           (* an imported module *)
| VBuiltin (name : string)          (* a Python builtin function *)
| VObj (h : N)                      (* an object owned by a library *)
| VAttr (v : value) (attr : string) (* v.attr: a function, method or member *).

Arguments VInt n%_Z.

(** What the process asks of the outside. *)
Inductive op : Type :=
| OMagic (line : string)
| OImport (module : string)
| OCall (f : value) (args : list value) (kwargs : list (string * value)).

Inductive failure : Type :=
| NameError (id : string)      (* a name was read before being bound *)
| TypeError (what : string)    (* a builtin or operator met a wrong operand *)
| AttributeError (attr : string) (* the value has no such attribute *)
| AssertionError
| Raised (v : value)           (* a raise statement of the cell itself *)
| LibraryError (msg : string)  (* raised inside an external operation *)
| Unsupported.                 (* construct outside the evaluated fragment *)

(** The answer of the outside to one operation. *)
Definition answer : Type := (string + value)%type.

Abbreviation namespace := (gmap string value).

(** The namespace a fresh kernel starts with. *)
Definition builtin_env : namespace :=
  list_to_map (List.map (fun b => (b, VBuiltin b)) builtins).

(** *** Builtins used by the cells *)

Definition iter_values (v : value) : option (list value) :=
  match v with
  | VList vs | VTuple vs => Some vs
  | VStr s => Some (List.map (fun a => VStr (String a EmptyString))
                      (list_ascii_of_string s))
  | _ => None
  end.

Definition ord (v : value) : failure + value :=
  match v with
  | VStr (String a EmptyString) => inr (VInt (Z.of_N (N_of_ascii a)))
  | _ => inl (TypeError "ord")
  end.

Fixpoint sum_from (acc : Z) (vs : list value) : failure + value :=
  match vs with
  | [] => inr (VInt acc)
  | VInt n :: rest => sum_from (acc + n) rest
  | _ :: _ => inl (TypeError "sum")
  end.

Fixpoint map_pure (f : value -> failure + value) (vs : list value)
  : failure + list value :=
  match vs with
  | [] => inr []
  | v :: rest =>
      match f v with
      | inl e => inl e
      | inr y => match map_pure f rest with
                 | inl e => inl e
                 | inr ys => inr (y :: ys)
                 end
      end
  end.

(** [ord], [sum], and [dict] called with keyword arguments only. *)
Definition apply_first_order (b : string) (args : list value)
    (kwargs : list (string * value)) : failure + value :=
  if bool_decide (b = "ord") then
    match args, kwargs with [v], [] => ord v | _, _ => inl (TypeError "ord") end
  else if bool_decide (b = "sum") then
    match args, kwargs with
    | [v], [] => match iter_values v with
                 | Some vs => sum_from 0 vs
                 | None => inl (TypeError "sum")
                 end
    | _, _ => inl (TypeError "sum")
    end
  else if bool_decide (b = "dict") then
    match args with
    | [] => inr (VDict (List.map (fun kv => (VStr (fst kv), snd kv)) kwargs))
    | _ => inl Unsupported
    end
  else inl (TypeError b).

(** [map(f, xs)] for a builtin [f]; mapping a library callable would need
    calls back into the library and is outside the fragment. *)
Definition apply_builtin (b : string) (args : list value)
    (kwargs : list (string * value)) : failure + value :=
  if bool_decide (b = "map") then
    match args, kwargs with
    | [VBuiltin f; xs], [] =>
        match iter_values xs with
        | Some vs =>
            match map_pure (fun v => apply_first_order f [v] []) vs with
            | inl e => inl e
            | inr ys => inr (VList ys)
            end
        | None => inl (TypeError "map")
        end
    | [_; _], [] => inl Unsupported
    | _, _ => inl (TypeError "map")
    end
  else apply_first_order b args kwargs.

Definition truthy (v : value) : bool :=
  match v with
  | VBool b => b
  | VNone => false
  | VInt n => negb (n =? 0)%Z
  | VStr s => negb (bool_decide (s = ""))
  | VList [] | VTuple [] | VDict [] => false
  | _ => true
  end.

Definition negate (v : value) : failure + value :=
  match v with
  | VInt n => inr (VInt (- n))
  | VFloat lit => inr (VFloat ("-" +:+ lit))
  | _ => inl (TypeError "unary -")
  end.

(** The qualified name of a module member: [numpy.random.seed] is the
    member [seed] of the member [random] of the module [numpy]. *)
Fixpoint qualname (v : value) : option (list string) :=
  match v with
  | VModule m => Some [m]
  | VAttr v1 a => (fun p => p ++ [a]) <$> qualname v1
  | _ => None
  end.

(** *** Attribute access *)

(** The public attributes of the values of builtin types, Python 2 and
    Python 3 taken together. *)
Definition str_attributes : list string :=
  ["capitalize"; "casefold"; "center"; "count"; "decode"; "encode";
   "endswith"; "expandtabs"; "find"; "format"; "format_map"; "index";
   "isalnum"; "isalpha"; "isascii"; "isdecimal"; "isdigit"; "isidentifier";
   "islower"; "isnumeric"; "isprintable"; "isspace"; "istitle"; "isupper";
   "join"; "ljust"; "lower"; "lstrip"; "maketrans"; "partition";
   "removeprefix"; "removesuffix"; "replace"; "rfind"; "rindex"; "rjust";
   "rpartition"; "rsplit"; "rstrip"; "split"; "splitlines"; "startswith";
   "strip"; "swapcase"; "title"; "translate"; "upper"; "zfill"].

Definition int_attributes : list string :=
  ["as_integer_ratio"; "bit_count"; "bit_length"; "conjugate"; "denominator";
   "from_bytes"; "imag"; "is_integer"; "numerator"; "real"; "to_bytes"].

Definition float_attributes : list string :=
  ["as_integer_ratio"; "conjugate"; "fromhex"; "hex"; "imag"; "is_integer";
   "real"].

Definition list_attributes : list string :=
  ["append"; "clear"; "copy"; "count"; "extend"; "index"; "insert"; "pop";
   "remove"; "reverse"; "sort"].

Definition tuple_attributes : list string := ["count"; "index"].

Definition dict_attributes : list string :=
  ["clear"; "copy"; "fromkeys"; "get"; "has_key"; "items"; "iteritems";
   "iterkeys"; "itervalues"; "keys"; "pop"; "popitem"; "setdefault";
   "update"; "values"; "viewitems"; "viewkeys"; "viewvalues"].

Definition attributes_of (v : value) : list string :=
  match v with
  | VStr _ => str_attributes
  | VInt _ | VBool _ => int_attributes
  | VFloat _ => float_attributes
  | VList _ => list_attributes
  | VTuple _ => tuple_attributes
  | VDict _ => dict_attributes
  | VBuiltin b => if bool_decide (b = "dict") then dict_attributes else []
  | _ => []
  end.

(** [v.a].  A module or an object of a library hands out a member, which
    the library resolves when the member is used.  A value of a builtin
    type ([None], a number, a string, a list, ...) has the attributes of
    its type and no other: asking for another one raises
    [AttributeError]; the attributes it has (and the special names
    [__x__]) are outside the evaluated fragment. *)
Definition getattr (v : value) (a : string) : failure + value :=
  match v with
  | VModule _ | VObj _ | VAttr _ _ => inr (VAttr v a)
  | _ =>
      if String.prefix "__" a || bool_decide (a ∈ attributes_of v)
      then inl Unsupported
      else inl (AttributeError a)
  end.

Section Interp.

Context {world : Type}.
Variable lib : op -> world -> answer * world.

(** Computations that may fail and that thread the world. *)
Definition M (A : Type) : Type := world -> (failure + A) * world.

Definition ret {A} (a : A) : M A := fun w => (inr a, w).
Definition throw {A} (e : failure) : M A := fun w => (inl e, w).
Definition bind {A B} (m : M A) (k : A -> M B) : M B :=
  fun w => match m w with
           | (inl e, w') => (inl e, w')
           | (inr a, w') => k a w'
           end.
Definition lift {A} (r : failure + A) : M A := fun w => (r, w).

Notation "x <- m ;; k" := (bind m (fun x => k))
  (at level 100, m at next level, right associativity).

(** One external operation; what the library raises is passed on as is. *)
Definition ask (o : op) : M value :=
  fun w => match lib o w with
           | (inl msg, w') => (inl (LibraryError msg), w')
           | (inr v, w') => (inr v, w')
           end.

Definition mapM {A B} (f : A -> M B) : list A -> M (list B) :=
  fix go (l : list A) : M (list B) :=
    match l with
    | [] => ret []
    | a :: rest => b <- f a ;; bs <- go rest ;; ret (b :: bs)
    end.

(** A call: a builtin is computed here; a member of a module or of an
    object, or an object, is a callable of a library, which is asked;
    nothing else can be called. *)
Definition apply (fv : value) (args : list value)
    (kwargs : list (string * value)) : M value :=
  match fv with
  | VBuiltin b => lift (apply_builtin b args kwargs)
  | VAttr _ _ | VObj _ => ask (OCall fv args kwargs)
  | _ => throw (TypeError "object is not callable")
  end.

Fixpoint eval (env : namespace) (e : expr) : M value :=
  match e with
  | EName x => match env !! x with
               | Some v => ret v
               | None => throw (NameError x)
               end
  | EStr s => ret (VStr s)
  | EInt n => ret (VInt n)
  | EFloat lit => ret (VFloat lit)
  | EBool b => ret (VBool b)
  | ENone => ret VNone
  | ENeg e1 => v <- eval env e1 ;; lift (negate v)
  | EAttr e1 a => v <- eval env e1 ;; lift (getattr v a)
  | ECall f args kwargs =>
      fv <- eval env f ;;
      avs <- mapM (eval env) args ;;
      kvs <- mapM (fun kv => v <- eval env (snd kv) ;; ret (fst kv, v)) kwargs ;;
      apply fv avs kvs
  | EList es => vs <- mapM (eval env) es ;; ret (VList vs)
  | ETuple es => vs <- mapM (eval env) es ;; ret (VTuple vs)
  | EDict items =>
      kvs <- mapM (fun kv => k <- eval env (fst kv) ;;
                             v <- eval env (snd kv) ;; ret (k, v)) items ;;
      ret (VDict kvs)
  | EIfExp c t f =>
      v <- eval env c ;; if truthy v then eval env t else eval env f
  | ELambda _ _ | EYield _ | EAwait _ => throw Unsupported
  end.

(** The result of running statements: whether something was raised, the
    namespace (bindings made before a failure stay), and the world. *)
Record result : Type := Result {
  failed : option failure;
  ns : namespace;
  after : world
}.

Definition finish (env : namespace) (r : (failure + value) * world)
    (k : value -> namespace) : result :=
  match r with
  | (inl e, w) => Result (Some e) env w
  | (inr v, w) => Result None (k v) w
  end.

(** Statements of a block run in order; the first failure ends the block. *)
Definition seq_block (exec : stmt -> namespace -> world -> result)
  : list stmt -> namespace -> world -> result :=
  fix go (ss : list stmt) (env : namespace) (w : world) : result :=
    match ss with
    | [] => Result None env w
    | s :: rest =>
        let r := exec s env w in
        match failed r with
        | Some _ => r
        | None => go rest (ns r) (after r)
        end
    end.

Fixpoint exec_stmt (s : stmt) (env : namespace) (w : world) {struct s}
  : result :=
  match s with
  | SMagic line => finish env (ask (OMagic line) w) (fun _ => env)
  | SImport m a =>
      finish env (ask (OImport m) w) (fun _ => <[a := VModule m]> env)
  | SImportFrom m n =>
      finish env (ask (OImport m) w)
        (fun _ => <[n := VAttr (VModule m) n]> env)
  | SAssign x e => finish env (eval env e w) (fun v => <[x := v]> env)
  | SExpr e => finish env (eval env e w) (fun _ => env)
  | SPass => Result None env w
  | SIf c thn els =>
      match eval env c w with
      | (inl e, w') => Result (Some e) env w'
      | (inr v, w') =>
          if truthy v then seq_block exec_stmt thn env w'
          else seq_block exec_stmt els env w'
      end
  | STry body handler final =>
      let r := seq_block exec_stmt body env w in
      let r' :=
        match failed r, handler with
        | Some Unsupported, _ | None, _ | _, None => r
        | Some _, Some h => seq_block exec_stmt h (ns r) (after r)
        end in
      let r'' := seq_block exec_stmt final (ns r') (after r') in
      match failed r'' with
      | Some _ => r''
      | None => Result (failed r') (ns r'') (after r'')
      end
  | SRaise e =>
      match eval env e w with
      | (inl f, w') => Result (Some f) env w'
      | (inr v, w') => Result (Some (Raised v)) env w'
      end
  | SAssert e =>
      match eval env e w with
      | (inl f, w') => Result (Some f) env w'
      | (inr v, w') =>
          Result (if truthy v then None else Some AssertionError) env w'
      end
  | SWhile _ _ | SFor _ _ _ | SWith _ _ | SDef _ _ _ _ | SClass _ _ _
  | SGlobal _ | SReturn _ => Result (Some Unsupported) env w
  end.

Definition exec_block : list stmt -> namespace -> world -> result :=
  seq_block exec_stmt.

(** Running a cell is running its statements in order. *)
Definition exec_cell (ss : list stmt) (env : namespace) (w : world) : result :=
  exec_block ss env w.

(** Running code cells one after the other, stopping at the first cell
    that fails; the positions of the cells entered are recorded. *)
Fixpoint run_cells (cs : list (nat * list stmt)) (env : namespace) (w : world)
  : list nat * result :=
  match cs with
  | [] => ([], Result None env w)
  | (i, ss) :: rest =>
      let r := exec_cell ss env w in
      match failed r with
      | Some _ => ([i], r)
      | None => let '(visited, r') := run_cells rest (ns r) (after r) in
                (i :: visited, r')
      end
  end.

(** A complete top-to-bottom execution in a fresh kernel. *)
Definition run_notebook (nb : notebook) (w : world) : list nat * result :=
  run_cells (code_cells nb) builtin_env w.

End Interp.

(** *** Recording what the outside was asked

    Any library can be wrapped so that the world also keeps the list of
    operations performed and their answers, oldest first. *)
Definition event : Type := (op * answer)%type.

Definition logged {world : Type} (lib : op -> world -> answer * world)
  : op -> world * list event -> answer * (world * list event) :=
  fun o wl =>
    let '(a, w') := lib o (fst wl) in (a, (w', snd wl ++ [(o, a)])).

End Sem.
Import Sem.


(** ** What the specification says about the cells, as predicates *)

Module Props.

(** *** Whole-statement traversals *)

(** A statement and every statement nested in it. *)
Fixpoint stmts_deep (s : stmt) : list stmt :=
  s :: match s with
       | SIf _ t e => flat_map stmts_deep t ++ flat_map stmts_deep e
       | SWhile _ b | SFor _ _ b | SWith _ b | SDef _ _ _ b | SClass _ _ b =>
           flat_map stmts_deep b
       | STry b h f =>
           flat_map stmts_deep b
             ++ match h with Some hs => flat_map stmts_deep hs | None => [] end
             ++ flat_map stmts_deep f
       | _ => []
       end.

Definition all_stmts (ss : list stmt) : list stmt := flat_map stmts_deep ss.

(** The expressions written directly in a statement. *)
Definition exprs_of (s : stmt) : list expr :=
  match s with
  | SAssign _ e | SExpr e | SRaise e | SAssert e | SReturn e => [e]
  | SIf c _ _ | SWhile c _ | SWith c _ => [c]
  | SFor _ it _ => [it]
  | SClass _ bases _ => bases
  | _ => []
  end.

Definition all_exprs (ss : list stmt) : list expr :=
  flat_map exprs_of (all_stmts ss).

(** *** Error handling *)

Definition error_handling_stmt (s : stmt) : bool :=
  match s with
  | STry _ _ _ | SRaise _ | SAssert _ | SIf _ _ _ | SWhile _ _ => true
  | _ => false
  end.

(** No try, raise, assert or branch at any depth, and no conditional
    expression. *)
Definition no_error_handling (ss : list stmt) : bool :=
  forallb (fun s => negb (error_handling_stmt s)) (all_stmts ss)
    && forallb plain_expr (all_exprs ss).

(** *** Concurrency, suspension and coroutines *)

(** Modules of the Python standard library that schedule, run or
    synchronise concurrent activities. *)
Definition concurrency_modules : list string :=
  ["threading"; "thread"; "multiprocessing"; "asyncio"; "concurrent.futures";
   "sched"; "signal"; "queue"; "Queue"; "subprocess"; "select"].

Definition concurrency_stmt (s : stmt) : bool :=
  match s with
  | SDef true _ _ _ => true                  (* async def *)
  | SWith _ _ => true                        (* with lock: ... *)
  | SImport m _ | SImportFrom m _ => bool_decide (m ∈ concurrency_modules)
  | _ => false
  end.

Definition no_concurrency (ss : list stmt) : bool :=
  forallb (fun s => negb (concurrency_stmt s)) (all_stmts ss)
    && forallb (fun e => negb (suspends e)) (all_exprs ss).

Definition no_classes (ss : list stmt) : bool :=
  forallb (fun s => match s with SClass _ _ _ => false | _ => true end)
    (all_stmts ss).

(** No generator and no async construct: no yield, no await, no async
    def. *)
Definition no_coroutines (ss : list stmt) : bool :=
  forallb (fun s => match s with SDef true _ _ _ => false | _ => true end)
    (all_stmts ss)
    && forallb (fun e => negb (suspends e)) (all_exprs ss).

(** *** State shared between cells *)

(** Cell code is module-level code of the kernel's main module: every
    name a cell binds is a global of that module. *)
Definition module_level_writes (ss : list stmt) : list string := cell_binds ss.

Definition global_setter_calls (ss : list stmt) : list expr :=
  List.filter is_global_setter (cell_calls ss).

(** *** Names and where they come from *)

Definition import_binding (s : stmt) : option (string * string) :=
  match s with
  | SImport m a => Some (a, m)
  | SImportFrom m n => Some (n, m +:+ "." +:+ n)
  | _ => None
  end.

(** Alias and module of every import before position [i]. *)
Definition imports_before (nb : notebook) (i : nat) : list (string * string) :=
  omap import_binding (code_before nb i).

(** Every import of the notebook. *)
Definition module_aliases (nb : notebook) : list (string * string) :=
  omap import_binding (flat_map snd (code_cells nb)).

Definition module_names (nb : notebook) : list string :=
  List.map fst (module_aliases nb).

Definition dataset_binding (s : stmt) : option string :=
  match s with
  | SAssign x e => if is_dataset_load e then Some x else None
  | _ => None
  end.

(** Variables bound, before position [i], to what the dataset loader
    returned. *)
Definition dataset_vars (nb : notebook) (i : nat) : list string :=
  omap dataset_binding (code_before nb i).

(** Names a cell takes from other cells: read before being bound in the
    cell, and not a builtin. *)
Definition from_other_cells (ss : list stmt) : list string :=
  List.filter (fun x => negb (bool_decide (x ∈ builtins)))
    (external_reads [] ss).

(** Reads are checked against the names bound so far, statement by
    statement; the result is the set of names bound after the block, or
    nothing when some read may hit an unbound name or the block leaves the
    straight-line fragment. *)
Fixpoint names_defined (bound : gset string) (ss : list stmt)
  : option (gset string) :=
  match ss with
  | [] => Some bound
  | s :: rest =>
      if simple_stmt s && forallb (fun x => bool_decide (x ∈ bound)) (stmt_reads s)
      then names_defined
             (from_option (fun x => {[x]} ∪ bound) bound (stmt_binds s)) rest
      else None
  end.

(** *** C1 and C2: shape of the cells *)

(** The four code cells that prepare the session: the magic, the imports,
    the style and seed setup, and the load of the [tips] dataset. *)
Definition preamble : list nat := [3; 4; 5; 7].

Definition constructs_grid (ss : list stmt) : bool :=
  negb (bool_decide (charting_calls ss = [])).

(** C1 as the specification words it. *)
Definition cells_independent (nb : notebook) : Prop :=
  forall i ss, nb !! i = Some (Code ss) ->
    constructs_grid ss = true /\
    forall x, x ∈ from_other_cells ss -> x ∈ dataset_vars nb i.

(** C2 as the specification words it. *)
Definition every_cell_text_or_chart (nb : notebook) : Prop :=
  forall i c, nb !! i = Some c ->
    is_text c = true \/
    exists ss, c = Code ss /\ straight_line ss = true /\ constructs_grid ss = true.

(** *** C7 and C10: order of the calls on a grid *)

Inductive phase : Type := Construct | Mapping | Labeling.

Definition method_phase (m : string) : option phase :=
  if bool_decide (m ∈ mapping_methods) then Some Mapping
  else if bool_decide (m ∈ labeling_methods) then Some Labeling
  else None.

(** A method call [x.m(...)] on a variable [x] that is not a module. *)
Definition call_event (modules : list string) (c : expr)
  : option (phase * string) :=
  match call_path c with
  | Some [x; m] =>
      if bool_decide (x ∈ modules) then None
      else (fun p => (p, x)) <$> method_phase m
  | _ => None
  end.

(** The grid events of a statement in the order they happen: the calls
    made while evaluating it, then the binding of a new grid. *)
Definition stmt_events (modules : list string) (s : stmt)
  : list (phase * string) :=
  omap (call_event modules) (stmt_calls s)
    ++ match s with
       | SAssign x e => if is_charting_call e then [(Construct, x)] else []
       | _ => []
       end.

Definition cell_events (modules : list string) (ss : list stmt)
  : list (phase * string) :=
  flat_map (stmt_events modules) ss.

(** The attribute a call goes through, read off the source ([x.m(...)]
    gives [m]) and read off an operation performed at run time. *)
Definition called_attribute (c : expr) : option string :=
  match c with
  | ECall (EAttr _ a) _ _ => Some a
  | _ => None
  end.

Definition performed_attribute (ev : event) : option string :=
  match fst ev with
  | OCall (VAttr _ a) _ _ => Some a
  | _ => None
  end.

Definition has_keyword (k : string) (e : expr) : bool :=
  match e with
  | ECall _ _ kwargs => bool_decide (k ∈ List.map fst kwargs)
  | _ => false
  end.

(** *** C6: the interfaces a call can resolve to *)

Inductive interface : Type :=
| Plotting (f : string)        (* a function of the seaborn module *)
| GridMethod (m : string)      (* a method of a grid object *)
| FigureMethod (m : string)    (* a method of a grid's matplotlib figure *)
| Numerical (path : list string) (* a function of numpy *)
| TableMethod (m : string)     (* a method of a loaded dataset *)
| Builtin (b : string).

Definition resolve (aliases : list (string * string)) (x : string)
  : option string :=
  snd <$> List.find (fun p => bool_decide (fst p = x)) aliases.

Definition classify (aliases : list (string * string)) (c : expr)
  : option interface :=
  match c with
  | ECall f _ _ =>
      match dotted f with
      | Some [b] =>
          if bool_decide (b ∈ builtins) then Some (Builtin b) else None
      | Some (x :: rest) =>
          match resolve aliases x, rest with
          | Some "seaborn", [fn] => Some (Plotting fn)
          | Some "numpy", _ => Some (Numerical rest)
          | Some _, _ => None
          | None, [m] => GridMethod <$> (method_phase m ≫= fun _ => Some m)
          | None, ["fig"; m] => Some (FigureMethod m)
          | None, _ => None
          end
      | Some [] => None
      | None =>
          match f with
          | EAttr inner m =>
              if is_dataset_load inner then Some (TableMethod m) else None
          | _ => None
          end
      end
  | _ => None
  end.

(** The plotting library's grid API and the dataset loader: the only
    interfaces according to the specification. *)
Definition grid_api_or_loader (k : interface) : bool :=
  match k with
  | Plotting f => bool_decide (f ∈ "load_dataset" :: charting_api)
  | GridMethod _ => true
  | _ => false
  end.

(** C6 as the specification words it. *)
Definition only_grid_api_and_loader (nb : notebook) : Prop :=
  forall i ss c, nb !! i = Some (Code ss) -> c ∈ cell_calls ss ->
    exists k, classify (module_aliases nb) c = Some k /\
              grid_api_or_loader k = true.

(** Every interface the notebook's calls resolve to.  The builtin [ord] is
    never called by a cell: it is handed to [map]. *)
Definition interfaces_used : list interface :=
  [ Plotting "set"; Plotting "load_dataset";
    Plotting "FacetGrid"; Plotting "PairGrid"; Plotting "JointGrid";
    Plotting "pairplot"; Plotting "jointplot";
    GridMethod "map"; GridMethod "map_diag"; GridMethod "map_offdiag";
    GridMethod "map_upper"; GridMethod "map_lower"; GridMethod "plot";
    GridMethod "plot_joint"; GridMethod "plot_marginals";
    GridMethod "add_legend"; GridMethod "set_axis_labels"; GridMethod "set";
    GridMethod "annotate";
    FigureMethod "subplots_adjust";
    Numerical ["random"; "seed"];
    TableMethod "query";
    Builtin "sum"; Builtin "map"; Builtin "dict" ].

(** The modules the notebook imports. *)
Definition imported_modules : list string :=
  ["numpy"; "pandas"; "seaborn"; "scipy"; "matplotlib"; "matplotlib.pyplot"].

Definition import_module (s : stmt) : option string :=
  match s with
  | SImport m _ | SImportFrom m _ => Some m
  | _ => None
  end.

Global Instance interface_eq_dec : EqDecision interface.
Proof. solve_decision. Defined.

Definition uses_known_interface (aliases : list (string * string)) (c : expr)
  : bool :=
  match classify aliases c with
  | Some k => bool_decide (k ∈ interfaces_used)
  | None => false
  end.

(** Imports happen in the import cell only, and only of these modules. *)
Definition imports_ok (i : nat) (ss : list stmt) : bool :=
  forallb (fun s => match import_module s with
                    | Some m => bool_decide (i = 4) && bool_decide (m ∈ imported_modules)
                    | None => true
                    end) (all_stmts ss).

(** Every name some cell binds at module level. *)
Definition notebook_globals : list string :=
  ["np"; "pd"; "sns"; "stats"; "mpl"; "plt";
   "tips"; "g"; "days"; "pal"; "attend"; "iris"; "color"].

(** The names a cell takes from other cells are dataset variables or
    imported modules. *)
Definition shares_datasets_and_modules (nb : notebook) (i : nat)
    (ss : list stmt) : bool :=
  forallb (fun x => bool_decide (x ∈ dataset_vars nb i)
                    || bool_decide (x ∈ List.map fst (imports_before nb i)))
    (from_other_cells ss).

(** Only the setup cell, at position 5, calls a global setter. *)
Definition setters_only_in_setup (i : nat) (ss : list stmt) : bool :=
  bool_decide (global_setter_calls ss = []) || bool_decide (i = 5).

Definition one_chart_after_preamble (i : nat) (ss : list stmt) : bool :=
  if bool_decide (i ∈ preamble) then bool_decide (charting_calls ss = [])
  else bool_decide (length (charting_calls ss) = 1).

(** *** C3 and C5 as the specification words them *)

Definition no_shared_mutable_state (ss : list stmt) : bool :=
  bool_decide (global_setter_calls ss = []).

Definition sequential_and_stateless (nb : notebook) : Prop :=
  forall i ss, nb !! i = Some (Code ss) ->
    no_concurrency ss = true /\ straight_line ss = true /\
    no_shared_mutable_state ss = true.

Definition no_global_state (nb : notebook) : Prop :=
  forall i ss, nb !! i = Some (Code ss) ->
    no_classes ss = true /\
    (module_level_writes ss = [] /\ global_setter_calls ss = []) /\
    no_coroutines ss = true.

(** *** C8 as the specification words it *)

(** Names bound by an import or an assignment in the code before
    position [i]. *)
Definition bound_before (nb : notebook) (i : nat) : list string :=
  cell_binds (code_before nb i).

Definition reads_bound_by_code (nb : notebook) : Prop :=
  forall i ss x, nb !! i = Some (Code ss) ->
    x ∈ external_reads [] ss -> x ∈ bound_before nb i.

(** *** C9: what the determinism of a run rests on *)

(** The operations performed before the seed is set, none of which may
    depend on the random generator: magics, imports, and the call that
    sets the plotting style. *)
Definition rng_free (o : op) : Prop :=
  match o with
  | OMagic _ | OImport _ => True
  | OCall f _ _ => qualname f = Some ["seaborn"; "set"]
  end.

Definition is_seed (o : op) : Prop :=
  match o with
  | OCall f _ _ => qualname f = Some ["numpy"; "random"; "seed"]
  | _ => False
  end.

(** Statements that bind a module or run a magic and evaluate nothing. *)
Definition import_like (s : stmt) : bool :=
  match s with
  | SMagic _ | SImport _ _ | SImportFrom _ _ | SPass => true
  | _ => false
  end.

(** The namespace such statements leave when none fails. *)
Definition bind_import (env : namespace) (s : stmt) : namespace :=
  match s with
  | SImport m a => <[a := VModule m]> env
  | SImportFrom m n => <[n := VAttr (VModule m) n]> env
  | _ => env
  end.

Definition imports_env (ss : list stmt) (env : namespace) : namespace :=
  fold_left bind_import ss env.

(** The argument of the seeding call. *)
Definition seed_argument : expr :=
  ECall (EName "sum")
    [ECall (EName "map") [EName "ord"; EStr "axis_grids"] []] [].

Definition seed_fn : value :=
  VAttr (VAttr (VModule "numpy") "random") "seed".

(** Two results that differ at most in the state of the generator. *)
Definition results_agree {world : Type} (agree : world -> world -> Prop)
    (r1 r2 : @result world) : Prop :=
  (failed r1 = failed r2) /\ (ns r1 = ns r2) /\ agree (after r1) (after r2).

(** Two runs that enter the same cells, agree, and are identical when
    complete. *)
Definition runs_agree {world : Type} (agree : world -> world -> Prop)
    (x1 x2 : list nat * @result world) : Prop :=
  (fst x1 = fst x2) /\
  results_agree agree (snd x1) (snd x2) /\
  (failed (snd x1) = None -> after (snd x1) = after (snd x2)).

End Props.
Import Props.

(** ** A small library to run the notebook against

    A stand-in for the external libraries, used to exhibit concrete
    executions.  Its world is the state of a random generator and a
    counter of objects created.  Seeding stores the seed; a call that
    jitters its data draws from the generator; setting the style returns
    nothing; a call that is handed the
    column name [no_such_column] raises; every other call returns a fresh
    object. *)

Module Demo.

Definition world : Type := (Z * N)%type.

Definition mentions_bad_column (args : list value) : bool :=
  existsb (fun v => match v with
                    | VStr s => bool_decide (s = "no_such_column")
                    | _ => false
                    end) args.

Definition lib (o : op) (w : world) : answer * world :=
  match o with
  | OMagic _ | OImport _ => (inr VNone, w)
  | OCall f args kwargs =>
      if bool_decide (qualname f = Some ["numpy"; "random"; "seed"]) then
        match args with
        | [VInt n] => (inr VNone, (n, snd w))
        | _ => (inl "TypeError: seed", w)
        end
      else if bool_decide (qualname f = Some ["seaborn"; "set"]) then
        (inr VNone, w)
      else if mentions_bad_column args then
        (inl "KeyError: no_such_column", w)
      else if bool_decide ("x_jitter" ∈ List.map fst kwargs) then
        (inr (VObj (Z.to_N (fst w))),
         ((fst w * 1103515245 + 12345) mod 2147483648, snd w)%Z)
      else (inr (VObj (snd w)), (fst w, N.succ (snd w)))
  end.

(** The same library, except that every [map] method rejects its
    arguments. *)
Definition lib_rejecting_map (o : op) (w : world) : answer * world :=
  match o with
  | OCall (VAttr _ "map") _ _ => (inl "KeyError: tip", w)
  | _ => lib o w
  end.

(** Two worlds that differ at most in the state of the generator. *)
Definition same_but_rng (w1 w2 : world) : Prop := snd w1 = snd w2.

(** A cell that names a column the dataset does not have. *)
Definition cell_bad_column : list stmt :=
  [ SAssign "g" (ECall (sns "FacetGrid") [EName "tips"] [("col", EStr "time")]);
    SExpr (ECall (g "map") [plt "hist"; EStr "no_such_column"] []);
    SExpr (ECall (g "add_legend") [] []) ].

(** The same cell with the call guarded by a handler. *)
Definition cell_guarded : list stmt :=
  [ SAssign "g" (ECall (sns "FacetGrid") [EName "tips"] [("col", EStr "time")]);
    STry [SExpr (ECall (g "map") [plt "hist"; EStr "no_such_column"] [])]
         (Some [SPass]) [] ].

(** The namespace after the imports and the load of [tips]. *)
Definition session : namespace :=
  <["tips" := VObj 0]>
    (<["sns" := VModule "seaborn"]>
       (<["plt" := VModule "matplotlib.pyplot"]> builtin_env)).

End Demo.

(** ** Predicates on computations and logs *)

(** Failures that come from the evaluator itself and from no library. *)
Definition internal (f : failure) : Prop :=
  match f with
  | TypeError _ | Unsupported => True
  | _ => False
  end.

Definition not_name_error (f : failure) : Prop := forall x, f <> NameError x.

(** A computation that can fail only in a way [Q] allows. *)
Definition fails_only {world A : Type} (Q : failure -> Prop) (m : @M world A)
  : Prop :=
  forall w f, fst (m w) = inl f -> Q f.

(** A log without a failed operation. *)
Definition clean (l : list event) : Prop :=
  forall o msg, (o, inl msg) ∉ l.

(** The log agrees with the outcome: a run that ends in a library error
    has that error as its last event and none before; any other run has
    a clean log. *)
Definition faithful (r : option failure) (l : list event) : Prop :=
  match r with
  | Some (LibraryError msg) => exists o l0, l = l0 ++ [(o, inl msg)] /\ clean l0
  | _ => clean l
  end.

Definition outcome {A} (r : failure + A) : option failure :=
  match r with inl f => Some f | inr _ => None end.

(** A computation over a logged world that extends the log faithfully. *)
Definition logs_faithfully {world A : Type} (m : @M (world * list event) A)
  : Prop :=
  forall (w : world) (log : list event),
    exists l, snd (snd (m (w, log))) = log ++ l /\
              faithful (outcome (fst (m (w, log)))) l.

(** The same for results of statements. *)
Definition result_faithful {world : Type} (log : list event)
    (r : @result (world * list event)) : Prop :=
  exists l, snd (after r) = log ++ l /\ faithful (failed r) l.

(** The assumptions on a library carry over to the library that keeps a
    log, for worlds that agree and have the same log. *)
Definition agree_logged {world : Type} (agree : world -> world -> Prop)
    (a b : world * list event) : Prop :=
  agree (fst a) (fst b) /\ snd a = snd b.

(** Induction on expressions, through argument lists. *)
Section ExprInd.

Variable P : expr -> Prop.
Hypothesis HName : forall x, P (EName x).
Hypothesis HStr : forall s, P (EStr s).
Hypothesis HInt : forall n, P (EInt n).
Hypothesis HFloat : forall l, P (EFloat l).
Hypothesis HBool : forall b, P (EBool b).
Hypothesis HNone : P ENone.
Hypothesis HNeg : forall e, P e -> P (ENeg e).
Hypothesis HAttr : forall e a, P e -> P (EAttr e a).
Hypothesis HCall : forall f args kwargs,
  P f -> Forall P args -> Forall (fun kv => P (snd kv)) kwargs ->
  P (ECall f args kwargs).
Hypothesis HList : forall es, Forall P es -> P (EList es).
Hypothesis HTuple : forall es, Forall P es -> P (ETuple es).
Hypothesis HDict : forall items,
  Forall (fun kv => P (fst kv) /\ P (snd kv)) items -> P (EDict items).
Hypothesis HIfExp : forall c t f, P c -> P t -> P f -> P (EIfExp c t f).
Hypothesis HLambda : forall ps b, P b -> P (ELambda ps b).
Hypothesis HYield : forall e, P e -> P (EYield e).
Hypothesis HAwait : forall e, P e -> P (EAwait e).

Fixpoint expr_rect_deep (e : expr) : P e :=
  match e with
  | EName x => HName x
  | EStr s => HStr s
  | EInt n => HInt n
  | EFloat l => HFloat l
  | EBool b => HBool b
  | ENone => HNone
  | ENeg e1 => HNeg e1 (expr_rect_deep e1)
  | EAttr e1 a => HAttr e1 a (expr_rect_deep e1)
  | ECall f args kwargs =>
      HCall f args kwargs (expr_rect_deep f)
        ((fix go (l : list expr) : Forall P l :=
            match l with
            | [] => Forall_nil_2 P
            | x :: r => Forall_cons_2 P x r (expr_rect_deep x) (go r)
            end) args)
        ((fix go (l : list (string * expr))
            : Forall (fun kv => P (snd kv)) l :=
            match l with
            | [] => Forall_nil_2 _
            | x :: r => Forall_cons_2 _ x r (expr_rect_deep (snd x)) (go r)
            end) kwargs)
  | EList es =>
      HList es
        ((fix go (l : list expr) : Forall P l :=
            match l with
            | [] => Forall_nil_2 P
            | x :: r => Forall_cons_2 P x r (expr_rect_deep x) (go r)
            end) es)
  | ETuple es =>
      HTuple es
        ((fix go (l : list expr) : Forall P l :=
            match l with
            | [] => Forall_nil_2 P
            | x :: r => Forall_cons_2 P x r (expr_rect_deep x) (go r)
            end) es)
  | EDict items =>
      HDict items
        ((fix go (l : list (expr * expr))
            : Forall (fun kv => P (fst kv) /\ P (snd kv)) l :=
            match l with
            | [] => Forall_nil_2 _
            | x :: r =>
                Forall_cons_2 _ x r
                  (conj (expr_rect_deep (fst x)) (expr_rect_deep (snd x)))
                  (go r)
            end) items)
  | EIfExp c t f =>
      HIfExp c t f (expr_rect_deep c) (expr_rect_deep t) (expr_rect_deep f)
  | ELambda ps b => HLambda ps b (expr_rect_deep b)
  | EYield e1 => HYield e1 (expr_rect_deep e1)
  | EAwait e1 => HAwait e1 (expr_rect_deep e1)
  end.

End ExprInd.

(** ** Further analyses of the cells

    What a cell can fail with, which cells it needs to have run, what
    its names stay bound to, and in what order it calls the library. *)

Module Flow.

Definition all_some {A B : Type} (f : A -> option B)
  : list A -> option (list B) :=
  fix go (l : list A) : option (list B) :=
    match l with
    | [] => Some []
    | a :: rest =>
        match f a, go rest with
        | Some b, Some bs => Some (b :: bs)
        | _, _ => None
        end
    end.

(** The value of an expression built from literals and builtins only,
    when it has one: such an expression asks nothing of a library. *)
Fixpoint pure_eval (e : expr) : option value :=
  match e with
  | EName b => if bool_decide (b ∈ builtins) then Some (VBuiltin b) else None
  | EStr s => Some (VStr s)
  | EInt n => Some (VInt n)
  | EFloat lit => Some (VFloat lit)
  | EBool b => Some (VBool b)
  | ENone => Some VNone
  | ENeg e1 =>
      match pure_eval e1 with
      | Some v => match negate v with inr v' => Some v' | inl _ => None end
      | None => None
      end
  | ECall f args kwargs =>
      match pure_eval f, all_some pure_eval args,
            all_some (fun kv => pair (fst kv) <$> pure_eval (snd kv)) kwargs
      with
      | Some (VBuiltin b), Some avs, Some kvs =>
          match apply_builtin b avs kvs with
          | inr v => Some v
          | inl _ => None
          end
      | _, _, _ => None
      end
  | EList es => VList <$> all_some pure_eval es
  | ETuple es => VTuple <$> all_some pure_eval es
  | _ => None
  end.

(** An attribute name that no value of a builtin type has: asking a
    string, a number, [None], a list, a tuple or a dict for it raises
    [AttributeError]. *)
Definition builtin_attributes : list string :=
  str_attributes ++ int_attributes ++ float_attributes ++ list_attributes
    ++ tuple_attributes ++ dict_attributes.

Definition foreign (a : string) : bool :=
  negb (String.prefix "__" a) && negb (bool_decide (a ∈ builtin_attributes)).

(** An expression that can only fail inside a library, on an attribute
    a value lacks, or on an unbound name: every call in it goes through
    an attribute, hence to a library, or is a builtin computation that
    succeeds, and no attribute in it is one of a builtin type. *)
Fixpoint lib_only (e : expr) : bool :=
  match e with
  | EName _ | EStr _ | EInt _ | EFloat _ | EBool _ | ENone => true
  | EAttr e1 a => lib_only e1 && foreign a
  | ECall (EAttr f1 a) args kwargs =>
      lib_only f1 && foreign a && forallb lib_only args
        && forallb (fun kv => lib_only (snd kv)) kwargs
  | ECall _ _ _ | ENeg _ => bool_decide (is_Some (pure_eval e))
  | EList es | ETuple es => forallb lib_only es
  | EDict items =>
      forallb (fun kv => lib_only (fst kv) && lib_only (snd kv)) items
  | _ => false
  end.

(** A simple statement whose expression is as above and that does not
    rebind a builtin. *)
Definition safe_stmt (s : stmt) : bool :=
  simple_stmt s
    && from_option lib_only true (stmt_expr s)
    && from_option (fun x => negb (bool_decide (x ∈ builtins))) true
         (stmt_binds s).

Definition safe_cell (ss : list stmt) : bool := forallb safe_stmt ss.

(** The names bound after running the cells [cs] in the given order
    from a namespace that binds [bound]; nothing when some cell is not
    safe or reads a name not bound by then. *)
Fixpoint bound_after (bound : gset string) (cs : list (nat * list stmt))
  : option (gset string) :=
  match cs with
  | [] => Some bound
  | (_, ss) :: rest =>
      if safe_cell ss
      then match names_defined bound ss with
           | Some bound' => bound_after bound' rest
           | None => None
           end
      else None
  end.

Definition runnable (bound : gset string) (cs : list (nat * list stmt))
  : bool :=
  bool_decide (is_Some (bound_after bound cs)).

(** The builtins are bound to themselves. *)
Definition builtins_intact (env : namespace) : Prop :=
  forall b, b ∈ builtins -> env !! b = Some (VBuiltin b).

Definition library_error (f : failure) : Prop :=
  exists msg, f = LibraryError msg.

Definition attribute_error (f : failure) : Prop :=
  exists a, f = AttributeError a.

(** The two ways a cell of the notebook can fail. *)
Definition library_or_attribute (f : failure) : Prop :=
  library_error f \/ attribute_error f.

(** The code cells at the given positions, in the given order; a
    position that holds no code cell contributes nothing. *)
Definition pick (nb : notebook) (positions : list nat)
  : list (nat * list stmt) :=
  omap (fun i => match nb !! i with
                 | Some (Code ss) => Some (i, ss)
                 | _ => None
                 end) positions.

(** The cells every other cell relies on: the imports, the load of
    [tips], and the cell that loads [iris]. *)
Definition essentials : list nat := [4; 7; 29].

(** Every code cell is safe and finds its names bound in [bound]. *)
Definition cells_ready (bound : gset string) (nb : notebook) : bool :=
  forallb (fun c => safe_cell (snd c)
                    && bool_decide (is_Some (names_defined bound (snd c))))
    (code_cells nb).

(** After the essential cells every cell is ready. *)
Definition ready_after_essentials (nb : notebook) : bool :=
  match bound_after (dom builtin_env) (pick nb essentials) with
  | Some bound => cells_ready bound nb
  | None => false
  end.

(** *** What names stay bound to *)

(** The value an import statement binds. *)
Definition module_value (s : stmt) : option value :=
  match s with
  | SImport m _ => Some (VModule m)
  | SImportFrom m n => Some (VAttr (VModule m) n)
  | _ => None
  end.

(** The module names of the notebook and what the import cell binds
    them to. *)
Definition module_table : list (string * value) :=
  [ ("np", VModule "numpy");
    ("pd", VModule "pandas");
    ("sns", VModule "seaborn");
    ("stats", VAttr (VModule "scipy") "stats");
    ("mpl", VModule "matplotlib");
    ("plt", VModule "matplotlib.pyplot") ].

Fixpoint same_module (v1 v2 : value) : bool :=
  match v1, v2 with
  | VModule a, VModule b => bool_decide (a = b)
  | VAttr u1 a, VAttr u2 b => same_module u1 u2 && bool_decide (a = b)
  | _, _ => false
  end.

(** A simple statement that leaves [a] alone, or is an import binding
    [a] to [m]. *)
Definition binds_only_module (a : string) (m : value) (s : stmt) : bool :=
  simple_stmt s
    && match stmt_binds s with
       | Some x =>
           negb (bool_decide (x = a))
           || match module_value s with
              | Some v => same_module v m
              | None => false
              end
       | None => true
       end.

(** A simple statement that never binds [a]. *)
Definition leaves_alone (a : string) (s : stmt) : bool :=
  simple_stmt s && negb (bool_decide (stmt_binds s = Some a)).

Definition every_stmt (p : stmt -> bool) (nb : notebook) : bool :=
  forallb (fun c => forallb p (snd c)) (code_cells nb).

(** The operation that loads the sample dataset [name]. *)
Definition load_op (name : string) : op :=
  OCall (VAttr (VModule "seaborn") "load_dataset") [VStr name] [].

Definition load_stmt (x name : string) : stmt :=
  SAssign x (ECall (EAttr (EName "sns") "load_dataset") [EStr name] []).

Definition is_load_stmt (x name : string) (s : stmt) : bool :=
  match s with
  | SAssign y (ECall (EAttr (EName m) f) [EStr n] []) =>
      bool_decide (y = x) && bool_decide (m = "sns")
        && bool_decide (f = "load_dataset") && bool_decide (n = name)
  | _ => false
  end.

(** With respect to the variable [x] and the dataset [name], a statement
    is the load of [name] into [x], or the import of seaborn as [sns], or
    a simple statement that binds neither [x] nor [sns]. *)
Definition keeps_provenance (x name : string) (s : stmt) : bool :=
  is_load_stmt x name s
  || (simple_stmt s
      && match stmt_binds s with
         | Some y =>
             if bool_decide (y = "sns")
             then match module_value s with
                  | Some v => same_module v (VModule "seaborn")
                  | None => false
                  end
             else negb (bool_decide (y = x))
         | None => true
         end).

(** [sns], when bound, is seaborn, and [x], when bound, holds an answer
    of the library to the load of [name]. *)
Definition provenance {world : Type} (x name : string) (env : namespace)
    (wl : world * list event) : Prop :=
  (env !! "sns" = None \/ env !! "sns" = Some (VModule "seaborn")) /\
  forall v, env !! x = Some v -> (load_op name, inr v) ∈ snd wl.

(** The datasets the notebook keeps in variables of the same name. *)
Definition datasets : list string := ["tips"; "iris"].

(** *** The order of the calls at run time *)

(** The shape of a call through an attribute: the attribute, the number
    of positional arguments and the keywords in the order they are
    given.  Read off the source ([g.map(plt.hist, "tip")] gives [map],
    2 and no keyword) and read off an operation performed at run time. *)
Definition signature : Type := string * nat * list string.

Definition called_signature (c : expr) : option signature :=
  match c with
  | ECall (EAttr _ a) args kwargs => Some (a, length args, List.map fst kwargs)
  | _ => None
  end.

Definition performed_signature (ev : event) : option signature :=
  match fst ev with
  | OCall (VAttr _ a) args kwargs => Some (a, length args, List.map fst kwargs)
  | _ => None
  end.

Definition performed (l : list event) : list signature :=
  omap performed_signature l.

Definition written (e : expr) : list signature :=
  omap called_signature (calls e).

Definition written_in (ss : list stmt) : list signature :=
  omap called_signature (cell_calls ss).

(** A computation over a logged world that performs the attribute calls
    [L], in order, when it succeeds, and an initial segment of them when
    it fails, and whose value then satisfies [post]. *)
Definition performs {world A : Type} (L : list signature) (post : A -> Prop)
    (m : @M (world * list event) A) : Prop :=
  forall (w : world) (log : list event),
    exists l, snd (snd (m (w, log))) = log ++ l /\
              match fst (m (w, log)) with
              | inr a => performed l = L /\ post a
              | inl _ => performed l `prefix_of` L
              end.

Definition result_performs {world : Type} (L : list signature)
    (log : list event) (r : @result (world * list event)) : Prop :=
  exists l, snd (after r) = log ++ l /\
            match failed r with
            | None => performed l = L
            | Some _ => performed l `prefix_of` L
            end.

(** *** What the calls are made on *)

(** A module or a member of one: [np], [np.random]. *)
Fixpoint from_module (v : value) : bool :=
  match v with
  | VModule _ => true
  | VAttr v1 _ => from_module v1
  | _ => false
  end.

(** A value satisfying [P] or an attribute of one: [g], [g.fig]. *)
Fixpoint members (P : value -> Prop) (r : value) : Prop :=
  P r \/ match r with
         | VAttr r1 _ => members P r1
         | _ => False
         end.

(** A callee that is one of the charting entry points of seaborn. *)
Definition charting_callee (fv : value) : bool :=
  match fv with
  | VAttr (VModule m) c =>
      bool_decide (m = "seaborn") && bool_decide (c ∈ charting_api)
  | _ => false
  end.

(** What a charting entry point returned, when the event is a call to
    one that succeeded. *)
Definition chart_answer (ev : event) : option value :=
  match ev with
  | (OCall fv _ _, inr v) => if charting_callee fv then Some v else None
  | _ => None
  end.

(** The grid (or figure) the library built last. *)
Definition grid_of (log : list event) : option value :=
  last (omap chart_answer log).

Definition answer_of (ev : event) : option value :=
  match snd ev with
  | inr v => Some v
  | inl _ => None
  end.

(** An operation asked after the events [before] is in order when it is
    a magic, an import, or a call through an attribute of a module (or
    of a member of one), of the grid built last (or of an attribute of
    it), or of the value the library returned just before. *)
Definition receiver_ok (before : list event) (o : op) : Prop :=
  match o with
  | OCall (VAttr r _) _ _ =>
      from_module r = true
      \/ members (fun v => grid_of before = Some v) r
      \/ last before ≫= answer_of = Some r
  | OCall _ _ _ => False
  | OMagic _ | OImport _ => True
  end.

Definition receivers_ok (log : list event) : Prop :=
  forall before ev rest,
    log = before ++ ev :: rest -> receiver_ok before (fst ev).

(** An expression that asks the library nothing: it holds no call, or
    only calls of builtins on values known from the text. *)
Definition no_calls (e : expr) : bool :=
  match calls e with
  | [] => true
  | _ :: _ => false
  end.

Definition silent (e : expr) : bool :=
  no_calls e || bool_decide (is_Some (pure_eval e)).

Definition quiet_args (args : list expr) (kwargs : list (string * expr))
  : bool :=
  forallb silent args && forallb (fun kv => silent (snd kv)) kwargs.

(** The module (or member) a dotted path names, by the import table. *)
Fixpoint module_path (e : expr) : option value :=
  match e with
  | EName x =>
      snd <$> List.find (fun p => bool_decide (fst p = x)) module_table
  | EAttr e1 a => (fun v => VAttr v a) <$> module_path e1
  | _ => None
  end.

(** A dotted path that starts at the grid variable. *)
Fixpoint grid_path (e : expr) : bool :=
  match e with
  | EName x => bool_decide (x = "g")
  | EAttr e1 _ => grid_path e1
  | _ => false
  end.

(** What an expression calls: nothing; a member of a module (a charting
    entry point of seaborn or not) with silent arguments; a method of
    the grid; or a method of what a call of the second kind returns. *)
Inductive receiver : Type :=
  | Nothing
  | Module (chart : bool)
  | Grid
  | Chained.

Definition module_call (e : expr) : option bool :=
  match e with
  | ECall (EAttr f a) args kwargs =>
      if quiet_args args kwargs
      then (fun m => charting_callee (VAttr m a)) <$> module_path f
      else None
  | _ => None
  end.

Definition target_of (e : expr) : option receiver :=
  if silent e then Some Nothing
  else match module_call e with
       | Some chart => Some (Module chart)
       | None =>
           match e with
           | ECall (EAttr f a) args kwargs =>
               if quiet_args args kwargs
                  && negb (bool_decide (a ∈ charting_api))
               then if grid_path f then Some Grid
                    else match module_call f with
                         | Some false => Some Chained
                         | _ => None
                         end
               else None
           | _ => None
           end
       end.

(** Whether [g] holds the grid built last, after a statement, given
    whether it did before; nothing when the statement calls a method of
    [g] while [g] does not hold it, or is of no form above. *)
Definition flow_expr (fresh : bool) (binds_g : bool) (e : expr)
  : option bool :=
  match target_of e with
  | Some (Module true) => Some binds_g
  | Some Grid => if fresh then Some (negb binds_g) else None
  | Some _ => Some (fresh && negb binds_g)
  | None => None
  end.

Definition flow_stmt (fresh : bool) (s : stmt) : option bool :=
  match s with
  | SMagic _ | SPass => Some fresh
  | SImport _ a | SImportFrom _ a =>
      Some (fresh && negb (bool_decide (a = "g")))
  | SAssign x e => flow_expr fresh (bool_decide (x = "g")) e
  | SExpr e => flow_expr fresh false e
  | _ => None
  end.

(** A statement that rebinds no builtin and binds a module name only by
    importing that module. *)
Definition keeps_names (s : stmt) : bool :=
  safe_stmt s
    && forallb (fun p => binds_only_module (fst p) (snd p) s) module_table.

Fixpoint flow (fresh : bool) (ss : list stmt) : option bool :=
  match ss with
  | [] => Some fresh
  | s :: rest =>
      if keeps_names s
      then match flow_stmt fresh s with
           | Some fresh' => flow fresh' rest
           | None => None
           end
      else None
  end.

(** A cell that relies on no grid built before it. *)
Definition disciplined (ss : list stmt) : bool :=
  match flow false ss with
  | Some _ => true
  | None => false
  end.

(** Builtins are intact and module names, when bound, name their
    modules. *)
Definition names_ok (env : namespace) : Prop :=
  builtins_intact env /\
  forall a m, (a, m) ∈ module_table -> env !! a = None \/ env !! a = Some m.

Definition fresh_ok (fresh : bool) (env : namespace) (log : list event)
  : Prop :=
  fresh = true ->
  exists gv, env !! "g" = Some gv /\ grid_of log = Some gv.

(** A computation that leaves the world as it is. *)
Definition silent_m {world A : Type} (m : @M world A) : Prop :=
  forall w, snd (m w) = w.

(** The failure or value a library answer becomes. *)
Definition outcome_of (a : answer) : failure + value :=
  match a with
  | inl msg => inl (LibraryError msg)
  | inr v => inr v
  end.

(** What evaluating one expression may do to the log: leave it and
    fail, or add one call in order, charting or not as [chart] says. *)
Definition one_call {world : Type} (chart : bool) (log : list event)
    (res : (failure + value) * (world * list event)) : Prop :=
  (snd (snd res) = log /\ exists x, fst res = inl x) \/
  exists fv avs kvs ans,
    snd (snd res) = log ++ [(OCall fv avs kvs, ans)] /\
    fst res = outcome_of ans /\
    receiver_ok log (OCall fv avs kvs) /\
    charting_callee fv = chart.

(** The log stays in order, and the grid built last is the one the
    expression returned when it called a charting entry point, and the
    one it was before otherwise. *)
Definition in_order {world : Type} (chart : bool) (log : list event)
    (res : (failure + value) * (world * list event)) : Prop :=
  receivers_ok (snd (snd res)) /\
  match chart, fst res with
  | true, inr v => grid_of (snd (snd res)) = Some v
  | true, inl _ => True
  | false, _ => grid_of (snd (snd res)) = grid_of log
  end.

(** *** Values that have the attributes asked of them *)

(** A value whose attributes are a library's: an object, a module, a
    member. *)
Definition is_object (v : value) : bool :=
  match v with
  | VObj _ | VModule _ | VAttr _ _ => true
  | _ => false
  end.

(** The functions of seaborn whose result the notebook asks attributes
    of: the charting entry points and the dataset loader. *)
Definition object_makers : list string := charting_api ++ ["load_dataset"].

Definition yields_object (fv : value) : bool :=
  match fv with
  | VAttr (VModule m) a =>
      bool_decide (m = "seaborn") && bool_decide (a ∈ object_makers)
  | _ => false
  end.

(** A library whose charting entry points and dataset loader, when they
    return, return an object. *)
Definition returns_objects {world : Type}
    (lib : op -> world -> answer * world) : Prop :=
  forall fv args kwargs u v,
    yields_object fv = true ->
    fst (lib (OCall fv args kwargs) u) = inr v -> is_object v = true.

(** A library that answers every operation. *)
Definition answers {world : Type} (lib : op -> world -> answer * world)
  : Prop :=
  forall o u, exists v, fst (lib o u) = inr v.

(** A call of one of those functions, by the import table. *)
Definition object_call (e : expr) : bool :=
  match e with
  | ECall f _ _ =>
      match module_path f with
      | Some fv => yields_object fv
      | None => false
      end
  | _ => false
  end.

(** Every attribute in the expression is asked of a module (or a member
    of one), of the grid (or an attribute of it), or of what one of
    those functions returned. *)
Fixpoint settled (e : expr) : bool :=
  match e with
  | EName _ | EStr _ | EInt _ | EFloat _ | EBool _ | ENone => true
  | ENeg e1 => settled e1
  | EAttr e1 _ =>
      bool_decide (is_Some (module_path e1)) || grid_path e1
        || (object_call e1 && settled e1)
  | ECall f args kwargs =>
      settled f && forallb settled args
        && forallb (fun kv => settled (snd kv)) kwargs
  | EList es | ETuple es => forallb settled es
  | EDict items =>
      forallb (fun kv => settled (fst kv) && settled (snd kv)) items
  | _ => false
  end.

(** A statement that keeps builtins and module names, whose attributes
    are settled, and that binds [g] only to what a charting entry point
    returned. *)
Definition settled_stmt (s : stmt) : bool :=
  keeps_names s
    && match s with
       | SAssign x e =>
           settled e && (negb (bool_decide (x = "g")) || object_call e)
       | SExpr e => settled e
       | SImport _ a | SImportFrom _ a => negb (bool_decide (a = "g"))
       | _ => true
       end.

Definition settled_cell (ss : list stmt) : bool := forallb settled_stmt ss.

(** Builtins and module names are in order and [g], when bound, holds an
    object. *)
Definition objects_ok (env : namespace) : Prop :=
  names_ok env /\
  forall gv, env !! "g" = Some gv -> is_object gv = true.

(** A computation that does not fail on a missing attribute and whose
    value satisfies [post]. *)
Definition attr_free {world A : Type} (post : A -> Prop) (m : @M world A)
  : Prop :=
  forall w, match fst (m w) with
            | inl f => forall a, f <> AttributeError a
            | inr v => post v
            end.

(** A cell that is not in the notebook: it adds a legend to whatever
    grid [g] holds. *)
Definition cell_reusing_grid : list stmt :=
  [SExpr (ECall (EAttr (EName "g") "add_legend") [] [])].

End Flow.
Import Flow.

(** A library that answers every operation, with nothing. *)
Module Quiet.

Definition lib (o : op) (w : unit) : answer * unit := (inr VNone, w).

End Quiet.

(** A library that answers every operation with a new object, and the
    same library made to reject the calls of one attribute. *)
Module Fresh.

Definition lib (o : op) (w : N) : answer * N := (inr (VObj w), N.succ w).

Definition lib_rejecting (a : string) (o : op) (w : N) : answer * N :=
  match o with
  | OCall (VAttr _ b) _ _ =>
      if bool_decide (b = a) then (inl ("rejected: " ++ a)%string, w)
      else lib o w
  | _ => lib o w
  end.

End Fresh.
(** ** The notebook at a glance *)

(** The code cells with their positions in the worksheet. *)
Lemma code_cells_axis_grids :
  code_cells axis_grids =
  [ (3, cell_magic); (4, cell_imports); (5, cell_setup); (7, cell_tips);
    (8, cell_facet_init); (10, cell_facet_hist); (12, cell_facet_hue);
    (14, cell_facet_margin); (16, cell_facet_size); (18, cell_facet_order);
    (20, cell_facet_palette); (22, cell_facet_hue_kws);
    (24, cell_facet_wrap); (26, cell_facet_labels); (29, cell_pair_basic);
    (31, cell_pair_diag); (33, cell_pair_hue); (35, cell_pair_vars);
    (37, cell_pair_triangles); (39, cell_pair_xy); (41, cell_pair_palette);
    (43, cell_pairplot); (45, cell_pairplot_kde); (47, cell_joint_init);
    (49, cell_joint_plot); (51, cell_joint_parts); (53, cell_joint_ratio);
    (55, cell_joint_space); (57, cell_jointplot); (59, cell_jointplot_hex) ].
Proof. reflexivity. Qed.

Lemma in_code_cells (nb : notebook) (i : nat) (ss : list stmt) :
  nb !! i = Some (Code ss) -> (i, ss) ∈ code_cells nb.
Proof.
  intros H. unfold code_cells.
  apply list_elem_of_omap. exists (i, Code ss). split; [|reflexivity].
  apply list_elem_of_lookup. exists i.
  rewrite list_lookup_imap, H. reflexivity.
Qed.

Lemma code_cells_sound (nb : notebook) (i : nat) (ss : list stmt) :
  (i, ss) ∈ code_cells nb -> nb !! i = Some (Code ss).
Proof.
  unfold code_cells. intros H.
  apply list_elem_of_omap in H as ([j c] & Hin & Hc).
  apply list_elem_of_lookup in Hin as (k & Hk).
  rewrite list_lookup_imap in Hk.
  destruct (nb !! k) as [c'|] eqn:E; simpl in Hk; [|discriminate].
  injection Hk as <- <-. destruct c'; simpl in Hc; try discriminate.
  injection Hc as <- <-. exact E.
Qed.

(** A property of every code cell follows from the property on the
    list of code cells. *)
Lemma code_cells_forall (P : nat -> list stmt -> Prop) (nb : notebook) :
  Forall (fun p => P (fst p) (snd p)) (code_cells nb) ->
  forall i ss, nb !! i = Some (Code ss) -> P i ss.
Proof.
  intros HF i ss H. apply in_code_cells in H.
  rewrite Forall_forall in HF. exact (HF (i, ss) H).
Qed.

Ltac each_code_cell :=
  lazymatch goal with
  | |- forall i ss, _ !! i = Some (Code ss) -> @?P i ss =>
      apply (code_cells_forall P)
  end;
  rewrite code_cells_axis_grids;
  repeat (apply Forall_cons_2; [cbn [fst snd] |]); [.. | apply Forall_nil_2].

(** Case analysis on a position in a concrete list. *)
Ltac by_position j H :=
  lazymatch type of H with
  | _ !! _ = Some _ =>
      cbn in H;
      first [ discriminate H
            | destruct j as [|j];
              [cbn in H; try discriminate H | by_position j H] ]
  end.

Lemma forallb_elem {A} (f : A -> bool) (l : list A) (x : A) :
  forallb f l = true -> x ∈ l -> f x = true.
Proof.
  intros H Hx. rewrite forallb_forall in H. apply H.
  apply list_elem_of_In. exact Hx.
Qed.

(** A boolean check that passes on the list of code cells holds of every
    code cell. *)
Lemma check_code_cells (f : nat -> list stmt -> bool) (nb : notebook) :
  forallb (fun p => f (fst p) (snd p)) (code_cells nb) = true ->
  forall i ss, nb !! i = Some (Code ss) -> f i ss = true.
Proof.
  intros H i ss Hc.
  exact (forallb_elem _ _ (i, ss) H (in_code_cells nb i ss Hc)).
Qed.

Ltac compute_in H l :=
  let v := eval vm_compute in l in
  replace l with v in H by (vm_compute; reflexivity).

(** ** Shape of the cells (C2) *)

(** C2, as stated, fails: the cell of imports is a code cell and calls
    none of the five charting entry points (nor does the magic cell, the
    setup cell or the cell that loads [tips]). *)
Lemma C2_preamble_cells_do_not_chart :
  axis_grids !! 4 = Some (Code cell_imports) /\
  charting_calls cell_imports = [] /\
  ~ every_cell_text_or_chart axis_grids.
Proof.
  split; [reflexivity|]. split; [reflexivity|].
  intros H. destruct (H 4 (Code cell_imports) eq_refl) as [Ht | (ss & E & _ & Hg)].
  - discriminate Ht.
  - injection E as <-. discriminate Hg.
Qed.

(** C2, amended: every cell is a text cell or a straight-line code cell;
    the four preamble code cells (magic, imports, setup, load of [tips])
    call no charting entry point, and every other code cell calls exactly
    one of [FacetGrid], [PairGrid], [JointGrid], [pairplot], [jointplot]. *)
Theorem C2_cells_text_or_straight_line (i : nat) (c : cell) :
  axis_grids !! i = Some c ->
  is_text c = true \/
  exists ss, c = Code ss /\ straight_line ss = true /\
    if bool_decide (i ∈ preamble) then charting_calls ss = []
    else length (charting_calls ss) = 1.
Proof.
  intros H. destruct c as [n l | n t | ss]; [left; reflexivity ..|].
  right. exists ss. split; [reflexivity|].
  revert i ss H. each_code_cell; (split; reflexivity).
Qed.

Lemma C2_witness :
  axis_grids !! 12 = Some (Code cell_facet_hue) /\
  (is_text (Code cell_facet_hue) = true \/
   exists ss, Code cell_facet_hue = Code ss /\ straight_line ss = true /\
     if bool_decide (12 ∈ preamble) then charting_calls ss = []
     else length (charting_calls ss) = 1).
Proof.
  split; [reflexivity|].
  apply (C2_cells_text_or_straight_line 12 (Code cell_facet_hue)).
  reflexivity.
Defined.

(** ** Order of the calls on a grid (C7, C10) *)

Ltac member_cases H :=
  repeat (apply elem_of_cons in H as [-> | H]); try (apply elem_of_nil in H; destruct H).

(** C7: in every code cell, the events on a grid come in the order
    construct, then map, then label: a mapping call and a labeling call on
    a variable are preceded by the construction of the grid bound to that
    variable in the same cell, and every mapping call precedes every
    labeling or annotation call. *)
Theorem C7_construct_then_map_then_label (i : nat) (ss : list stmt) :
  axis_grids !! i = Some (Code ss) ->
  let ev := cell_events (module_names axis_grids) ss in
  (forall j x, ev !! j = Some (Mapping, x) ->
     exists k, k < j /\ ev !! k = Some (Construct, x)) /\
  (forall j x, ev !! j = Some (Labeling, x) ->
     exists k, k < j /\ ev !! k = Some (Construct, x)) /\
  (forall j k x y, ev !! j = Some (Mapping, x) ->
     ev !! k = Some (Labeling, y) -> j < k).
Proof.
  revert i ss. each_code_cell.
  all: match goal with
    | |- context [cell_events ?m ?c] =>
        let v := eval vm_compute in (cell_events m c) in
        replace (cell_events m c) with v by (vm_compute; reflexivity)
    end.
  all: split;
    [ intros j x H; by_position j H;
      (injection H as <-; exists 0; (split; [lia | reflexivity]))
    | split;
      [ intros j x H; by_position j H;
        (injection H as <-; exists 0; (split; [lia | reflexivity]))
      | intros j k x y Hj Hk; by_position j Hj; by_position k Hk; lia ] ].
Qed.

Lemma C7_witness :
  axis_grids !! 51 = Some (Code cell_joint_parts) /\
  let ev := cell_events (module_names axis_grids) cell_joint_parts in
  (forall j x, ev !! j = Some (Mapping, x) ->
     exists k, k < j /\ ev !! k = Some (Construct, x)) /\
  (forall j x, ev !! j = Some (Labeling, x) ->
     exists k, k < j /\ ev !! k = Some (Construct, x)) /\
  (forall j k x y, ev !! j = Some (Mapping, x) ->
     ev !! k = Some (Labeling, y) -> j < k).
Proof.
  split; [reflexivity|].
  apply (C7_construct_then_map_then_label 51 cell_joint_parts). reflexivity.
Defined.

(** The events of the cell that sets axis labels, spelled out. *)
Example events_of_labels_cell :
  cell_events (module_names axis_grids) cell_facet_labels =
  [(Construct, "g"); (Mapping, "g"); (Labeling, "g"); (Labeling, "g")].
Proof. reflexivity. Qed.

(** The order in which [calls] lists the calls of the cells is the order
    in which a complete run performs them: the method and function names
    read off the source are the ones the library is asked for, one by
    one. *)
Example source_order_is_run_order :
  omap called_attribute
    (flat_map (fun p => cell_calls (snd p)) (code_cells axis_grids))
  = omap performed_attribute
      (snd (after (snd (run_notebook (logged Demo.lib) axis_grids
                          ((0%Z, 0%N), []))))).
Proof. vm_compute. reflexivity. Qed.

(** C10: whenever a cell calls [x.add_legend()], an earlier statement of
    the same cell binds [x] to a grid built by a charting entry point that
    is given a [hue] keyword, and [x] is not rebound in between. *)
Theorem C10_legend_only_with_hue
  (i : nat) (ss : list stmt) (j : nat) (s : stmt) (c : expr) (x : string) :
  axis_grids !! i = Some (Code ss) ->
  ss !! j = Some s ->
  c ∈ stmt_calls s ->
  call_path c = Some [x; "add_legend"] ->
  exists k e,
    k < j /\ ss !! k = Some (SAssign x e) /\
    is_charting_call e = true /\ has_keyword "hue" e = true /\
    forall k' s', k < k' < j -> ss !! k' = Some s' -> stmt_binds s' <> Some x.
Proof.
  intros Hcell. revert j s c x. revert i ss Hcell. each_code_cell.
  all: intros j s c x Hs Hc Hp; by_position j Hs; injection Hs as <-.
  all: cbn in Hc; member_cases Hc.
  all: vm_compute in Hp; try discriminate Hp; injection Hp as <-.
  all: first
    [ exists 0; eexists; (split; [lia|]); (split; [reflexivity|])
    | exists 1; eexists; (split; [lia|]); (split; [reflexivity|]) ].
  all: (split; [reflexivity|]); (split; [reflexivity|]).
  all: intros k' s' [Hlo Hhi] Hs'; by_position k' Hs'; try lia.
  all: injection Hs' as <-; cbn; discriminate.
Qed.

Lemma C10_witness :
  axis_grids !! 33 = Some (Code cell_pair_hue) /\
  cell_pair_hue !! 3 = Some (SExpr (ECall (g "add_legend") [] [])) /\
  exists k e,
    k < 3 /\ cell_pair_hue !! k = Some (SAssign "g" e) /\
    is_charting_call e = true /\ has_keyword "hue" e = true /\
    forall k' s', k < k' < 3 -> cell_pair_hue !! k' = Some s' ->
      stmt_binds s' <> Some "g".
Proof.
  split; [reflexivity|]. split; [reflexivity|].
  apply (C10_legend_only_with_hue 33 cell_pair_hue 3
           (SExpr (ECall (g "add_legend") [] []))
           (ECall (g "add_legend") [] []) "g").
  - reflexivity.
  - reflexivity.
  - cbn. apply list_elem_of_singleton. reflexivity.
  - reflexivity.
Defined.

(** The cells that ask for a legend, and the grid each builds. *)
Example legend_cells :
  List.map fst
    (List.filter
       (fun p => existsb (fun c => bool_decide (call_path c = Some ["g"; "add_legend"]))
                   (cell_calls (snd p)))
       (code_cells axis_grids))
  = [12; 20; 22; 33; 41].
Proof. reflexivity. Qed.

(** ** The interfaces the calls resolve to (C6) *)

(** C6, as stated, fails: the setup cell calls [np.random.seed], which
    resolves to numpy and not to the plotting library's grid API or the
    dataset loader. *)
Lemma C6_seed_call_resolves_to_numpy :
  exists c,
    axis_grids !! 5 = Some (Code cell_setup) /\
    c ∈ cell_calls cell_setup /\
    classify (module_aliases axis_grids) c = Some (Numerical ["random"; "seed"]) /\
    ~ only_grid_api_and_loader axis_grids.
Proof.
  eexists. split; [reflexivity|]. split; [|split].
  - cbn. do 3 apply list_elem_of_further. apply list_elem_of_here.
  - reflexivity.
  - intros H.
    destruct (H 5 cell_setup
                (ECall (EAttr (EAttr (EName "np") "random") "seed")
                   [ECall (EName "sum")
                      [ECall (EName "map") [EName "ord"; EStr "axis_grids"] []] []]
                   []) eq_refl) as (k & Hk & Hg).
    + cbn. do 3 apply list_elem_of_further. apply list_elem_of_here.
    + vm_compute in Hk. injection Hk as <-. discriminate Hg.
Qed.

(** C6, amended: every call of every code cell resolves to one of: a
    function of the plotting library ([set], [load_dataset] and the five
    charting entry points), a mapping or labeling method of a grid, the
    [subplots_adjust] method of a grid's figure, [numpy.random.seed], the
    [query] method of a loaded dataset, or one of the builtins [sum],
    [map], [dict]; modules are imported in the import cell only
    and are numpy, pandas, seaborn, scipy and matplotlib.  None of these
    is a file, wire or command-line interface of the notebook's own. *)
Theorem C6_calls_resolve_to_known_interfaces
  (i : nat) (ss : list stmt) :
  axis_grids !! i = Some (Code ss) ->
  (forall c, c ∈ cell_calls ss ->
     exists k, classify (module_aliases axis_grids) c = Some k /\
               k ∈ interfaces_used) /\
  (forall s m, s ∈ all_stmts ss -> import_module s = Some m ->
     i = 4 /\ m ∈ imported_modules).
Proof.
  intros Hcell. split.
  - intros c Hc.
    assert (Hall : forallb (fun p => forallb
                      (uses_known_interface (module_aliases axis_grids))
                      (cell_calls (snd p))) (code_cells axis_grids) = true)
      by (vm_compute; reflexivity).
    pose proof (check_code_cells
                  (fun _ ss => forallb
                     (uses_known_interface (module_aliases axis_grids))
                     (cell_calls ss)) axis_grids Hall i ss Hcell) as Hss.
    cbv beta in Hss. pose proof (forallb_elem _ _ c Hss Hc) as Hk.
    unfold uses_known_interface in Hk.
    destruct (classify (module_aliases axis_grids) c) as [k|]; [|discriminate].
    exists k. split; [reflexivity|]. apply bool_decide_eq_true in Hk. exact Hk.
  - intros s m Hs Hm.
    assert (Hall : forallb (fun p => imports_ok (fst p) (snd p))
                     (code_cells axis_grids) = true)
      by (vm_compute; reflexivity).
    pose proof (check_code_cells imports_ok axis_grids Hall i ss Hcell) as Hss.
    unfold imports_ok in Hss. pose proof (forallb_elem _ _ s Hss Hs) as Hk.
    cbv beta in Hk. rewrite Hm in Hk. apply andb_true_iff in Hk as [H4 Hmod].
    apply bool_decide_eq_true in H4, Hmod. split; assumption.
Qed.

Lemma C6_witness :
  axis_grids !! 24 = Some (Code cell_facet_wrap) /\
  (forall c, c ∈ cell_calls cell_facet_wrap ->
     exists k, classify (module_aliases axis_grids) c = Some k /\
               k ∈ interfaces_used) /\
  (forall s m, s ∈ all_stmts cell_facet_wrap -> import_module s = Some m ->
     24 = 4 /\ m ∈ imported_modules).
Proof.
  split; [reflexivity|].
  apply (C6_calls_resolve_to_known_interfaces 24 cell_facet_wrap).
  reflexivity.
Defined.

(** Each listed interface is in use: the list is not padded. *)
Example interfaces_used_exact :
  forallb (fun k => existsb
             (fun c => bool_decide (classify (module_aliases axis_grids) c = Some k))
             (flat_map (fun p => cell_calls (snd p)) (code_cells axis_grids)))
    interfaces_used = true.
Proof. vm_compute. reflexivity. Qed.

(** ** What cells share (C1, C5) *)

Lemma setters_only_in_setup_spec (i : nat) (ss : list stmt) :
  axis_grids !! i = Some (Code ss) -> global_setter_calls ss <> [] -> i = 5.
Proof.
  intros Hcell Hne.
  assert (Hall : forallb (fun p => setters_only_in_setup (fst p) (snd p))
                   (code_cells axis_grids) = true)
    by (vm_compute; reflexivity).
  pose proof (check_code_cells setters_only_in_setup axis_grids Hall i ss Hcell)
    as H.
  apply orb_true_iff in H as [H | H]; apply bool_decide_eq_true in H;
    [contradiction | exact H].
Qed.

(** C1, as stated, fails twice: the import cell constructs no grid, and
    the first plotting cell reads [sns], which an earlier cell bound by an
    import and which is no dataset. *)
Lemma C1_cells_also_share_modules :
  axis_grids !! 4 = Some (Code cell_imports) /\
  constructs_grid cell_imports = false /\
  axis_grids !! 8 = Some (Code cell_facet_init) /\
  from_other_cells cell_facet_init = ["sns"; "tips"] /\
  dataset_vars axis_grids 8 = ["tips"] /\
  ~ cells_independent axis_grids.
Proof.
  repeat (split; [reflexivity|]).
  intros H. destruct (H 4 cell_imports eq_refl) as [Hg _]. discriminate Hg.
Qed.

(** What the cell that draws the diagonal reads from earlier cells: the
    [iris] dataset, loaded two cells before, and two modules. *)
Example pair_diag_inputs :
  from_other_cells cell_pair_diag = ["sns"; "iris"; "plt"; "plt"] /\
  dataset_vars axis_grids 31 = ["tips"; "iris"].
Proof. split; reflexivity. Qed.

(** C5, as stated, fails: code cells do write module-level state.  The
    cell that loads [tips] binds a global of the notebook, and the setup
    cell calls the two library functions that set process-global state. *)
Lemma C5_cells_write_global_state :
  axis_grids !! 7 = Some (Code cell_tips) /\
  module_level_writes cell_tips = ["tips"] /\
  axis_grids !! 5 = Some (Code cell_setup) /\
  List.map call_path (global_setter_calls cell_setup)
    = [Some ["sns"; "set"]; Some ["np"; "random"; "seed"]] /\
  ~ no_global_state axis_grids.
Proof.
  repeat (split; [reflexivity|]).
  intros H. destruct (H 7 cell_tips eq_refl) as (_ & [Hw _] & _).
  discriminate Hw.
Qed.

(** Run against the stand-in library, the cell that loads [tips] leaves
    a binding in the notebook's namespace that was not there before. *)
Example tips_becomes_a_global :
  let before : namespace := <["sns" := VModule "seaborn"]> builtin_env in
  let r := exec_cell Demo.lib cell_tips before (0%Z, 0%N) in
  before !! "tips" = None /\ failed r = None /\ ns r !! "tips" = Some (VObj 0).
Proof. vm_compute. repeat split. Qed.

(** C5, amended: no code cell defines a class or contains a generator or
    async construct, and every code cell is straight-line (no function
    definition, no [global] declaration, no loop).  Code cells do write
    module-level state: their imports and assignments bind names of the
    notebook's global namespace, and the setup cell, and only it, calls
    library functions that set process-global state. *)
Theorem C5_no_classes_no_coroutines (i : nat) (ss : list stmt) :
  axis_grids !! i = Some (Code ss) ->
  no_classes ss = true /\ no_coroutines ss = true /\
  straight_line ss = true /\
  (forall x, x ∈ module_level_writes ss -> x ∈ notebook_globals) /\
  (global_setter_calls ss <> [] -> i = 5).
Proof.
  intros Hcell.
  assert (Hall : forallb
            (fun p => no_classes (snd p) && no_coroutines (snd p)
                      && straight_line (snd p)
                      && forallb (fun x => bool_decide (x ∈ notebook_globals))
                           (module_level_writes (snd p)))
            (code_cells axis_grids) = true)
    by (vm_compute; reflexivity).
  pose proof (check_code_cells
                (fun _ ss => no_classes ss && no_coroutines ss
                             && straight_line ss
                             && forallb (fun x => bool_decide (x ∈ notebook_globals))
                                  (module_level_writes ss))
                axis_grids Hall i ss Hcell) as H.
  cbv beta in H. repeat (apply andb_true_iff in H as [H ?]).
  repeat (split; [assumption|]). split.
  - intros x Hx.
    match goal with
    | Hf : forallb _ (module_level_writes ss) = true |- _ =>
        pose proof (forallb_elem _ _ x Hf Hx) as Hk
    end.
    apply bool_decide_eq_true in Hk. exact Hk.
  - apply setters_only_in_setup_spec. exact Hcell.
Qed.

Lemma C5_witness :
  axis_grids !! 53 = Some (Code cell_joint_ratio) /\
  no_classes cell_joint_ratio = true /\ no_coroutines cell_joint_ratio = true /\
  straight_line cell_joint_ratio = true /\
  (forall x, x ∈ module_level_writes cell_joint_ratio -> x ∈ notebook_globals) /\
  (global_setter_calls cell_joint_ratio <> [] -> 53 = 5).
Proof.
  split; [reflexivity|].
  apply (C5_no_classes_no_coroutines 53 cell_joint_ratio). reflexivity.
Defined.

(** Every listed global is bound by some cell. *)
Example notebook_globals_exact :
  forallb (fun x => bool_decide
             (x ∈ flat_map (fun p => module_level_writes (snd p))
                    (code_cells axis_grids)))
    notebook_globals = true.
Proof. vm_compute. reflexivity. Qed.

(** ** Reasoning about evaluation *)


(** *** Failures of the builtins *)

Lemma sum_from_internal (vs : list value) (acc : Z) (f : failure) :
  sum_from acc vs = inl f -> internal f.
Proof.
  revert acc. induction vs as [|v vs IH]; intros acc H; [discriminate|].
  destruct v; simpl in H; try (injection H as <-; exact I).
  eapply IH; eassumption.
Qed.

Lemma map_pure_internal (h : value -> failure + value) (vs : list value)
    (f : failure) :
  (forall v f', h v = inl f' -> internal f') ->
  map_pure h vs = inl f -> internal f.
Proof.
  intros Hg. induction vs as [|v vs IH]; simpl; [discriminate|].
  destruct (h v) as [f'|y] eqn:E.
  - intros H. injection H as <-. eapply Hg; eassumption.
  - destruct (map_pure h vs) as [f'|ys]; [|discriminate].
    intros H. injection H as <-. apply IH. reflexivity.
Qed.

Lemma apply_first_order_internal b args kwargs (f : failure) :
  apply_first_order b args kwargs = inl f -> internal f.
Proof.
  unfold apply_first_order.
  destruct (bool_decide (b = "ord")); [|destruct (bool_decide (b = "sum"));
    [|destruct (bool_decide (b = "dict"))]].
  - destruct args as [|v [|? ?]]; destruct kwargs;
      try (intros H; injection H as <-; exact I).
    unfold ord. destruct v as [s| | | | | | | | | | |];
      try (intros H; injection H as <-; exact I).
    destruct s as [|a [|? ?]]; intros H; try discriminate;
      injection H as <-; exact I.
  - destruct args as [|v [|? ?]]; destruct kwargs;
      try (intros H; injection H as <-; exact I).
    destruct (iter_values v); [apply sum_from_internal|].
    intros H; injection H as <-; exact I.
  - destruct args; intros H; [discriminate|]. injection H as <-; exact I.
  - intros H; injection H as <-; exact I.
Qed.

Lemma apply_builtin_internal b args kwargs (f : failure) :
  apply_builtin b args kwargs = inl f -> internal f.
Proof.
  unfold apply_builtin.
  destruct (bool_decide (b = "map")); [|apply apply_first_order_internal].
  destruct args as [|fv [|xs [|? ?]]]; try destruct fv; destruct kwargs;
    try (intros H; injection H as <-; exact I).
  destruct (iter_values xs); [|intros H; injection H as <-; exact I].
  destruct (map_pure _ _) as [f'|ys] eqn:E; [|discriminate].
  intros H. injection H as <-.
  eapply map_pure_internal; [|exact E].
  intros v f0. apply apply_first_order_internal.
Qed.

(** *** Which failures a computation can end in *)

(** Attribute access fails in two ways only. *)
Lemma getattr_fails (v : value) (a : string) (f : failure) :
  getattr v a = inl f -> f = Unsupported \/ f = AttributeError a.
Proof.
  destruct v; simpl; try discriminate;
    destruct (String.prefix "__" a || _); intros H; injection H as <-;
    auto.
Qed.

Lemma getattr_shape (v : value) (a : string) (fv : value) :
  getattr v a = inr fv -> fv = VAttr v a.
Proof.
  destruct v; simpl; try (destruct (String.prefix "__" a || _); discriminate);
    intros H; injection H as <-; reflexivity.
Qed.

Section FailsOnly.

Context {world : Type}.
Variable lib : op -> world -> answer * world.
Variable Q : failure -> Prop.
Hypothesis Q_internal : forall f, internal f -> Q f.
Hypothesis Q_library : forall msg, Q (LibraryError msg).
Hypothesis Q_attribute : forall a, Q (AttributeError a).

Lemma fails_only_ret {A} (a : A) : fails_only Q (@ret world A a).
Proof. intros w f H. discriminate H. Qed.

Lemma fails_only_bind {A B} (m : @M world A) (k : A -> @M world B) :
  fails_only Q m -> (forall a, fails_only Q (k a)) -> fails_only Q (bind m k).
Proof.
  intros Hm Hk w f. unfold bind.
  destruct (m w) as [[e|a] w'] eqn:E.
  - intros H. injection H as <-. apply (Hm w). rewrite E. reflexivity.
  - apply Hk.
Qed.

Lemma fails_only_mapM {A B} (h : A -> @M world B) (l : list A) :
  Forall (fun a => fails_only Q (h a)) l -> fails_only Q (mapM h l).
Proof.
  induction 1 as [|a l Ha _ IH]; simpl.
  - apply fails_only_ret.
  - apply fails_only_bind; [exact Ha|]. intros b.
    apply fails_only_bind; [exact IH|]. intros bs. apply fails_only_ret.
Qed.

Lemma fails_only_lift {A} (r : failure + A) :
  (forall f, r = inl f -> internal f) -> fails_only Q (@lift world A r).
Proof. intros H w f E. apply Q_internal, H. exact E. Qed.

Lemma fails_only_getattr (v : value) (a : string) :
  fails_only Q (@lift world value (getattr v a)).
Proof.
  intros w f H. simpl in H. destruct (getattr_fails v a f H) as [-> | ->].
  - apply Q_internal. exact I.
  - apply Q_attribute.
Qed.

Lemma fails_only_ask (o : op) : fails_only Q (ask lib o).
Proof.
  intros w f. unfold ask. destruct (lib o w) as [[msg|v] w'].
  - intros H. injection H as <-. apply Q_library.
  - discriminate.
Qed.

Lemma fails_only_apply fv args kwargs : fails_only Q (apply lib fv args kwargs).
Proof.
  destruct fv; simpl; try apply fails_only_ask;
    try (intros w f H; injection H as <-; apply Q_internal; exact I).
  apply fails_only_lift. intros f. apply apply_builtin_internal.
Qed.

End FailsOnly.

Lemma elem_of_flat_map {A B} (h : A -> list B) (l : list A) (y : B) :
  y ∈ flat_map h l <-> exists a, a ∈ l /\ y ∈ h a.
Proof.
  rewrite list_elem_of_In, in_flat_map. split.
  - intros (a & Ha & Hy). exists a. rewrite !list_elem_of_In. auto.
  - intros (a & Ha & Hy). exists a. rewrite <- !list_elem_of_In. auto.
Qed.

(** *** No read of an unbound name *)

Lemma internal_not_name_error (f : failure) : internal f -> not_name_error f.
Proof. destruct f; simpl; intros H x; try contradiction; discriminate. Qed.

Section Names.

Context {world : Type}.
Variable lib : op -> world -> answer * world.

Local Abbreviation safe := (fails_only not_name_error).

Lemma safe_bind {A B} (m : @M world A) (k : A -> @M world B) :
  safe m -> (forall a, safe (k a)) -> safe (bind m k).
Proof. apply fails_only_bind. Qed.

Lemma safe_mapM {A B} (h : A -> @M world B) (l : list A) :
  Forall (fun a => safe (h a)) l -> safe (mapM h l).
Proof. apply fails_only_mapM. Qed.

Lemma safe_ret {A} (a : A) : safe (@ret world A a).
Proof. apply fails_only_ret. Qed.

Lemma safe_lift {A} (r : failure + A) :
  (forall f, r = inl f -> internal f) -> safe (@lift world A r).
Proof. apply fails_only_lift. exact internal_not_name_error. Qed.

Lemma safe_apply fv args kwargs : safe (apply lib fv args kwargs).
Proof.
  apply fails_only_apply; [exact internal_not_name_error|].
  intros msg x. discriminate.
Qed.

Lemma safe_unsupported {A} : safe (@throw world A Unsupported).
Proof. intros w f H. injection H as <-. intros x. discriminate. Qed.

(** An expression whose free names are all bound does not end in a
    [NameError]. *)
Lemma eval_names (env : namespace) (e : expr) :
  (forall x, x ∈ reads e -> is_Some (env !! x)) -> safe (eval lib env e).
Proof.
  induction e using expr_rect_deep; intros Hr; simpl.
  - destruct (Hr x) as [v Hv]; [apply list_elem_of_singleton; reflexivity|].
    rewrite Hv. apply safe_ret.
  - apply safe_ret.
  - apply safe_ret.
  - apply safe_ret.
  - apply safe_ret.
  - apply safe_ret.
  - apply safe_bind; [apply IHe; exact Hr|]. intros v. apply safe_lift.
    intros f. destruct v; simpl; intros H; try discriminate;
      injection H as <-; exact I.
  - apply safe_bind; [apply IHe; exact Hr|]. intros v.
    apply fails_only_getattr; [exact internal_not_name_error|].
    intros a0 x. discriminate.
  - simpl in Hr. apply safe_bind.
    { apply IHe. intros x Hx. apply Hr. rewrite !elem_of_app. auto. }
    intros fv. apply safe_bind.
    { apply safe_mapM. rewrite Forall_forall in *. intros a Ha. apply H.
      - exact Ha.
      - intros x Hx. apply Hr. rewrite !elem_of_app. right. left.
        apply elem_of_flat_map. eauto. }
    intros avs. apply safe_bind.
    { apply safe_mapM. rewrite Forall_forall in *. intros kv Hkv.
      apply safe_bind; [|intros v; apply safe_ret]. apply H0.
      - exact Hkv.
      - intros x Hx. apply Hr. rewrite !elem_of_app. right. right.
        apply elem_of_flat_map. eauto. }
    intros kvs. apply safe_apply.
  - apply safe_bind; [|intros vs; apply safe_ret].
    apply safe_mapM. rewrite Forall_forall in *. intros a Ha. apply H; [exact Ha|].
    intros x Hx. apply Hr. simpl. apply elem_of_flat_map. eauto.
  - apply safe_bind; [|intros vs; apply safe_ret].
    apply safe_mapM. rewrite Forall_forall in *. intros a Ha. apply H; [exact Ha|].
    intros x Hx. apply Hr. simpl. apply elem_of_flat_map. eauto.
  - apply safe_bind; [|intros vs; apply safe_ret].
    apply safe_mapM. rewrite Forall_forall in *. intros kv Hkv.
    destruct (H kv Hkv) as [Hk Hv].
    apply safe_bind.
    { apply Hk. intros x Hx. apply Hr. simpl. apply elem_of_flat_map.
      exists kv. rewrite elem_of_app. auto. }
    intros k. apply safe_bind; [|intros v; apply safe_ret].
    apply Hv. intros x Hx. apply Hr. simpl. apply elem_of_flat_map.
    exists kv. rewrite elem_of_app. auto.
  - simpl in Hr. apply safe_bind.
    { apply IHe1. intros x Hx. apply Hr. rewrite !elem_of_app. auto. }
    intros v. destruct (truthy v).
    + apply IHe2. intros x Hx. apply Hr. rewrite !elem_of_app. auto.
    + apply IHe3. intros x Hx. apply Hr. rewrite !elem_of_app. auto.
  - apply safe_unsupported.
  - apply safe_unsupported.
  - apply safe_unsupported.
Qed.

(** The names bound in a namespace. *)
Lemma bound_after_insert (env : namespace) (x : string) (v : value)
    (bound : gset string) :
  bound ⊆ dom env -> {[x]} ∪ bound ⊆ dom (<[x := v]> env).
Proof. intros Hsub. rewrite dom_insert_L. apply union_mono_l. exact Hsub. Qed.

Lemma finish_names (env : namespace) (m : @M world value) (w : world)
    (k : value -> namespace) :
  safe m ->
  forall f, failed (finish env (m w) k) = Some f -> not_name_error f.
Proof.
  intros Hm f. unfold finish. destruct (m w) as [[e|v] w'] eqn:E; simpl.
  - intros H. injection H as <-. apply (Hm w). rewrite E. reflexivity.
  - discriminate.
Qed.

Lemma finish_ok (env : namespace) (r : (failure + value) * world)
    (k : value -> namespace) :
  failed (finish env r k) = None -> exists v, ns (finish env r k) = k v.
Proof.
  unfold finish. destruct r as [[e|v] w']; simpl; [discriminate|]. eauto.
Qed.

Lemma safe_ask (o : op) : safe (ask lib o).
Proof.
  apply fails_only_ask. intros msg x. discriminate.
Qed.

(** One simple statement, run where its reads are bound. *)
Lemma exec_stmt_names (s : stmt) (env : namespace) (w : world)
    (bound : gset string) :
  simple_stmt s = true ->
  forallb (fun x => bool_decide (x ∈ bound)) (stmt_reads s) = true ->
  bound ⊆ dom env ->
  (forall f, failed (exec_stmt lib s env w) = Some f -> not_name_error f) /\
  (failed (exec_stmt lib s env w) = None ->
   from_option (fun x => {[x]} ∪ bound) bound (stmt_binds s)
     ⊆ dom (ns (exec_stmt lib s env w))).
Proof.
  intros Hs Hreads Hb.
  assert (Hbound : forall x, x ∈ stmt_reads s -> is_Some (env !! x)).
  { intros x Hx. apply elem_of_dom, Hb.
    pose proof (forallb_elem _ _ x Hreads Hx) as Hk.
    apply bool_decide_eq_true in Hk. exact Hk. }
  destruct s; try discriminate Hs; simpl.
  - split; [apply finish_names, safe_ask|].
    intros H. apply finish_ok in H as [v ->]. exact Hb.
  - split; [apply finish_names, safe_ask|].
    intros H. apply finish_ok in H as [v ->]. apply bound_after_insert, Hb.
  - split; [apply finish_names, safe_ask|].
    intros H. apply finish_ok in H as [v ->]. apply bound_after_insert, Hb.
  - split; [apply finish_names, eval_names, Hbound|].
    intros H. apply finish_ok in H as [v ->]. apply bound_after_insert, Hb.
  - split; [apply finish_names, eval_names, Hbound|].
    intros H. apply finish_ok in H as [v ->]. exact Hb.
  - split; [discriminate|]. intros _. exact Hb.
Qed.

Lemma exec_block_cons (s : stmt) (rest : list stmt) (env : namespace)
    (w : world) :
  exec_block lib (s :: rest) env w =
  match failed (exec_stmt lib s env w) with
  | Some _ => exec_stmt lib s env w
  | None => exec_block lib rest (ns (exec_stmt lib s env w))
              (after (exec_stmt lib s env w))
  end.
Proof. reflexivity. Qed.

(** A block that passes the check of names never ends in a [NameError],
    and binds what the check says. *)
Lemma exec_block_names (ss : list stmt) :
  forall (bound bound' : gset string) (env : namespace) (w : world),
    names_defined bound ss = Some bound' ->
    bound ⊆ dom env ->
    (forall f, failed (exec_block lib ss env w) = Some f -> not_name_error f) /\
    (failed (exec_block lib ss env w) = None ->
     bound' ⊆ dom (ns (exec_block lib ss env w))).
Proof.
  induction ss as [|s rest IH]; intros bound bound' env w Hn Hb.
  - simpl in Hn. injection Hn as <-. split; [discriminate|]. intros _. exact Hb.
  - simpl in Hn.
    destruct (simple_stmt s) eqn:Hs; [|discriminate].
    destruct (forallb _ (stmt_reads s)) eqn:Hr; [|discriminate].
    simpl in Hn.
    destruct (exec_stmt_names s env w bound Hs Hr Hb) as [Hf Hok].
    rewrite exec_block_cons.
    destruct (failed (exec_stmt lib s env w)) as [f0|] eqn:E.
    + split; [|rewrite E; discriminate].
      intros f Hf'. rewrite E in Hf'. injection Hf' as <-. apply Hf. reflexivity.
    + apply (IH _ bound' _ _ Hn). apply Hok. reflexivity.
Qed.

Lemma names_defined_app (a b : list stmt) (bound : gset string) :
  names_defined bound (a ++ b) =
  names_defined bound a ≫= fun bound' => names_defined bound' b.
Proof.
  revert bound. induction a as [|s a IH]; intros bound; [reflexivity|].
  simpl. destruct (simple_stmt s && _); [apply IH | reflexivity].
Qed.

(** Cells that pass the check of names, run in order, never end in a
    [NameError]. *)
Lemma run_cells_names (cs : list (nat * list stmt)) :
  forall (bound bound' : gset string) (env : namespace) (w : world),
    names_defined bound (flat_map snd cs) = Some bound' ->
    bound ⊆ dom env ->
    forall f, failed (snd (run_cells lib cs env w)) = Some f ->
              not_name_error f.
Proof.
  induction cs as [|[i ss] cs IH]; intros bound bound' env w Hn Hb f.
  - discriminate.
  - simpl in Hn. rewrite names_defined_app in Hn.
    destruct (names_defined bound ss) as [b1|] eqn:E1; [|discriminate].
    simpl in Hn.
    destruct (exec_block_names ss bound b1 env w E1 Hb) as [Hf Hok].
    simpl. unfold exec_cell.
    destruct (failed (exec_block lib ss env w)) as [f0|] eqn:E.
    + simpl. rewrite E. intros H. injection H as <-. apply Hf. reflexivity.
    + destruct (run_cells lib cs _ _) as [visited r'] eqn:Er. simpl.
      intros H. apply (IH b1 bound' (ns (exec_block lib ss env w))
                         (after (exec_block lib ss env w)) Hn).
      * apply Hok. reflexivity.
      * rewrite Er. exact H.
Qed.

(** A notebook whose cells, taken in order, pass the check of names
    from the builtins on never reads an unbound name. *)
Lemma run_notebook_names (nb : notebook) (w : world) :
  is_Some (names_defined (dom builtin_env) (flat_map snd (code_cells nb))) ->
  forall y, failed (snd (run_notebook lib nb w)) <> Some (NameError y).
Proof.
  intros [b E] y Hy. unfold run_notebook in Hy.
  generalize dependent builtin_env. intros env E Hy.
  exact (run_cells_names (code_cells nb) (dom env) b env w E
           (reflexivity _) _ Hy y eq_refl).
Qed.

End Names.

(** *** What the log of a run tells about its failure *)

Lemma clean_nil : clean [].
Proof. intros o msg H. apply elem_of_nil in H. exact H. Qed.

Lemma clean_app (l1 l2 : list event) : clean l1 -> clean l2 -> clean (l1 ++ l2).
Proof.
  intros H1 H2 o msg H. apply elem_of_app in H as [H | H].
  - exact (H1 o msg H).
  - exact (H2 o msg H).
Qed.

Lemma faithful_app (r : option failure) (l1 l2 : list event) :
  clean l1 -> faithful r l2 -> faithful r (l1 ++ l2).
Proof.
  intros H1. unfold faithful.
  destruct r as [f|]; [destruct f|]; try (apply clean_app; exact H1).
  intros (o & l0 & -> & H0). exists o, (l1 ++ l0). split.
  - rewrite app_assoc. reflexivity.
  - apply clean_app; assumption.
Qed.

Lemma faithful_internal (f : failure) : internal f -> faithful (Some f) [].
Proof. destruct f; simpl; intros H; try contradiction; apply clean_nil. Qed.

(** The reading of a faithful log: a failed operation in it is the last
    event, and is what the run ended in. *)
Lemma faithful_spec (r : option failure) (l : list event) (o : op)
    (msg : string) :
  faithful r l -> (o, inl msg) ∈ l ->
  r = Some (LibraryError msg) /\ last l = Some (o, inl msg).
Proof.
  intros Hf Hin.
  assert (Hcase : (exists m', r = Some (LibraryError m'))
                  \/ faithful r l = clean l).
  { destruct r as [f|]; [destruct f|]; eauto. }
  destruct Hcase as [[m' ->] | Hc].
  - destruct Hf as (o' & l0 & -> & H0).
    apply elem_of_app in Hin as [Hin | Hin].
    + destruct (H0 o msg Hin).
    + apply list_elem_of_singleton in Hin. injection Hin as -> ->.
      split; [reflexivity|]. apply last_snoc.
  - rewrite Hc in Hf. destruct (Hf o msg Hin).
Qed.

Section Logged.

Context {world : Type}.
Variable lib : op -> world -> answer * world.

Local Abbreviation W := (world * list event)%type.

Lemma lf_ret {A} (a : A) : logs_faithfully (@ret W A a).
Proof.
  intros w log. exists []. simpl. rewrite app_nil_r.
  split; [reflexivity | apply clean_nil].
Qed.

Lemma lf_lift {A} (r : failure + A) :
  (forall f, r = inl f -> internal f) -> logs_faithfully (@lift W A r).
Proof.
  intros H w log. exists []. simpl. rewrite app_nil_r. split; [reflexivity|].
  destruct r as [f|a]; simpl; [|apply clean_nil].
  apply faithful_internal, H. reflexivity.
Qed.

Lemma lf_getattr (v : value) (a : string) :
  logs_faithfully (@lift W value (getattr v a)).
Proof.
  intros w log. exists []. simpl. rewrite app_nil_r. split; [reflexivity|].
  destruct (getattr v a) as [f|fv] eqn:E; simpl; [|apply clean_nil].
  destruct (getattr_fails v a f E) as [-> | ->]; apply clean_nil.
Qed.

Lemma lf_throw {A} (f : failure) :
  faithful (Some f) [] -> logs_faithfully (@throw W A f).
Proof.
  intros H w log. exists []. simpl. rewrite app_nil_r. split; [reflexivity|].
  exact H.
Qed.

Lemma lf_bind {A B} (m : @M W A) (k : A -> @M W B) :
  logs_faithfully m -> (forall a, logs_faithfully (k a)) ->
  logs_faithfully (bind m k).
Proof.
  intros Hm Hk w log. unfold bind.
  destruct (Hm w log) as (l1 & E1 & F1).
  destruct (m (w, log)) as [[e|a] [w' log']] eqn:E; simpl in *.
  - exists l1. split; assumption.
  - subst log'. destruct (Hk a w' (log ++ l1)) as (l2 & E2 & F2).
    exists (l1 ++ l2). split.
    + rewrite E2, app_assoc. reflexivity.
    + apply faithful_app; assumption.
Qed.

Lemma lf_mapM {A B} (h : A -> @M W B) (l : list A) :
  Forall (fun a => logs_faithfully (h a)) l -> logs_faithfully (mapM h l).
Proof.
  induction 1 as [|a l Ha _ IH]; simpl.
  - apply lf_ret.
  - apply lf_bind; [exact Ha|]. intros b.
    apply lf_bind; [exact IH|]. intros bs. apply lf_ret.
Qed.

Lemma lf_ask (o : op) : logs_faithfully (ask (logged lib) o).
Proof.
  intros w log. unfold ask, logged. simpl.
  destruct (lib o w) as [[msg|v] w']; simpl.
  - exists [(o, inl msg)]. split; [reflexivity|].
    exists o, []. split; [reflexivity | apply clean_nil].
  - exists [(o, inr v)]. split; [reflexivity|].
    intros o' msg H. apply list_elem_of_singleton in H. discriminate H.
Qed.

Lemma lf_apply fv args kwargs :
  logs_faithfully (apply (logged lib) fv args kwargs).
Proof.
  destruct fv; simpl; try apply lf_ask;
    try (apply lf_throw, clean_nil).
  apply lf_lift. intros f. apply apply_builtin_internal.
Qed.

(** Evaluating any expression logs faithfully. *)
Lemma lf_eval (env : namespace) (e : expr) :
  logs_faithfully (eval (logged lib) env e).
Proof.
  induction e using expr_rect_deep; simpl.
  - destruct (env !! x); [apply lf_ret | apply lf_throw, clean_nil].
  - apply lf_ret.
  - apply lf_ret.
  - apply lf_ret.
  - apply lf_ret.
  - apply lf_ret.
  - apply lf_bind; [exact IHe|]. intros v. apply lf_lift.
    intros f. destruct v; simpl; intros H; try discriminate;
      injection H as <-; exact I.
  - apply lf_bind; [exact IHe|]. intros v. apply lf_getattr.
  - apply lf_bind; [exact IHe|]. intros fv.
    apply lf_bind; [apply lf_mapM; assumption|]. intros avs.
    apply lf_bind; [|intros kvs; apply lf_apply].
    apply lf_mapM. eapply Forall_impl; [eassumption|].
    intros kv Hkv. apply lf_bind; [exact Hkv|]. intros v. apply lf_ret.
  - apply lf_bind; [apply lf_mapM; assumption|]. intros vs. apply lf_ret.
  - apply lf_bind; [apply lf_mapM; assumption|]. intros vs. apply lf_ret.
  - apply lf_bind; [|intros vs; apply lf_ret].
    apply lf_mapM. eapply Forall_impl; [eassumption|].
    intros kv [Hk Hv]. apply lf_bind; [exact Hk|]. intros k.
    apply lf_bind; [exact Hv|]. intros v. apply lf_ret.
  - apply lf_bind; [exact IHe1|]. intros v.
    destruct (truthy v); assumption.
  - apply lf_throw, clean_nil.
  - apply lf_throw, clean_nil.
  - apply lf_throw, clean_nil.
Qed.

Lemma finish_faithful (env : namespace) (m : @M W value)
    (k : value -> namespace) (w : world) (log : list event) :
  logs_faithfully m -> result_faithful log (finish env (m (w, log)) k).
Proof.
  intros Hm. destruct (Hm w log) as (l & E & F). exists l.
  unfold finish. destruct (m (w, log)) as [[e|v] [w' log']]; simpl in *;
    split; assumption.
Qed.

Lemma exec_stmt_faithful (s : stmt) (env : namespace) (w : world)
    (log : list event) :
  simple_stmt s = true ->
  result_faithful log (exec_stmt (logged lib) s env (w, log)).
Proof.
  intros Hs. destruct s; try discriminate Hs; simpl.
  - apply finish_faithful, lf_ask.
  - apply finish_faithful, lf_ask.
  - apply finish_faithful, lf_ask.
  - apply finish_faithful, lf_eval.
  - apply finish_faithful, lf_eval.
  - exists []. simpl. rewrite app_nil_r. split; [reflexivity | apply clean_nil].
Qed.

(** A straight-line block logs faithfully: whatever a library raises
    ends the block and is the block's outcome. *)
Lemma exec_block_faithful (ss : list stmt) :
  straight_line ss = true ->
  forall (env : namespace) (w : world) (log : list event),
    result_faithful log (exec_block (logged lib) ss env (w, log)).
Proof.
  induction ss as [|s rest IH]; intros Hss env w log.
  - exists []. simpl. rewrite app_nil_r. split; [reflexivity | apply clean_nil].
  - simpl in Hss. apply andb_true_iff in Hss as [Hs Hrest].
    rewrite exec_block_cons.
    destruct (exec_stmt_faithful s env w log Hs) as (l1 & E1 & F1).
    destruct (exec_stmt (logged lib) s env (w, log))
      as [[f|] env1 [w1 log1]] eqn:E; simpl in *.
    + exists l1. split; assumption.
    + subst log1. destruct (IH Hrest env1 w1 (log ++ l1)) as (l2 & E2 & F2).
      exists (l1 ++ l2). split.
      * rewrite E2, app_assoc. reflexivity.
      * apply faithful_app; assumption.
Qed.

End Logged.

(** *** Two runs side by side *)

Lemma run_notebook_unfold {world : Type} (lib : op -> world -> answer * world)
    (nb : notebook) (w : world) :
  run_notebook lib nb w = run_cells lib (code_cells nb) builtin_env w.
Proof. reflexivity. Qed.

(** The seed: the sum of the character codes of the notebook's name. *)
Lemma seed_argument_value {world : Type} (lib : op -> world -> answer * world)
    (env : namespace) (w : world) :
  env !! "sum" = Some (VBuiltin "sum") ->
  env !! "map" = Some (VBuiltin "map") ->
  env !! "ord" = Some (VBuiltin "ord") ->
  eval lib env seed_argument w = (inr (VInt 1069), w).
Proof.
  intros Hsum Hmap Hord. unfold seed_argument. simpl.
  unfold bind. simpl. rewrite Hsum, Hmap, Hord. reflexivity.
Qed.

Section Lockstep.

Context {world : Type}.
Variable lib : op -> world -> answer * world.
Variable agree : world -> world -> Prop.

Hypothesis agree_refl : forall w, agree w w.
Hypothesis rng_free_ops : forall o w1 w2,
  rng_free o -> agree w1 w2 ->
  fst (lib o w1) = fst (lib o w2) /\ agree (snd (lib o w1)) (snd (lib o w2)).
Hypothesis seed_resets : forall o w1 w2,
  is_seed o -> agree w1 w2 ->
  fst (lib o w1) = fst (lib o w2) /\
  agree (snd (lib o w1)) (snd (lib o w2)) /\
  (forall v, fst (lib o w1) = inr v -> snd (lib o w1) = snd (lib o w2)).

Lemma finish_ask_agree (o : op) (env : namespace) (k : value -> namespace)
    (w1 w2 : world) :
  rng_free o -> agree w1 w2 ->
  results_agree agree (finish env (ask lib o w1) k) (finish env (ask lib o w2) k).
Proof.
  intros Ho Ha. destruct (rng_free_ops o w1 w2 Ho Ha) as [Hf Hw].
  unfold ask, finish.
  destruct (lib o w1) as [[m1|v1] w1'], (lib o w2) as [[m2|v2] w2'];
    simpl in *; try discriminate Hf; injection Hf as <-;
    repeat split; assumption.
Qed.

Lemma finish_ask_ns (o : op) (env : namespace) (k : value -> namespace)
    (w : world) (env' : namespace) :
  (forall v, k v = env') ->
  failed (finish env (ask lib o w) k) = None ->
  ns (finish env (ask lib o w) k) = env'.
Proof.
  intros Hk. unfold ask, finish.
  destruct (lib o w) as [[m|v] w']; simpl; [discriminate|]. intros _. apply Hk.
Qed.

Lemma import_like_agree (s : stmt) (env : namespace) (w1 w2 : world) :
  import_like s = true -> agree w1 w2 ->
  results_agree agree (exec_stmt lib s env w1) (exec_stmt lib s env w2).
Proof.
  intros Hs Ha. destruct s; try discriminate Hs; simpl;
    try (apply finish_ask_agree; [exact I | exact Ha]).
  repeat split; assumption.
Qed.

Lemma import_like_ns (s : stmt) (env : namespace) (w : world) :
  import_like s = true ->
  failed (exec_stmt lib s env w) = None ->
  ns (exec_stmt lib s env w) = bind_import env s.
Proof.
  intros Hs. destruct s; try discriminate Hs; simpl;
    try (apply finish_ask_ns; reflexivity).
  reflexivity.
Qed.

(** A block of imports keeps two runs in agreement and, when it
    completes, leaves the namespace the imports describe. *)
Lemma imports_block_agree (ss : list stmt) :
  forallb import_like ss = true ->
  forall (env : namespace) (w1 w2 : world),
    agree w1 w2 ->
    results_agree agree (exec_block lib ss env w1) (exec_block lib ss env w2) /\
    (failed (exec_block lib ss env w1) = None ->
     ns (exec_block lib ss env w1) = imports_env ss env).
Proof.
  induction ss as [|s rest IH]; intros Hss env w1 w2 Ha.
  - split; [repeat split; assumption | reflexivity].
  - simpl in Hss. apply andb_true_iff in Hss as [Hs Hrest].
    rewrite !exec_block_cons.
    destruct (import_like_agree s env w1 w2 Hs Ha) as (Hf & Hn & Hw).
    pose proof (import_like_ns s env w1 Hs) as Hns.
    destruct (failed (exec_stmt lib s env w1)) as [f|] eqn:E1;
      rewrite <- Hf; cbv iota.
    + split; [cbn [fst snd]; repeat split; (assumption || congruence)|].
      rewrite E1. discriminate.
    + rewrite <- Hn, (Hns eq_refl).
      apply (IH Hrest (bind_import env s)). exact Hw.
Qed.

(** Running on from a cell of imports. *)
Lemma run_cells_imports (i : nat) (ss : list stmt)
    (rest : list (nat * list stmt)) (env : namespace) :
  forallb import_like ss = true ->
  (forall w1 w2, agree w1 w2 ->
     runs_agree agree (run_cells lib rest (imports_env ss env) w1)
                      (run_cells lib rest (imports_env ss env) w2)) ->
  forall w1 w2, agree w1 w2 ->
    runs_agree agree (run_cells lib ((i, ss) :: rest) env w1)
                     (run_cells lib ((i, ss) :: rest) env w2).
Proof.
  intros Hss Hrest w1 w2 Ha. simpl. unfold exec_cell.
  destruct (imports_block_agree ss Hss env w1 w2 Ha) as [(Hf & Hn & Hw) Hns].
  destruct (failed (exec_block lib ss env w1)) as [f|] eqn:E1; rewrite <- Hf;
    cbv iota.
  - split; [reflexivity|]. split; [cbn [fst snd]; repeat split; (assumption || congruence)|].
    simpl. rewrite E1. discriminate.
  - rewrite <- Hn, (Hns eq_refl).
    specialize (Hrest _ _ Hw).
    destruct (run_cells lib rest _ (after (exec_block lib ss env w1)))
      as [v1 r1].
    destruct (run_cells lib rest _ (after (exec_block lib ss env w2)))
      as [v2 r2].
    destruct Hrest as (Hv & HR & Heq). cbn [fst snd] in *.
    split; [cbn [fst]; f_equal; exact Hv|]. cbn [snd]. split; assumption.
Qed.

(** The two statements of the setup cell, in a namespace where the
    imports and the builtins are in place. *)
Lemma set_style_step (env : namespace) (w : world) :
  env !! "sns" = Some (VModule "seaborn") ->
  exec_stmt lib (SExpr (ECall (sns "set") [] [("style", EStr "white")])) env w
  = finish env
      (ask lib (OCall (VAttr (VModule "seaborn") "set") []
                  [("style", VStr "white")]) w)
      (fun _ => env).
Proof.
  intros Hsns. simpl. unfold bind. simpl. rewrite Hsns. reflexivity.
Qed.

Lemma seed_step (env : namespace) (w : world) :
  env !! "np" = Some (VModule "numpy") ->
  env !! "sum" = Some (VBuiltin "sum") ->
  env !! "map" = Some (VBuiltin "map") ->
  env !! "ord" = Some (VBuiltin "ord") ->
  exec_stmt lib
    (SExpr (ECall (EAttr (EAttr (EName "np") "random") "seed")
              [seed_argument] [])) env w
  = finish env (ask lib (OCall seed_fn [VInt 1069] []) w) (fun _ => env).
Proof.
  intros Hnp Hsum Hmap Hord. simpl. unfold bind. simpl.
  rewrite Hnp, Hsum, Hmap, Hord. reflexivity.
Qed.

(** Running on from the setup cell: whatever the generators held, after
    the seed the two runs are one. *)
Lemma run_cells_setup (rest : list (nat * list stmt)) (env : namespace) :
  env !! "sns" = Some (VModule "seaborn") ->
  env !! "np" = Some (VModule "numpy") ->
  env !! "sum" = Some (VBuiltin "sum") ->
  env !! "map" = Some (VBuiltin "map") ->
  env !! "ord" = Some (VBuiltin "ord") ->
  forall w1 w2, agree w1 w2 ->
    runs_agree agree (run_cells lib ((5, cell_setup) :: rest) env w1)
                     (run_cells lib ((5, cell_setup) :: rest) env w2).
Proof.
  intros Hsns Hnp Hsum Hmap Hord w1 w2 Ha.
  change cell_setup with
    [ SExpr (ECall (sns "set") [] [("style", EStr "white")]);
      SExpr (ECall (EAttr (EAttr (EName "np") "random") "seed")
               [seed_argument] []) ].
  cbn [run_cells]. unfold exec_cell. rewrite !exec_block_cons.
  rewrite !set_style_step by exact Hsns.
  pose proof (finish_ask_agree
                (OCall (VAttr (VModule "seaborn") "set") []
                   [("style", VStr "white")]) env (fun _ => env) w1 w2
                eq_refl Ha) as (Hf & Hn & Hw).
  pose proof (finish_ask_ns
                (OCall (VAttr (VModule "seaborn") "set") []
                   [("style", VStr "white")]) env (fun _ => env) w1 env
                (fun _ => eq_refl)) as Hns.
  destruct (failed (finish env (ask lib _ w1) _)) as [f|] eqn:E1; rewrite <- Hf;
    cbv iota.
  { rewrite E1, <- Hf. cbv iota.
    split; [reflexivity|].
    split; [cbn [fst snd]; repeat split; (assumption || congruence)|].
    simpl. rewrite E1. discriminate. }
  rewrite <- Hn, (Hns eq_refl). rewrite !seed_step by assumption.
  change (exec_block lib [] ?e ?w) with (Result None e w).
  set (w1' := after (finish env (ask lib _ w1) _)) in *.
  set (w2' := after (finish env (ask lib _ w2) _)) in *.
  destruct (seed_resets (OCall seed_fn [VInt 1069] []) w1' w2' eq_refl Hw)
    as (Hsf & Hsw & Hseq).
  unfold ask, finish.
  destruct (lib (OCall seed_fn [VInt 1069] []) w1') as [[m1|v1] u1],
           (lib (OCall seed_fn [VInt 1069] []) w2') as [[m2|v2] u2];
    simpl in *; try discriminate Hsf.
  - injection Hsf as <-. split; [reflexivity|].
    split; [repeat split; assumption | discriminate].
  - rewrite (Hseq v1 eq_refl).
    destruct (run_cells lib rest env u2) as [v r].
    split; [reflexivity|]. split; [|reflexivity].
    repeat split. apply agree_refl.
Qed.

(** Two complete executions from worlds that agree up to the generator. *)
Lemma seeded_runs_agree (w1 w2 : world) :
  agree w1 w2 ->
  runs_agree agree (run_notebook lib axis_grids w1)
                   (run_notebook lib axis_grids w2).
Proof.
  rewrite !run_notebook_unfold, code_cells_axis_grids. revert w1 w2.
  apply run_cells_imports; [reflexivity|].
  apply run_cells_imports; [reflexivity|].
  apply run_cells_setup; vm_compute; reflexivity.
Qed.

End Lockstep.

(** ** Names are bound before they are read (C8) *)

(** C8, as stated, fails: the setup cell reads [ord] (and [sum], [map]),
    which no import and no assignment of the notebook binds: they are
    builtins of the language. *)
Lemma C8_builtins_are_read_unbound :
  axis_grids !! 5 = Some (Code cell_setup) /\
  external_reads [] cell_setup = ["sns"; "np"; "sum"; "map"; "ord"] /\
  bound_before axis_grids 5 = ["np"; "pd"; "sns"; "stats"; "mpl"; "plt"] /\
  ~ reads_bound_by_code axis_grids.
Proof.
  repeat (split; [reflexivity|]).
  intros H. specialize (H 5 cell_setup "ord" eq_refl).
  assert (Hin : "ord" ∈ external_reads [] cell_setup).
  { cbn. do 4 apply list_elem_of_further. apply list_elem_of_here. }
  specialize (H Hin). compute_in H (bound_before axis_grids 5).
  repeat (apply elem_of_cons in H as [H | H]; [discriminate H|]).
  apply elem_of_nil in H. exact H.
Qed.

(** C8, amended: every name a code cell reads without binding it earlier
    in the same cell is a Python builtin ([sum], [map], [ord], [dict]) or
    is bound by an import or an assignment of an earlier code cell; hence
    a top-to-bottom execution in a fresh kernel, against any library,
    never ends in a read of an undefined name. *)
Theorem C8_reads_bound_or_builtin
  {world : Type} (lib : op -> world -> answer * world) (w : world)
  (i : nat) (ss : list stmt) (x : string) :
  axis_grids !! i = Some (Code ss) ->
  x ∈ external_reads [] ss ->
  (x ∈ builtins \/ x ∈ bound_before axis_grids i) /\
  forall y, failed (snd (run_notebook lib axis_grids w)) <> Some (NameError y).
Proof.
  intros Hcell Hx. split.
  - assert (Hall : forallb
              (fun p => forallb
                 (fun x => bool_decide (x ∈ builtins)
                           || bool_decide (x ∈ bound_before axis_grids (fst p)))
                 (external_reads [] (snd p)))
              (code_cells axis_grids) = true)
      by (vm_compute; reflexivity).
    pose proof (check_code_cells
                  (fun i ss => forallb
                     (fun x => bool_decide (x ∈ builtins)
                               || bool_decide (x ∈ bound_before axis_grids i))
                     (external_reads [] ss))
                  axis_grids Hall i ss Hcell) as H.
    pose proof (forallb_elem _ _ x H Hx) as Hk. cbv beta in Hk.
    apply orb_true_iff in Hk as [Hk | Hk]; apply bool_decide_eq_true in Hk;
      [left | right]; exact Hk.
  - apply run_notebook_names.
    destruct (names_defined _ _) eqn:E; [eauto|].
    vm_compute in E. discriminate E.
Qed.

Lemma C8_witness :
  axis_grids !! 53 = Some (Code cell_joint_ratio) /\
  "tips" ∈ external_reads [] cell_joint_ratio /\
  ("tips" ∈ builtins \/ "tips" ∈ bound_before axis_grids 53) /\
  forall y, failed (snd (run_notebook Demo.lib axis_grids (0%Z, 0%N)))
            <> Some (NameError y).
Proof.
  split; [reflexivity|].
  assert (Hin : "tips" ∈ external_reads [] cell_joint_ratio).
  { cbn. apply list_elem_of_further. apply list_elem_of_here. }
  split; [exact Hin|].
  apply (C8_reads_bound_or_builtin Demo.lib (0%Z, 0%N) 53 cell_joint_ratio "tips").
  - reflexivity.
  - exact Hin.
Defined.

(** In [cell_joint_ratio] the variable [color] is read twice and never
    comes from outside: the cell binds it first. *)
Example color_is_cell_local :
  external_reads [] cell_joint_ratio = ["sns"; "tips"; "sns"; "plt"].
Proof. reflexivity. Qed.

(** The check is not vacuous: a fresh kernel that runs the first
    plotting cell alone reads the unbound name [sns]. *)
Example plotting_cell_alone_fails :
  failed (exec_cell Demo.lib cell_facet_init builtin_env (0%Z, 0%N))
  = Some (NameError "sns").
Proof. reflexivity. Qed.

(** ** Failures of library calls leave the cell as they are (C4) *)

(** C4: no code cell handles errors (no try, raise, assert, branch or
    conditional expression anywhere in it), and when an external operation
    performed by a cell raises, that operation is the last the cell
    performs and the cell ends in exactly that error: nothing in the cell
    recovers from it or replaces it. *)
Theorem C4_library_failures_propagate
  {world : Type} (lib : op -> world -> answer * world)
  (i : nat) (ss : list stmt) (env : namespace) (w : world) :
  axis_grids !! i = Some (Code ss) ->
  no_error_handling ss = true /\
  forall o msg,
    (o, inl msg) ∈ snd (after (exec_cell (logged lib) ss env (w, []))) ->
    failed (exec_cell (logged lib) ss env (w, [])) = Some (LibraryError msg) /\
    last (snd (after (exec_cell (logged lib) ss env (w, []))))
      = Some (o, inl msg).
Proof.
  intros Hcell.
  assert (Hall : forallb (fun p => no_error_handling (snd p) && straight_line (snd p))
                   (code_cells axis_grids) = true)
    by (vm_compute; reflexivity).
  pose proof (check_code_cells
                (fun _ ss => no_error_handling ss && straight_line ss)
                axis_grids Hall i ss Hcell) as H.
  cbv beta in H. apply andb_true_iff in H as [Hno Hsl].
  split; [exact Hno|]. intros o msg Hin.
  unfold exec_cell in *.
  destruct (exec_block_faithful lib ss Hsl env w []) as (l & E & F).
  rewrite app_nil_l in E. rewrite E in Hin |- *.
  exact (faithful_spec _ _ o msg F Hin).
Qed.

Lemma C4_witness :
  axis_grids !! 10 = Some (Code cell_facet_hist) /\
  no_error_handling cell_facet_hist = true /\
  forall o msg,
    (o, inl msg) ∈ snd (after (exec_cell (logged Demo.lib_rejecting_map)
                                 cell_facet_hist Demo.session ((0%Z, 1%N), []))) ->
    failed (exec_cell (logged Demo.lib_rejecting_map) cell_facet_hist
              Demo.session ((0%Z, 1%N), []))
      = Some (LibraryError msg) /\
    last (snd (after (exec_cell (logged Demo.lib_rejecting_map) cell_facet_hist
                        Demo.session ((0%Z, 1%N), []))))
      = Some (o, inl msg).
Proof.
  split; [reflexivity|].
  apply (C4_library_failures_propagate Demo.lib_rejecting_map 10
           cell_facet_hist Demo.session (0%Z, 1%N)).
  reflexivity.
Defined.

(** The cell that draws histograms, against a library whose [map]
    rejects the column: the grid is built, [map] raises, and that is how
    the cell ends. *)
Example rejected_map_ends_the_cell :
  let r := exec_cell (logged Demo.lib_rejecting_map) cell_facet_hist
             Demo.session ((0%Z, 1%N), []) in
  failed r = Some (LibraryError "KeyError: tip") /\
  List.map snd (snd (after r)) = [inr (VObj 1); inl "KeyError: tip"].
Proof. vm_compute. split; reflexivity. Qed.

(** A column the dataset lacks: the library raises, the cell stops there
    and its last statement is never reached. *)
Example bad_column_propagates :
  let r := exec_cell (logged Demo.lib) Demo.cell_bad_column Demo.session
             ((0%Z, 1%N), []) in
  failed r = Some (LibraryError "KeyError: no_such_column") /\
  length (snd (after r)) = 2.
Proof. vm_compute. split; reflexivity. Qed.

(** The statement is about the cells as they are written: wrap the call
    in a handler and the same failure is swallowed. *)
Example handler_would_swallow :
  let r := exec_cell (logged Demo.lib) Demo.cell_guarded Demo.session
             ((0%Z, 1%N), []) in
  failed r = None /\
  exists o, last (snd (after r)) = Some (o, inl "KeyError: no_such_column").
Proof. vm_compute. split; [reflexivity | eexists; reflexivity]. Qed.

(** ** The seed and the determinism of a run (C9) *)

(** The stand-in library meets the assumptions. *)
Lemma demo_rng_free (o : op) (w1 w2 : Demo.world) :
  rng_free o -> Demo.same_but_rng w1 w2 ->
  fst (Demo.lib o w1) = fst (Demo.lib o w2) /\
  Demo.same_but_rng (snd (Demo.lib o w1)) (snd (Demo.lib o w2)).
Proof.
  intros Ho Ha. destruct o as [line | m | f args kwargs]; simpl in *.
  - split; [reflexivity | exact Ha].
  - split; [reflexivity | exact Ha].
  - rewrite Ho. simpl. split; [reflexivity | exact Ha].
Qed.

Lemma demo_seed_resets (o : op) (w1 w2 : Demo.world) :
  is_seed o -> Demo.same_but_rng w1 w2 ->
  fst (Demo.lib o w1) = fst (Demo.lib o w2) /\
  Demo.same_but_rng (snd (Demo.lib o w1)) (snd (Demo.lib o w2)) /\
  (forall v, fst (Demo.lib o w1) = inr v ->
             snd (Demo.lib o w1) = snd (Demo.lib o w2)).
Proof.
  intros Ho Ha. destruct o as [line | m | f args kwargs]; simpl in *;
    try contradiction.
  rewrite Ho. simpl. unfold Demo.same_but_rng in *.
  destruct args as [|[] [|]]; simpl;
    try (split; [reflexivity|]; split; [exact Ha|]; intros ? Hv;
         discriminate Hv).
  split; [reflexivity|]. split; [exact Ha|]. intros _ _. rewrite Ha. reflexivity.
Qed.



(** Against the stand-in library the run is complete, and the one call
    that jitters its data draws the seed itself, whatever the generator
    held at the start. *)
Example jitter_draws_the_seed :
  let r := snd (run_notebook (logged Demo.lib) axis_grids ((42%Z, 0%N), [])) in
  failed r = None /\
  List.map snd
    (List.filter
       (fun ev => match fst ev with
                  | OCall _ _ kwargs => bool_decide ("x_jitter" ∈ List.map fst kwargs)
                  | _ => false
                  end) (snd (after r)))
  = [inr (VObj 1069)].
Proof. vm_compute. split; reflexivity. Qed.

(** Without the seed the same call would depend on the initial world:
    the assumption on seeding is what the statement rests on. *)
Example unseeded_jitter_differs :
  fst (Demo.lib (OCall (VAttr (VObj 1) "map") [] [("x_jitter", VFloat ".1")])
         (0%Z, 0%N))
  <> fst (Demo.lib (OCall (VAttr (VObj 1) "map") [] [("x_jitter", VFloat ".1")])
            (42%Z, 0%N)).
Proof. vm_compute. discriminate. Qed.

(** ** Cells run one after the other (C3) *)

(** The cells a run enters are an initial segment of the code cells, in
    document order, and all of them when nothing fails. *)
Lemma run_cells_visited {world : Type} (lib : op -> world -> answer * world)
    (cs : list (nat * list stmt)) :
  forall (env : namespace) (w : world),
    fst (run_cells lib cs env w) `prefix_of` List.map fst cs /\
    (failed (snd (run_cells lib cs env w)) = None ->
     fst (run_cells lib cs env w) = List.map fst cs).
Proof.
  induction cs as [|[i ss] cs IH]; intros env w; simpl.
  - split; [reflexivity | reflexivity].
  - destruct (failed (exec_cell lib ss env w)) as [f|] eqn:E.
    + simpl. split; [|rewrite E; discriminate].
      exists (List.map fst cs). reflexivity.
    + specialize (IH (ns (exec_cell lib ss env w)) (after (exec_cell lib ss env w))).
      destruct (run_cells lib cs _ _) as [visited r]. simpl in *.
      destruct IH as [Hp Hall]. split.
      * apply prefix_cons. exact Hp.
      * intros Hr. rewrite (Hall Hr). reflexivity.
Qed.

Lemma code_cell_positions :
  List.map fst (code_cells axis_grids) =
  [3; 4; 5; 7; 8; 10; 12; 14; 16; 18; 20; 22; 24; 26; 29; 31; 33; 35; 37;
   39; 41; 43; 45; 47; 49; 51; 53; 55; 57; 59].
Proof. reflexivity. Qed.

(** A run that fails stopped in the cell it entered last: the cells
    before it completed, that cell ran from where they left off, its
    result is the result of the run, and the cells after it were not
    entered. *)
Lemma run_cells_stops {world : Type} (lib : op -> world -> answer * world)
    (cs : list (nat * list stmt)) :
  forall (env : namespace) (w : world) (f : failure),
    failed (snd (run_cells lib cs env w)) = Some f ->
    exists done j ss rest env' w',
      cs = done ++ (j, ss) :: rest /\
      run_cells lib done env w = (List.map fst done, Result None env' w') /\
      fst (run_cells lib cs env w) = List.map fst done ++ [j] /\
      snd (run_cells lib cs env w) = exec_cell lib ss env' w'.
Proof.
  induction cs as [|[i ss] cs IH]; intros env w f Hf; [discriminate Hf|].
  simpl in Hf |- *.
  destruct (failed (exec_cell lib ss env w)) as [f0|] eqn:E.
  - exists [], i, ss, cs, env, w. repeat split; reflexivity.
  - specialize (IH (ns (exec_cell lib ss env w))
                  (after (exec_cell lib ss env w)) f).
    destruct (run_cells lib cs _ _) as [visited r] eqn:Er. simpl in *.
    destruct (IH Hf) as (done & j & ss' & rest & env' & w' & -> & Hd & Hv & Hr).
    exists ((i, ss) :: done), j, ss', rest, env', w'.
    split; [reflexivity|]. split.
    + simpl. rewrite E, Hd. reflexivity.
    + split; [simpl; rewrite Hv; reflexivity | exact Hr].
Qed.

(** Straight-line cells, one after the other: the log of the run is
    faithful to its outcome. *)
Lemma run_cells_faithful {world : Type} (lib : op -> world -> answer * world)
    (cs : list (nat * list stmt)) :
  forallb (fun c => straight_line (snd c)) cs = true ->
  forall (env : namespace) (w : world) (log : list event),
    result_faithful log (snd (run_cells (logged lib) cs env (w, log))).
Proof.
  induction cs as [|[i ss] cs IH]; intros Hcs env w log.
  - exists []. simpl. rewrite app_nil_r. split; [reflexivity | apply clean_nil].
  - simpl in Hcs. apply andb_true_iff in Hcs as [Hs Hrest].
    simpl. unfold exec_cell.
    destruct (exec_block_faithful lib ss Hs env w log) as (l1 & E1 & F1).
    destruct (exec_block (logged lib) ss env (w, log))
      as [[f|] env1 [w1 log1]] eqn:E; simpl in *.
    + exists l1. split; assumption.
    + subst log1. specialize (IH Hrest env1 w1 (log ++ l1)).
      destruct (run_cells (logged lib) cs env1 (w1, log ++ l1))
        as [visited r]. simpl in *.
      destruct IH as (l2 & E2 & F2). exists (l1 ++ l2). split.
      * rewrite E2, app_assoc. reflexivity.
      * apply faithful_app; assumption.
Qed.




(** A complete run against the stand-in library enters all thirty code
    cells, in order. *)
Example demo_run_is_complete :
  fst (run_notebook Demo.lib axis_grids (0%Z, 0%N))
  = [3; 4; 5; 7; 8; 10; 12; 14; 16; 18; 20; 22; 24; 26; 29; 31; 33; 35; 37;
     39; 41; 43; 45; 47; 49; 51; 53; 55; 57; 59]
  /\ failed (snd (run_notebook Demo.lib axis_grids (0%Z, 0%N))) = None.
Proof. vm_compute. split; reflexivity. Qed.

(** A run that fails stops where it fails: with a library that rejects
    every [map], the first cell that maps is the last one entered. *)
Example failing_run_stops :
  fst (run_notebook Demo.lib_rejecting_map axis_grids (0%Z, 0%N))
  = [3; 4; 5; 7; 8; 10]
  /\ failed (snd (run_notebook Demo.lib_rejecting_map axis_grids (0%Z, 0%N)))
     = Some (LibraryError "KeyError: tip").
Proof. vm_compute. split; reflexivity. Qed.

(** The run against the library that rejects every [map], with its log:
    twelve operations, the last of them the [map] that raised; nothing
    is asked after it. *)
Example failing_run_asks_nothing_more :
  let r := snd (run_notebook (logged Demo.lib_rejecting_map) axis_grids
                  ((0%Z, 0%N), [])) in
  length (snd (after r)) = 13 /\
  List.map performed_attribute (drop 11 (snd (after r)))
  = [Some "FacetGrid"; Some "map"] /\
  List.map (fun ev => outcome (outcome_of (snd ev))) (drop 11 (snd (after r)))
  = [None; Some (LibraryError "KeyError: tip")].
Proof. vm_compute. repeat split; reflexivity. Qed.

(** ** What a cell's behaviour depends on (C1) *)

Section Reads.

Context {world : Type}.
Variable lib : op -> world -> answer * world.

Lemma bind_ext {A B} (m1 m2 : @M world A) (k1 k2 : A -> @M world B) :
  (forall w, m1 w = m2 w) -> (forall a w, k1 a w = k2 a w) ->
  forall w, bind m1 k1 w = bind m2 k2 w.
Proof.
  intros Hm Hk w. unfold bind. rewrite (Hm w).
  destruct (m2 w) as [[f|a] w']; [reflexivity | apply Hk].
Qed.

Lemma mapM_ext {A B} (h1 h2 : A -> @M world B) (l : list A) :
  Forall (fun a => forall w, h1 a w = h2 a w) l ->
  forall w, mapM h1 l w = mapM h2 l w.
Proof.
  induction 1 as [|a l Ha _ IH]; intros w; [reflexivity|].
  simpl. apply bind_ext; [exact Ha|]. intros b w'.
  apply bind_ext; [exact IH|]. reflexivity.
Qed.

(** The value of an expression, its failure and what it asks of the
    libraries depend on the namespace only through the names it reads. *)
Lemma eval_reads (e : expr) :
  forall env1 env2 : namespace,
    (forall x, x ∈ reads e -> env1 !! x = env2 !! x) ->
    forall w, eval lib env1 e w = eval lib env2 e w.
Proof.
  induction e using expr_rect_deep; intros env1 env2 Hr w; simpl;
    try reflexivity.
  - rewrite (Hr x); [reflexivity|]. apply list_elem_of_singleton. reflexivity.
  - apply bind_ext; [apply IHe; exact Hr | reflexivity].
  - apply bind_ext; [apply IHe; exact Hr | reflexivity].
  - simpl in Hr. rewrite Forall_forall in H. rewrite Forall_forall in H0.
    apply bind_ext.
    { apply IHe. intros x Hx. apply Hr. rewrite !elem_of_app. auto. }
    intros fv w1. apply bind_ext.
    { apply mapM_ext, Forall_forall. intros a Ha. apply H; [exact Ha|].
      intros x Hx. apply Hr. rewrite !elem_of_app. right. left.
      apply elem_of_flat_map. eauto. }
    intros avs w2. apply bind_ext; [|reflexivity].
    apply mapM_ext, Forall_forall. intros kv Hkv w3.
    apply bind_ext; [|reflexivity]. apply H0; [exact Hkv|].
    intros x Hx. apply Hr. rewrite !elem_of_app. right. right.
    apply elem_of_flat_map. eauto.
  - simpl in Hr. rewrite Forall_forall in H.
    apply bind_ext; [|reflexivity].
    apply mapM_ext, Forall_forall. intros a Ha. apply H; [exact Ha|].
    intros x Hx. apply Hr. apply elem_of_flat_map. eauto.
  - simpl in Hr. rewrite Forall_forall in H.
    apply bind_ext; [|reflexivity].
    apply mapM_ext, Forall_forall. intros a Ha. apply H; [exact Ha|].
    intros x Hx. apply Hr. apply elem_of_flat_map. eauto.
  - simpl in Hr. rewrite Forall_forall in H.
    apply bind_ext; [|reflexivity].
    apply mapM_ext, Forall_forall. intros kv Hkv w1.
    destruct (H kv Hkv) as [Hk Hv]. apply bind_ext.
    { apply Hk. intros x Hx. apply Hr. apply elem_of_flat_map.
      exists kv. rewrite elem_of_app. auto. }
    intros k w2. apply bind_ext; [|reflexivity].
    apply Hv. intros x Hx. apply Hr. apply elem_of_flat_map.
    exists kv. rewrite elem_of_app. auto.
  - simpl in Hr. apply bind_ext.
    { apply IHe1. intros x Hx. apply Hr. rewrite !elem_of_app. auto. }
    intros v w1. destruct (truthy v).
    + apply IHe2. intros x Hx. apply Hr. rewrite !elem_of_app. auto.
    + apply IHe3. intros x Hx. apply Hr. rewrite !elem_of_app. auto.
Qed.

Lemma finish_same (env1 env2 : namespace) (r : (failure + value) * world)
    (k1 k2 : value -> namespace) :
  failed (finish env1 r k1) = failed (finish env2 r k2) /\
  after (finish env1 r k1) = after (finish env2 r k2).
Proof. unfold finish. destruct r as [[f|v] w']; split; reflexivity. Qed.

(** One simple statement, in two namespaces that agree on what it
    reads: the same outcome, the same world after, the same value for
    the name it binds, and agreement kept wherever it was. *)
Lemma exec_stmt_reads (s : stmt) (env1 env2 : namespace) (w : world) :
  simple_stmt s = true ->
  (forall x, x ∈ stmt_reads s -> env1 !! x = env2 !! x) ->
  failed (exec_stmt lib s env1 w) = failed (exec_stmt lib s env2 w) /\
  after (exec_stmt lib s env1 w) = after (exec_stmt lib s env2 w) /\
  forall y,
    (stmt_binds s = Some y /\ failed (exec_stmt lib s env1 w) = None)
    \/ env1 !! y = env2 !! y ->
    ns (exec_stmt lib s env1 w) !! y = ns (exec_stmt lib s env2 w) !! y.
Proof.
  intros Hs Hr.
  assert (Hins : forall (x : string) (h : value -> value)
                         (r : (failure + value) * world) y,
            (Some x = Some y /\
             failed (finish env1 r (fun v => <[x := h v]> env1)) = None)
            \/ env1 !! y = env2 !! y ->
            ns (finish env1 r (fun v => <[x := h v]> env1)) !! y
            = ns (finish env2 r (fun v => <[x := h v]> env2)) !! y).
  { intros x h r y Hy. unfold finish in *.
    destruct r as [[f|v] w']; simpl in *.
    - destruct Hy as [[_ Hy] | Hy]; [discriminate Hy | exact Hy].
    - destruct (decide (x = y)) as [-> | Hne].
      + rewrite !lookup_insert_eq. reflexivity.
      + rewrite !lookup_insert_ne by exact Hne.
        destruct Hy as [[Hy _] | Hy]; [|exact Hy].
        injection Hy as Hy. contradiction. }
  assert (Hsame : forall (r : (failure + value) * world) y,
            (None = Some y /\ failed (finish env1 r (fun _ => env1)) = None)
            \/ env1 !! y = env2 !! y ->
            ns (finish env1 r (fun _ => env1)) !! y
            = ns (finish env2 r (fun _ => env2)) !! y).
  { intros r y Hy. unfold finish in *. destruct r as [[f|v] w']; simpl in *;
      (destruct Hy as [[Hy _] | Hy]; [discriminate Hy | exact Hy]). }
  destruct s; try discriminate Hs; simpl in *.
  - split; [|split]; [apply finish_same | apply finish_same | apply Hsame].
  - split; [|split]; [apply finish_same | apply finish_same |].
    apply (Hins asname (fun _ => VModule module)).
  - split; [|split]; [apply finish_same | apply finish_same |].
    apply (Hins name (fun _ => VAttr (VModule module) name)).
  - rewrite (eval_reads e env1 env2 Hr w).
    split; [|split]; [apply finish_same | apply finish_same |].
    apply (Hins target (fun v => v)).
  - rewrite (eval_reads e env1 env2 Hr w).
    split; [|split]; [apply finish_same | apply finish_same | apply Hsame].
  - split; [reflexivity|]. split; [reflexivity|].
    intros y [[Hy _] | Hy]; [discriminate Hy | exact Hy].
Qed.

Lemma external_reads_cons (own : list string) (s : stmt) (rest : list stmt)
    (x : string) :
  x ∈ stmt_reads s -> x ∈ own \/ x ∈ external_reads own (s :: rest).
Proof.
  intros Hx. destruct (decide (x ∈ own)) as [Ho | Ho]; [left; exact Ho|].
  right. simpl. apply elem_of_app. left.
  apply list_elem_of_In, filter_In. split.
  - apply list_elem_of_In. exact Hx.
  - apply negb_true_iff, bool_decide_eq_false. exact Ho.
Qed.

(** A straight-line cell, in two namespaces that agree on the names it
    takes from outside: the same outcome, the same world after (hence
    the same operations, asked with the same arguments and answered the
    same), the same values for the names it binds. *)
Lemma exec_block_reads (ss : list stmt) :
  straight_line ss = true ->
  forall (own : list string) (env1 env2 : namespace) (w : world),
    (forall x, x ∈ own \/ x ∈ external_reads own ss ->
               env1 !! x = env2 !! x) ->
    failed (exec_block lib ss env1 w) = failed (exec_block lib ss env2 w) /\
    after (exec_block lib ss env1 w) = after (exec_block lib ss env2 w) /\
    (forall y, env1 !! y = env2 !! y ->
       ns (exec_block lib ss env1 w) !! y
       = ns (exec_block lib ss env2 w) !! y) /\
    (failed (exec_block lib ss env1 w) = None ->
     forall y, y ∈ cell_binds ss ->
       ns (exec_block lib ss env1 w) !! y
       = ns (exec_block lib ss env2 w) !! y).
Proof.
  induction ss as [|s rest IH]; intros Hss own env1 env2 w Hag.
  - split; [reflexivity|]. split; [reflexivity|]. split; [auto|].
    intros _ y Hy. apply elem_of_nil in Hy. destruct Hy.
  - simpl in Hss. apply andb_true_iff in Hss as [Hs Hrest].
    destruct (exec_stmt_reads s env1 env2 w Hs) as (Hf & Ha & Hn).
    { intros x Hx. apply Hag. exact (external_reads_cons own s rest x Hx). }
    rewrite !exec_block_cons.
    destruct (failed (exec_stmt lib s env1 w)) as [f|] eqn:E; rewrite <- Hf.
    + split; [rewrite E; exact Hf|]. split; [exact Ha|]. split.
      * intros y Hy. apply Hn. right. exact Hy.
      * rewrite E. discriminate.
    + rewrite <- Ha.
      destruct (IH Hrest (from_option (fun x => x :: own) own (stmt_binds s))
                  (ns (exec_stmt lib s env1 w)) (ns (exec_stmt lib s env2 w))
                  (after (exec_stmt lib s env1 w)))
        as (IHf & IHa & IHn & IHb).
      { intros y [Hy | Hy].
        - destruct (stmt_binds s) as [x|] eqn:Eb; simpl in Hy.
          + apply elem_of_cons in Hy as [-> | Hy].
            * apply Hn. left. split; reflexivity.
            * apply Hn. right. apply Hag. left. exact Hy.
          + apply Hn. right. apply Hag. left. exact Hy.
        - apply Hn. right. apply Hag. right. simpl. apply elem_of_app.
          right. exact Hy. }
      split; [exact IHf|]. split; [exact IHa|]. split.
      * intros y Hy. apply IHn, Hn. right. exact Hy.
      * intros Hok y Hy. unfold cell_binds in Hy. simpl in Hy.
        destruct (stmt_binds s) as [x|] eqn:Eb.
        -- apply elem_of_cons in Hy as [-> | Hy].
           ++ apply IHn, Hn. left. split; reflexivity.
           ++ apply (IHb Hok). exact Hy.
        -- apply (IHb Hok). exact Hy.
Qed.

End Reads.

(** C1, amended: after the four preamble cells every code cell constructs
    exactly one grid through a charting entry point (the preamble cells
    construct none); the names a code cell takes from other cells are
    dataset variables bound from [sns.load_dataset] or module names bound
    by an import, never a grid or another value; no cell but the setup
    cell calls a function that sets process-global library state; and
    the behaviour of a cell depends on nothing but its statements, the
    values of those names, the builtins and the state of the libraries:
    run from the same state of the libraries in two namespaces that
    agree on those names, the cell asks the same operations with the
    same arguments, gets the same answers, ends in the same outcome,
    leaves the libraries in the same state and binds its names to the
    same values, whatever the library does with its state. *)
Theorem C1_cells_share_datasets_and_modules
  {world : Type} (lib : op -> world -> answer * world) (w : world)
  (env1 env2 : namespace) (i : nat) (ss : list stmt) :
  axis_grids !! i = Some (Code ss) ->
  (forall x, x ∈ from_other_cells ss \/ x ∈ builtins ->
             env1 !! x = env2 !! x) ->
  (if bool_decide (i ∈ preamble) then charting_calls ss = []
   else length (charting_calls ss) = 1) /\
  (forall x, x ∈ from_other_cells ss ->
     x ∈ dataset_vars axis_grids i \/
     x ∈ List.map fst (imports_before axis_grids i)) /\
  (global_setter_calls ss <> [] -> i = 5) /\
  failed (exec_cell (logged lib) ss env1 (w, []))
    = failed (exec_cell (logged lib) ss env2 (w, [])) /\
  after (exec_cell (logged lib) ss env1 (w, []))
    = after (exec_cell (logged lib) ss env2 (w, [])) /\
  (failed (exec_cell (logged lib) ss env1 (w, [])) = None ->
   forall y, y ∈ cell_binds ss ->
     ns (exec_cell (logged lib) ss env1 (w, [])) !! y
     = ns (exec_cell (logged lib) ss env2 (w, [])) !! y).
Proof.
  intros Hcell Hag. split; [|split; [|split]].
  - assert (Hall : forallb (fun p => one_chart_after_preamble (fst p) (snd p))
                     (code_cells axis_grids) = true)
      by (vm_compute; reflexivity).
    pose proof (check_code_cells one_chart_after_preamble axis_grids Hall
                  i ss Hcell) as H.
    unfold one_chart_after_preamble in H.
    destruct (bool_decide (i ∈ preamble));
      apply bool_decide_eq_true in H; exact H.
  - intros x Hx.
    assert (Hall : forallb
                     (fun p => shares_datasets_and_modules axis_grids (fst p) (snd p))
                     (code_cells axis_grids) = true)
      by (vm_compute; reflexivity).
    pose proof (check_code_cells (shares_datasets_and_modules axis_grids)
                  axis_grids Hall i ss Hcell) as H.
    pose proof (forallb_elem _ _ x H Hx) as Hk. cbv beta in Hk.
    apply orb_true_iff in Hk as [Hk | Hk]; apply bool_decide_eq_true in Hk;
      [left | right]; exact Hk.
  - apply setters_only_in_setup_spec. exact Hcell.
  - assert (Hall : forallb (fun p => straight_line (snd p))
                     (code_cells axis_grids) = true)
      by (vm_compute; reflexivity).
    pose proof (check_code_cells (fun _ ss => straight_line ss) axis_grids
                  Hall i ss Hcell) as Hsl.
    cbv beta in Hsl. unfold exec_cell.
    destruct (exec_block_reads (logged lib) ss Hsl [] env1 env2 (w, []))
      as (Hf & Ha & _ & Hb).
    { intros x [Hx | Hx]; [apply elem_of_nil in Hx; destruct Hx|].
      apply Hag. destruct (decide (x ∈ builtins)) as [Hbi | Hbi];
        [right; exact Hbi | left].
      unfold from_other_cells. apply list_elem_of_In, filter_In.
      split; [apply list_elem_of_In; exact Hx|].
      apply negb_true_iff, bool_decide_eq_false. exact Hbi. }
    split; [exact Hf|]. split; [exact Ha | exact Hb].
Qed.

Lemma C1_witness :
  axis_grids !! 12 = Some (Code cell_facet_hue) /\
  (forall x, x ∈ from_other_cells cell_facet_hue \/ x ∈ builtins ->
     Demo.session !! x = (<["g" := VStr "left over"]> Demo.session) !! x) /\
  (if bool_decide (12 ∈ preamble) then charting_calls cell_facet_hue = []
   else length (charting_calls cell_facet_hue) = 1) /\
  (forall x, x ∈ from_other_cells cell_facet_hue ->
     x ∈ dataset_vars axis_grids 12 \/
     x ∈ List.map fst (imports_before axis_grids 12)) /\
  (global_setter_calls cell_facet_hue <> [] -> 12 = 5) /\
  failed (exec_cell (logged Demo.lib) cell_facet_hue Demo.session
            ((0%Z, 1%N), []))
    = failed (exec_cell (logged Demo.lib) cell_facet_hue
                (<["g" := VStr "left over"]> Demo.session) ((0%Z, 1%N), [])) /\
  after (exec_cell (logged Demo.lib) cell_facet_hue Demo.session
           ((0%Z, 1%N), []))
    = after (exec_cell (logged Demo.lib) cell_facet_hue
               (<["g" := VStr "left over"]> Demo.session) ((0%Z, 1%N), [])) /\
  (failed (exec_cell (logged Demo.lib) cell_facet_hue Demo.session
             ((0%Z, 1%N), [])) = None ->
   forall y, y ∈ cell_binds cell_facet_hue ->
     ns (exec_cell (logged Demo.lib) cell_facet_hue Demo.session
           ((0%Z, 1%N), [])) !! y
     = ns (exec_cell (logged Demo.lib) cell_facet_hue
             (<["g" := VStr "left over"]> Demo.session)
             ((0%Z, 1%N), [])) !! y).
Proof.
  assert (Hag : forall x,
            x ∈ from_other_cells cell_facet_hue \/ x ∈ builtins ->
            Demo.session !! x
            = (<["g" := VStr "left over"]> Demo.session) !! x).
  { intros x Hx. symmetry. apply lookup_insert_ne. intros <-.
    destruct Hx as [Hx | Hx].
    - refine (proj1 (bool_decide_eq_false
                       ("g" ∈ from_other_cells cell_facet_hue)) _ Hx).
      vm_compute. reflexivity.
    - refine (proj1 (bool_decide_eq_false ("g" ∈ builtins)) _ Hx).
      vm_compute. reflexivity. }
  split; [reflexivity|]. split; [exact Hag|].
  exact (C1_cells_share_datasets_and_modules Demo.lib (0%Z, 1%N)
           Demo.session (<["g" := VStr "left over"]> Demo.session)
           12 cell_facet_hue eq_refl Hag).
Defined.

(** The cell that colours by smoker, run where [g] still holds a string
    left over and where it holds nothing: the same three operations, the
    same answers. *)
Example left_over_grid_is_not_read :
  List.map (fun ev => performed_attribute ev)
    (snd (after (exec_cell (logged Demo.lib) cell_facet_hue
                   (<["g" := VStr "left over"]> Demo.session)
                   ((0%Z, 1%N), []))))
  = [Some "FacetGrid"; Some "map"; Some "add_legend"] /\
  after (exec_cell (logged Demo.lib) cell_facet_hue
           (<["g" := VStr "left over"]> Demo.session) ((0%Z, 1%N), []))
  = after (exec_cell (logged Demo.lib) cell_facet_hue Demo.session
             ((0%Z, 1%N), [])).
Proof. vm_compute. split; reflexivity. Qed.

(** The state of the libraries does pass from cell to cell, and not only
    from the setup cell: the cell with the jittered regression calls no
    global setter, and leaves the random generator and the object
    counter of the stand-in library changed. *)
Example plotting_cells_change_library_state :
  global_setter_calls cell_facet_margin = [] /\
  after (exec_cell Demo.lib cell_facet_margin Demo.session (1069%Z, 1%N))
  = (689286498%Z, 2%N).
Proof. vm_compute. split; reflexivity. Qed.

(** ** The only failures are the libraries' *)

Lemma builtin_env_intact : builtins_intact builtin_env.
Proof.
  intros b Hb. unfold builtins in Hb.
  repeat (apply elem_of_cons in Hb as [-> | Hb]; [vm_compute; reflexivity|]).
  apply elem_of_nil in Hb. destruct Hb.
Qed.

Lemma intact_insert (env : namespace) (x : string) (v : value) :
  x ∉ builtins -> builtins_intact env -> builtins_intact (<[x := v]> env).
Proof.
  intros Hx He b Hb. rewrite lookup_insert_ne; [apply He, Hb|].
  intros ->. exact (Hx Hb).
Qed.

Section Pure.

Context {world : Type}.
Variable lib : op -> world -> answer * world.

Lemma mapM_pure {A B} (h : A -> @M world B) (p : A -> option B)
    (l : list A) :
  Forall (fun a => forall b, p a = Some b -> forall w, h a w = (inr b, w)) l ->
  forall bs, all_some p l = Some bs -> forall w, mapM h l w = (inr bs, w).
Proof.
  induction 1 as [|a l Ha _ IH]; intros bs Hbs w; simpl in *.
  - injection Hbs as <-. reflexivity.
  - destruct (p a) as [b|] eqn:Eb; [|discriminate].
    destruct (all_some p l) as [bs'|] eqn:El; [|discriminate].
    injection Hbs as <-. unfold bind. rewrite (Ha b eq_refl w).
    rewrite (IH bs' eq_refl w). reflexivity.
Qed.

(** An expression with a pure value evaluates to it, asking nothing. *)
Lemma pure_eval_sound (e : expr) :
  forall v, pure_eval e = Some v ->
  forall env w, builtins_intact env -> eval lib env e w = (inr v, w).
Proof.
  induction e using expr_rect_deep; intros v Hv env w He; simpl in Hv;
    try discriminate Hv; simpl.
  - case_bool_decide as Hb; [|discriminate]. injection Hv as <-.
    rewrite (He x Hb). reflexivity.
  - injection Hv as <-. reflexivity.
  - injection Hv as <-. reflexivity.
  - injection Hv as <-. reflexivity.
  - injection Hv as <-. reflexivity.
  - injection Hv as <-. reflexivity.
  - destruct (pure_eval e) as [v0|] eqn:E0; [|discriminate].
    destruct (negate v0) as [|v'] eqn:En; [discriminate|].
    injection Hv as <-. unfold bind. rewrite (IHe v0 eq_refl env w He).
    unfold lift. rewrite En. reflexivity.
  - destruct (pure_eval e) as [fv|] eqn:Ef; [|discriminate].
    destruct (all_some pure_eval args) as [avs|] eqn:Ea;
      [|destruct fv; discriminate].
    destruct (all_some _ kwargs) as [kvs|] eqn:Ek;
      [|destruct fv; discriminate].
    destruct fv; try discriminate.
    destruct (apply_builtin name avs kvs) as [|v'] eqn:Eb; [discriminate|].
    injection Hv as <-. unfold bind.
    rewrite (IHe _ eq_refl env w He).
    rewrite (mapM_pure (eval lib env) pure_eval args) with (bs := avs);
      [| eapply Forall_impl; [eassumption|]; intros a Ha b Hb w'; apply Ha; assumption
       | exact Ea].
    rewrite (mapM_pure _ (fun kv => pair (fst kv) <$> pure_eval (snd kv)) kwargs)
      with (bs := kvs); [| |exact Ek].
    + simpl. unfold lift. rewrite Eb. reflexivity.
    + eapply Forall_impl; [eassumption|]. intros kv Hkv b Hb w'.
      simpl in *. destruct (pure_eval (snd kv)) as [v0|] eqn:E0; [|discriminate].
      injection Hb as <-. unfold bind. rewrite (Hkv v0 eq_refl env w' He).
      reflexivity.
  - destruct (all_some pure_eval es) as [vs|] eqn:Ea; [|discriminate].
    injection Hv as <-. unfold bind.
    rewrite (mapM_pure (eval lib env) pure_eval es) with (bs := vs);
      [reflexivity | | exact Ea].
    eapply Forall_impl; [eassumption|]. intros a Ha b Hb w'. apply Ha; assumption.
  - destruct (all_some pure_eval es) as [vs|] eqn:Ea; [|discriminate].
    injection Hv as <-. unfold bind.
    rewrite (mapM_pure (eval lib env) pure_eval es) with (bs := vs);
      [reflexivity | | exact Ea].
    eapply Forall_impl; [eassumption|]. intros a Ha b Hb w'. apply Ha; assumption.
Qed.

Lemma eval_attr_shape (env : namespace) (e : expr) (a : string)
    (w w' : world) (fv : value) :
  eval lib env (EAttr e a) w = (inr fv, w') -> exists v, fv = VAttr v a.
Proof.
  simpl. unfold bind. destruct (eval lib env e w) as [[f|v] w1]; [discriminate|].
  unfold lift. intros H. injection H as H _. exists v.
  exact (getattr_shape v a fv H).
Qed.

End Pure.

Lemma getattr_object (v : value) (a : string) :
  is_object v = true -> getattr v a = inr (VAttr v a).
Proof. destruct v; try discriminate; reflexivity. Qed.

Lemma getattr_builtin (v : value) (a : string) :
  is_object v = false ->
  getattr v a = if String.prefix "__" a || bool_decide (a ∈ attributes_of v)
                then inl Unsupported
                else inl (AttributeError a).
Proof. destruct v; try discriminate; reflexivity. Qed.

Lemma attributes_of_builtin (v : value) (a : string) :
  a ∈ attributes_of v -> a ∈ builtin_attributes.
Proof.
  unfold builtin_attributes. intros Hin.
  destruct v; cbn [attributes_of] in Hin;
    try (apply elem_of_nil in Hin; destruct Hin);
    try (destruct (bool_decide (name = "dict"));
         [|apply elem_of_nil in Hin; destruct Hin]);
    repeat first [exact Hin
                 | apply elem_of_app; first [left; exact Hin | right]].
Qed.

(** A value of a builtin type has no foreign attribute. *)
Lemma getattr_foreign (v : value) (a : string) (f : failure) :
  foreign a = true -> getattr v a = inl f -> f = AttributeError a.
Proof.
  unfold foreign. intros Ha. apply andb_true_iff in Ha as [Hp Hn].
  apply negb_true_iff in Hp.
  apply negb_true_iff, bool_decide_eq_false in Hn.
  destruct (is_object v) eqn:Ev.
  - rewrite (getattr_object v a Ev). discriminate.
  - rewrite (getattr_builtin v a Ev), Hp.
    rewrite (bool_decide_eq_false_2 (a ∈ attributes_of v)).
    + intros H. injection H as <-. reflexivity.
    + intros Hin. exact (Hn (attributes_of_builtin v a Hin)).
Qed.

Section Safe.

Context {world : Type}.
Variable lib : op -> world -> answer * world.
Variable Q : failure -> Prop.
Hypothesis ask_Q : forall o, fails_only Q (ask lib o).
Hypothesis attr_Q : forall a, Q (AttributeError a).

Lemma fails_only_bind_post {A B} (m : @M world A) (k : A -> @M world B)
    (post : A -> Prop) :
  fails_only Q m ->
  (forall w a w', m w = (inr a, w') -> post a) ->
  (forall a, post a -> fails_only Q (k a)) ->
  fails_only Q (bind m k).
Proof.
  intros Hm Hpost Hk w f. unfold bind.
  destruct (m w) as [[e|a] w'] eqn:E.
  - intros H. injection H as <-. apply (Hm w). rewrite E. reflexivity.
  - apply Hk. eapply Hpost. exact E.
Qed.

Lemma fails_only_bind' {A B} (m : @M world A) (k : A -> @M world B) :
  fails_only Q m -> (forall a, fails_only Q (k a)) -> fails_only Q (bind m k).
Proof.
  intros Hm Hk. apply (fails_only_bind_post m k (fun _ => True)); auto.
Qed.

Lemma fails_only_ret' {A} (a : A) : fails_only Q (@ret world A a).
Proof. intros w f H. discriminate H. Qed.

Lemma fails_only_mapM' {A B} (h : A -> @M world B) (l : list A) :
  Forall (fun a => fails_only Q (h a)) l -> fails_only Q (mapM h l).
Proof.
  induction 1 as [|a l Ha _ IH]; simpl.
  - apply fails_only_ret'.
  - apply fails_only_bind'; [exact Ha|]. intros b.
    apply fails_only_bind'; [exact IH|]. intros bs. apply fails_only_ret'.
Qed.

Lemma fails_only_pure (env : namespace) (e : expr) :
  is_Some (pure_eval e) -> builtins_intact env ->
  fails_only Q (eval lib env e).
Proof.
  intros [v Hv] He w f. rewrite (pure_eval_sound lib e v Hv env w He).
  discriminate.
Qed.

(** An expression that passes [lib_only], evaluated where its names are
    bound and the builtins are intact, fails only as an operation of the
    library fails. *)
Lemma eval_lib_only (e : expr) :
  lib_only e = true ->
  forall env, builtins_intact env ->
  (forall x, x ∈ reads e -> is_Some (env !! x)) ->
  fails_only Q (eval lib env e).
Proof.
  induction e using expr_rect_deep; intros Hl env He Hr;
    try discriminate Hl.
  - simpl. destruct (Hr x) as [v Hv]; [apply list_elem_of_singleton; reflexivity|].
    rewrite Hv. apply fails_only_ret'.
  - apply fails_only_ret'.
  - apply fails_only_ret'.
  - apply fails_only_ret'.
  - apply fails_only_ret'.
  - apply fails_only_ret'.
  - apply fails_only_pure; [|exact He].
    cbn [lib_only] in Hl. apply bool_decide_eq_true in Hl. exact Hl.
  - simpl in Hl. apply andb_true_iff in Hl as [Hl Ha].
    simpl. apply fails_only_bind'; [apply IHe; assumption|].
    intros v w f Hf. simpl in Hf.
    rewrite (getattr_foreign v a f Ha Hf). apply attr_Q.
  - destruct e;
      try (apply fails_only_pure; [|exact He];
           cbn [lib_only] in Hl; apply bool_decide_eq_true in Hl; exact Hl).
    simpl in Hl. apply andb_true_iff in Hl as [Hl Hkw].
    apply andb_true_iff in Hl as [Hf Hargs].
    rewrite forallb_forall in Hargs. rewrite forallb_forall in Hkw.
    rewrite Forall_forall in H. rewrite Forall_forall in H0.
    change (eval lib env (ECall (EAttr e attr) args kwargs)) with
      (bind (eval lib env (EAttr e attr)) (fun fv =>
         bind (mapM (eval lib env) args) (fun avs =>
           bind (mapM (fun kv => bind (eval lib env (snd kv))
                                   (fun v => ret (fst kv, v))) kwargs)
             (fun kvs => apply lib fv avs kvs)))).
    apply (fails_only_bind_post _ _ (fun fv => exists v, fv = VAttr v attr)).
    + apply IHe; [exact Hf | exact He |].
      intros x Hx. apply Hr. simpl. rewrite !elem_of_app. left. exact Hx.
    + intros w a w'. apply eval_attr_shape.
    + intros fv [v ->]. apply fails_only_bind'.
      { apply fails_only_mapM'. apply Forall_forall. intros a Ha. apply H.
        - exact Ha.
        - apply Hargs. apply list_elem_of_In. exact Ha.
        - exact He.
        - intros x Hx. apply Hr. simpl. rewrite !elem_of_app. right. left.
          apply elem_of_flat_map. eauto. }
      intros avs. apply fails_only_bind'.
      { apply fails_only_mapM'. apply Forall_forall. intros kv Hkv.
        apply fails_only_bind'; [|intros v0; apply fails_only_ret'].
        apply H0.
        - exact Hkv.
        - apply Hkw. apply list_elem_of_In. exact Hkv.
        - exact He.
        - intros x Hx. apply Hr. simpl. rewrite !elem_of_app. right. right.
          apply elem_of_flat_map. eauto. }
      intros kvs. simpl. apply ask_Q.
  - simpl in Hl |- *. rewrite forallb_forall in Hl. rewrite Forall_forall in H.
    apply fails_only_bind'; [|intros vs; apply fails_only_ret'].
    apply fails_only_mapM'. apply Forall_forall. intros a Ha. apply H.
    + exact Ha.
    + apply Hl. apply list_elem_of_In. exact Ha.
    + exact He.
    + intros x Hx. apply Hr. simpl. apply elem_of_flat_map. eauto.
  - simpl in Hl |- *. rewrite forallb_forall in Hl. rewrite Forall_forall in H.
    apply fails_only_bind'; [|intros vs; apply fails_only_ret'].
    apply fails_only_mapM'. apply Forall_forall. intros a Ha. apply H.
    + exact Ha.
    + apply Hl. apply list_elem_of_In. exact Ha.
    + exact He.
    + intros x Hx. apply Hr. simpl. apply elem_of_flat_map. eauto.
  - simpl in Hl |- *. rewrite forallb_forall in Hl. rewrite Forall_forall in H.
    apply fails_only_bind'; [|intros vs; apply fails_only_ret'].
    apply fails_only_mapM'. apply Forall_forall. intros kv Hkv.
    destruct (H kv Hkv) as [Hk Hv].
    pose proof (Hl kv (proj1 (list_elem_of_In _ _) Hkv)) as Hlk.
    apply andb_true_iff in Hlk as [Hlk Hlv].
    apply fails_only_bind'.
    { apply Hk; [exact Hlk | exact He |].
      intros x Hx. apply Hr. simpl. apply elem_of_flat_map.
      exists kv. rewrite elem_of_app. auto. }
    intros k. apply fails_only_bind'; [|intros v0; apply fails_only_ret'].
    apply Hv; [exact Hlv | exact He |].
    intros x Hx. apply Hr. simpl. apply elem_of_flat_map.
    exists kv. rewrite elem_of_app. auto.
Qed.

Lemma finish_fails_only (env : namespace) (m : @M world value) (w : world)
    (k : value -> namespace) :
  fails_only Q m ->
  forall f, failed (finish env (m w) k) = Some f -> Q f.
Proof.
  intros Hm f. unfold finish. destruct (m w) as [[e|v] w'] eqn:E; simpl.
  - intros H. injection H as <-. apply (Hm w). rewrite E. reflexivity.
  - discriminate.
Qed.

Lemma finish_intact (env : namespace) (r : (failure + value) * world)
    (k : value -> namespace) :
  builtins_intact env -> (forall v, builtins_intact (k v)) ->
  builtins_intact (ns (finish env r k)).
Proof.
  intros He Hk. unfold finish. destruct r as [[e|v] w']; simpl; auto.
Qed.

(** One safe statement. *)
Lemma exec_stmt_safe (s : stmt) (env : namespace) (w : world)
    (bound : gset string) :
  safe_stmt s = true ->
  forallb (fun x => bool_decide (x ∈ bound)) (stmt_reads s) = true ->
  bound ⊆ dom env -> builtins_intact env ->
  (forall f, failed (exec_stmt lib s env w) = Some f -> Q f) /\
  builtins_intact (ns (exec_stmt lib s env w)).
Proof.
  intros Hs Hreads Hb He.
  assert (Hbound : forall x, x ∈ stmt_reads s -> is_Some (env !! x)).
  { intros x Hx. apply elem_of_dom, Hb.
    pose proof (forallb_elem _ _ x Hreads Hx) as Hk.
    apply bool_decide_eq_true in Hk. exact Hk. }
  unfold safe_stmt in Hs. apply andb_true_iff in Hs as [Hs Hbind].
  apply andb_true_iff in Hs as [Hsimple Hexpr].
  destruct s; try discriminate Hsimple; simpl in *.
  - split; [apply finish_fails_only, ask_Q|].
    apply finish_intact; auto.
  - apply negb_true_iff, bool_decide_eq_false in Hbind.
    split; [apply finish_fails_only, ask_Q|].
    apply finish_intact; [exact He|]. intros v. apply intact_insert; assumption.
  - apply negb_true_iff, bool_decide_eq_false in Hbind.
    split; [apply finish_fails_only, ask_Q|].
    apply finish_intact; [exact He|]. intros v. apply intact_insert; assumption.
  - apply negb_true_iff, bool_decide_eq_false in Hbind.
    split; [apply finish_fails_only, eval_lib_only; assumption|].
    apply finish_intact; [exact He|]. intros v. apply intact_insert; assumption.
  - split; [apply finish_fails_only, eval_lib_only; assumption|].
    apply finish_intact; auto.
  - split; [discriminate | exact He].
Qed.

Lemma safe_stmt_simple (s : stmt) : safe_stmt s = true -> simple_stmt s = true.
Proof.
  unfold safe_stmt. intros H. apply andb_true_iff in H as [H _].
  apply andb_true_iff in H as [H _]. exact H.
Qed.

(** A safe block whose names are bound. *)
Lemma exec_block_safe (ss : list stmt) :
  safe_cell ss = true ->
  forall (bound bound' : gset string) (env : namespace) (w : world),
    names_defined bound ss = Some bound' ->
    bound ⊆ dom env -> builtins_intact env ->
    (forall f, failed (exec_block lib ss env w) = Some f -> Q f) /\
    (failed (exec_block lib ss env w) = None ->
     bound' ⊆ dom (ns (exec_block lib ss env w)) /\
     builtins_intact (ns (exec_block lib ss env w))).
Proof.
  induction ss as [|s rest IH]; intros Hsafe bound bound' env w Hn Hb He.
  - simpl in Hn. injection Hn as <-. split; [discriminate|]. intros _.
    split; assumption.
  - simpl in Hsafe. apply andb_true_iff in Hsafe as [Hs Hrest].
    simpl in Hn. rewrite (safe_stmt_simple s Hs) in Hn.
    destruct (forallb _ (stmt_reads s)) eqn:Hr; [|discriminate].
    simpl in Hn.
    destruct (exec_stmt_safe s env w bound Hs Hr Hb He) as [Hf Hi].
    destruct (exec_stmt_names lib s env w bound (safe_stmt_simple s Hs) Hr Hb)
      as [_ Hok].
    rewrite exec_block_cons.
    destruct (failed (exec_stmt lib s env w)) as [f0|] eqn:E.
    + split; [|rewrite E; discriminate].
      intros f Hf'. rewrite E in Hf'. injection Hf' as <-. apply Hf. reflexivity.
    + apply (IH Hrest _ bound' _ _ Hn); [apply Hok; reflexivity | exact Hi].
Qed.

(** Cells that are runnable from the names bound so far. *)
Lemma run_cells_safe (cs : list (nat * list stmt)) :
  forall (bound bound' : gset string) (env : namespace) (w : world),
    bound_after bound cs = Some bound' ->
    bound ⊆ dom env -> builtins_intact env ->
    (forall f, failed (snd (run_cells lib cs env w)) = Some f -> Q f) /\
    (failed (snd (run_cells lib cs env w)) = None ->
     fst (run_cells lib cs env w) = List.map fst cs /\
     bound' ⊆ dom (ns (snd (run_cells lib cs env w)))).
Proof.
  induction cs as [|[i ss] cs IH]; intros bound bound' env w Hn Hb He.
  - simpl in Hn. injection Hn as <-. simpl. split; [discriminate|].
    intros _. split; [reflexivity | exact Hb].
  - simpl in Hn. destruct (safe_cell ss) eqn:Hsafe; [|discriminate].
    destruct (names_defined bound ss) as [b1|] eqn:E1; [|discriminate].
    destruct (exec_block_safe ss Hsafe bound b1 env w E1 Hb He) as [Hf Hok].
    simpl. unfold exec_cell.
    destruct (failed (exec_block lib ss env w)) as [f0|] eqn:E.
    + simpl. rewrite E. split; [|discriminate].
      intros f H. injection H as <-. apply Hf. reflexivity.
    + destruct (Hok eq_refl) as [Hdom Hint].
      specialize (IH b1 bound' (ns (exec_block lib ss env w))
                    (after (exec_block lib ss env w)) Hn Hdom Hint).
      destruct (run_cells lib cs _ _) as [visited r']. simpl in *.
      destruct IH as [IHf IHok]. split; [exact IHf|].
      intros Hr. destruct (IHok Hr) as [-> Hd]. split; [reflexivity | exact Hd].
Qed.

End Safe.

Lemma ask_library_error {world : Type} (lib : op -> world -> answer * world)
    (o : op) :
  fails_only library_error (ask lib o).
Proof.
  intros w f. unfold ask. destruct (lib o w) as [[msg|v] w'].
  - intros H. injection H as <-. exists msg. reflexivity.
  - discriminate.
Qed.

Lemma ask_library_or_attribute {world : Type}
    (lib : op -> world -> answer * world) (o : op) :
  fails_only library_or_attribute (ask lib o).
Proof.
  intros w f H. left. exact (ask_library_error lib o w f H).
Qed.

Lemma ask_never_fails {world : Type} (lib : op -> world -> answer * world)
    (o : op) :
  answers lib -> fails_only attribute_error (ask lib o).
Proof.
  intros Htotal w f. unfold ask. destruct (Htotal o w) as [v Hv].
  destruct (lib o w) as [[msg|v'] w']; simpl in *; discriminate.
Qed.

(** Cells that are runnable from the builtins, run in a fresh kernel. *)
Lemma run_fresh_safe {world : Type} (lib : op -> world -> answer * world)
    (Q : failure -> Prop) (cs : list (nat * list stmt)) (w : world) :
  (forall o, fails_only Q (ask lib o)) ->
  (forall a, Q (AttributeError a)) ->
  runnable (dom builtin_env) cs = true ->
  (forall f, failed (snd (run_cells lib cs builtin_env w)) = Some f -> Q f) /\
  (failed (snd (run_cells lib cs builtin_env w)) = None ->
   fst (run_cells lib cs builtin_env w) = List.map fst cs).
Proof.
  intros Hask Hattr Hrun. apply bool_decide_eq_true in Hrun as [b E].
  pose proof builtin_env_intact as He.
  generalize dependent builtin_env. intros env E He.
  destruct (run_cells_safe lib Q Hask Hattr cs (dom env) b env w E
              (reflexivity _) He)
    as [Hf Hok].
  split; [exact Hf|]. intros Hr. apply (Hok Hr).
Qed.

(** ** Cells in any order: what stays runnable *)

Lemma names_defined_grows (ss : list stmt) :
  forall bound bound', names_defined bound ss = Some bound' -> bound ⊆ bound'.
Proof.
  induction ss as [|s rest IH]; intros bound bound' H; simpl in H.
  - injection H as <-. reflexivity.
  - destruct (simple_stmt s && _); [|discriminate].
    apply IH in H. destruct (stmt_binds s); simpl in H; [|exact H].
    transitivity ({[s0]} ∪ bound); [apply union_subseteq_r | exact H].
Qed.

Lemma names_defined_mono (ss : list stmt) :
  forall b1 b1' b2, names_defined b1 ss = Some b1' -> b1 ⊆ b2 ->
    exists b2', names_defined b2 ss = Some b2' /\ b1' ⊆ b2'.
Proof.
  induction ss as [|s rest IH]; intros b1 b1' b2 H Hsub; simpl in *.
  - injection H as <-. eauto.
  - destruct (simple_stmt s); simpl in *; [|discriminate].
    destruct (forallb _ (stmt_reads s)) eqn:Hr; [|discriminate].
    assert (Hr2 : forallb (fun x => bool_decide (x ∈ b2)) (stmt_reads s) = true).
    { apply forallb_forall. intros x Hx.
      rewrite forallb_forall in Hr. specialize (Hr x Hx).
      apply bool_decide_eq_true in Hr. apply bool_decide_eq_true.
      apply Hsub. exact Hr. }
    rewrite Hr2. apply (IH _ _ _ H).
    destruct (stmt_binds s); simpl; [apply union_mono_l|]; exact Hsub.
Qed.

Lemma bound_after_app (a b : list (nat * list stmt)) (bound : gset string) :
  bound_after bound (a ++ b) =
  bound_after bound a ≫= fun bound' => bound_after bound' b.
Proof.
  revert bound. induction a as [|[i ss] a IH]; intros bound; [reflexivity|].
  simpl. destruct (safe_cell ss); [|reflexivity].
  destruct (names_defined bound ss); [apply IH | reflexivity].
Qed.

Lemma pick_app (nb : notebook) (p q : list nat) :
  pick nb (p ++ q) = pick nb p ++ pick nb q.
Proof. unfold pick. apply omap_app. Qed.

Lemma cells_ready_spec (bound : gset string) (nb : notebook) (i : nat)
    (ss : list stmt) :
  cells_ready bound nb = true -> nb !! i = Some (Code ss) ->
  safe_cell ss = true /\ is_Some (names_defined bound ss).
Proof.
  intros H Hcell. unfold cells_ready in H.
  pose proof (forallb_elem _ _ (i, ss) H (in_code_cells nb i ss Hcell)) as Hk.
  cbv beta in Hk. apply andb_true_iff in Hk as [Hs Hn].
  apply bool_decide_eq_true in Hn. split; assumption.
Qed.

(** Once every cell is ready, cells picked in any order stay runnable. *)
Lemma bound_after_pick (nb : notebook) (ready : gset string) :
  cells_ready ready nb = true ->
  forall (positions : list nat) (bound : gset string),
    ready ⊆ bound -> is_Some (bound_after bound (pick nb positions)).
Proof.
  intros Hready. induction positions as [|i rest IH]; intros bound Hsub.
  - simpl. eauto.
  - unfold pick. simpl. fold (pick nb rest).
    destruct (nb !! i) as [[| |ss]|] eqn:Ei; simpl; try (apply IH; exact Hsub).
    destruct (cells_ready_spec ready nb i ss Hready Ei) as [Hs [b1 Hb1]].
    rewrite Hs.
    destruct (names_defined_mono ss ready b1 bound Hb1 Hsub) as (b2 & E2 & _).
    rewrite E2. apply IH.
    transitivity bound; [exact Hsub | exact (names_defined_grows ss _ _ E2)].
Qed.

Lemma bound_after_grows (cs : list (nat * list stmt)) :
  forall bound bound', bound_after bound cs = Some bound' -> bound ⊆ bound'.
Proof.
  induction cs as [|[i ss] cs IH]; intros bound bound' H; simpl in H.
  - injection H as <-. reflexivity.
  - destruct (safe_cell ss); [|discriminate].
    destruct (names_defined bound ss) as [b1|] eqn:E; [|discriminate].
    transitivity b1; [exact (names_defined_grows ss _ _ E) | exact (IH _ _ H)].
Qed.

Lemma runnable_after_essentials (nb : notebook) (positions : list nat) :
  ready_after_essentials nb = true ->
  runnable (dom builtin_env) (pick nb (essentials ++ positions)) = true.
Proof.
  unfold ready_after_essentials, runnable. intros H.
  apply bool_decide_eq_true. rewrite pick_app, bound_after_app.
  destruct (bound_after (dom builtin_env) (pick nb essentials))
    as [ready|]; [|discriminate].
  simpl. apply (bound_after_pick nb ready H). reflexivity.
Qed.


(** ** X4, X5: what names stay bound to *)

Lemma same_module_eq (v1 v2 : value) : same_module v1 v2 = true -> v1 = v2.
Proof.
  revert v2. induction v1; intros v2 H; destruct v2; try discriminate H;
    simpl in H.
  - apply bool_decide_eq_true in H. subst. reflexivity.
  - apply andb_true_iff in H as [H1 H2]. apply bool_decide_eq_true in H2.
    subst. rewrite (IHv1 _ H1). reflexivity.
Qed.

Lemma pick_sound (nb : notebook) (positions : list nat) (c : nat * list stmt) :
  c ∈ pick nb positions -> nb !! fst c = Some (Code (snd c)).
Proof.
  unfold pick. intros H. apply list_elem_of_omap in H as (i & _ & Hi).
  destruct (nb !! i) as [[| |ss]|] eqn:E; try discriminate Hi.
  injection Hi as <-. exact E.
Qed.

Lemma every_stmt_pick (p : stmt -> bool) (nb : notebook)
    (positions : list nat) :
  every_stmt p nb = true ->
  forallb (fun c => forallb p (snd c)) (pick nb positions) = true.
Proof.
  intros H. apply forallb_forall. intros c Hc.
  apply list_elem_of_In, pick_sound, in_code_cells in Hc.
  destruct c as [i ss]. exact (forallb_elem _ _ (i, ss) H Hc).
Qed.

Section Invariant.

Context {world : Type}.
Variable lib : op -> world -> answer * world.
Variable Inv : namespace -> world -> Prop.
Variable ok : stmt -> bool.
Hypothesis step : forall s env w,
  ok s = true -> Inv env w ->
  Inv (ns (exec_stmt lib s env w)) (after (exec_stmt lib s env w)).

Lemma exec_block_invariant (ss : list stmt) :
  forallb ok ss = true ->
  forall env w, Inv env w ->
    Inv (ns (exec_block lib ss env w)) (after (exec_block lib ss env w)).
Proof.
  induction ss as [|s rest IH]; intros Hok env w Hi; [exact Hi|].
  simpl in Hok. apply andb_true_iff in Hok as [Hs Hrest].
  rewrite exec_block_cons. specialize (step s env w Hs Hi).
  destruct (failed (exec_stmt lib s env w)); [exact step|].
  apply (IH Hrest). exact step.
Qed.

Lemma run_cells_invariant (cs : list (nat * list stmt)) :
  forallb (fun c => forallb ok (snd c)) cs = true ->
  forall env w, Inv env w ->
    Inv (ns (snd (run_cells lib cs env w))) (after (snd (run_cells lib cs env w))).
Proof.
  induction cs as [|[i ss] cs IH]; intros Hok env w Hi; [exact Hi|].
  simpl in Hok. apply andb_true_iff in Hok as [Hs Hrest].
  simpl. unfold exec_cell.
  pose proof (exec_block_invariant ss Hs env w Hi) as Hb.
  destruct (failed (exec_block lib ss env w)); [exact Hb|].
  specialize (IH Hrest _ _ Hb).
  destruct (run_cells lib cs _ _) as [visited r]. exact IH.
Qed.

End Invariant.

(** What a simple statement does to the namespace: nothing, or it binds
    its target; an import binds the module it names. *)
Lemma simple_stmt_ns {world : Type} (lib : op -> world -> answer * world)
    (s : stmt) (env : namespace) (w : world) :
  simple_stmt s = true ->
  ns (exec_stmt lib s env w) = env \/
  exists x v, stmt_binds s = Some x /\
              ns (exec_stmt lib s env w) = <[x := v]> env /\
              (forall m, module_value s = Some m -> v = m).
Proof.
  intros Hs. destruct s; try discriminate Hs; simpl; unfold finish.
  - destruct (ask lib _ w) as [[f|v] w']; left; reflexivity.
  - destruct (ask lib _ w) as [[f|v] w']; [left; reflexivity|].
    right. eexists _, _. split; [reflexivity|]. split; [reflexivity|].
    intros m H. injection H as <-. reflexivity.
  - destruct (ask lib _ w) as [[f|v] w']; [left; reflexivity|].
    right. eexists _, _. split; [reflexivity|]. split; [reflexivity|].
    intros m H. injection H as <-. reflexivity.
  - destruct (eval lib env e w) as [[f|v] w']; [left; reflexivity|].
    right. exists target, v. split; [reflexivity|]. split; [reflexivity|].
    intros m H. discriminate H.
  - destruct (eval lib env e w) as [[f|v] w']; left; reflexivity.
  - left. reflexivity.
Qed.

Lemma leaves_alone_step {world : Type} (lib : op -> world -> answer * world)
    (a : string) (s : stmt) (env : namespace) (w : world) :
  leaves_alone a s = true ->
  ns (exec_stmt lib s env w) !! a = env !! a.
Proof.
  unfold leaves_alone. intros H. apply andb_true_iff in H as [Hs Hb].
  apply negb_true_iff, bool_decide_eq_false in Hb.
  destruct (simple_stmt_ns lib s env w Hs) as [-> | (x & v & Hx & -> & _)];
    [reflexivity|].
  apply lookup_insert_ne. intros ->. exact (Hb Hx).
Qed.

Lemma binds_only_module_step {world : Type}
    (lib : op -> world -> answer * world)
    (a : string) (m : value) (s : stmt) (env : namespace) (w : world) :
  binds_only_module a m s = true ->
  env !! a = None \/ env !! a = Some m ->
  ns (exec_stmt lib s env w) !! a = None \/
  ns (exec_stmt lib s env w) !! a = Some m.
Proof.
  unfold binds_only_module. intros H Hi. apply andb_true_iff in H as [Hs Hb].
  destruct (simple_stmt_ns lib s env w Hs) as [-> | (x & v & Hx & -> & Hm)];
    [exact Hi|].
  rewrite Hx in Hb. apply orb_true_iff in Hb as [Hb | Hb].
  - apply negb_true_iff, bool_decide_eq_false in Hb.
    rewrite lookup_insert_ne by exact Hb. exact Hi.
  - destruct (module_value s) as [v0|] eqn:E; [|discriminate].
    apply same_module_eq in Hb. subst v0. rewrite (Hm m eq_refl).
    destruct (decide (x = a)) as [-> | Hne].
    + right. apply lookup_insert_eq.
    + rewrite lookup_insert_ne by exact Hne. exact Hi.
Qed.

Lemma safe_stmt_intact {world : Type} (lib : op -> world -> answer * world)
    (s : stmt) (env : namespace) (w : world) :
  safe_stmt s = true -> builtins_intact env ->
  builtins_intact (ns (exec_stmt lib s env w)).
Proof.
  intros Hs He. unfold safe_stmt in Hs. apply andb_true_iff in Hs as [Hs Hb].
  apply andb_true_iff in Hs as [Hsimple _].
  destruct (simple_stmt_ns lib s env w Hsimple)
    as [-> | (x & v & Hx & -> & _)]; [exact He|].
  rewrite Hx in Hb. simpl in Hb.
  apply negb_true_iff, bool_decide_eq_false in Hb.
  apply intact_insert; assumption.
Qed.

Lemma keeps_names_step {world : Type} (lib : op -> world -> answer * world)
    (s : stmt) (env : namespace) (w : world) :
  keeps_names s = true -> names_ok env ->
  names_ok (ns (exec_stmt lib s env w)).
Proof.
  unfold keeps_names. intros H [Hb Hm]. apply andb_true_iff in H as [Hs Ht].
  split.
  - apply safe_stmt_intact; assumption.
  - intros a m Ham. apply binds_only_module_step; [|apply Hm; exact Ham].
    rewrite forallb_forall in Ht.
    exact (Ht (a, m) (proj1 (list_elem_of_In _ _) Ham)).
Qed.

(** X4: in any session over the cells of the notebook, whatever the
    order and whatever the library answers, the builtins [sum], [map],
    [ord], [dict] stay bound to themselves, and each module name ([np],
    [pd], [sns], [stats], [mpl], [plt]) is either not yet bound or bound
    to the module the import cell names: no cell shadows them. *)
Theorem X4_modules_and_builtins_are_never_shadowed
  {world : Type} (lib : op -> world -> answer * world) (w : world)
  (positions : list nat) (a : string) :
  let r := snd (run_cells lib (pick axis_grids positions) builtin_env w) in
  (a ∈ builtins -> ns r !! a = Some (VBuiltin a)) /\
  (forall m, (a, m) ∈ module_table ->
     ns r !! a = None \/ ns r !! a = Some m).
Proof.
  cbv zeta. split.
  - intros Ha.
    apply (run_cells_invariant lib
             (fun env _ => env !! a = Some (VBuiltin a)) (leaves_alone a)).
    + intros s env u Hs Hi. rewrite (leaves_alone_step lib a s env u Hs).
      exact Hi.
    + apply every_stmt_pick. unfold builtins in Ha.
      repeat (apply elem_of_cons in Ha as [-> | Ha]; [vm_compute; reflexivity|]).
      apply elem_of_nil in Ha. destruct Ha.
    + apply builtin_env_intact. exact Ha.
  - intros m Hm.
    apply (run_cells_invariant lib
             (fun env _ => env !! a = None \/ env !! a = Some m)
             (binds_only_module a m)).
    + intros s env u Hs Hi. apply binds_only_module_step; assumption.
    + apply every_stmt_pick. unfold module_table in Hm.
      repeat (apply elem_of_cons in Hm as [Hm | Hm];
              [injection Hm as -> ->; vm_compute; reflexivity|]).
      apply elem_of_nil in Hm. destruct Hm.
    + left. unfold module_table in Hm.
      repeat (apply elem_of_cons in Hm as [Hm | Hm];
              [injection Hm as -> ->; vm_compute; reflexivity|]).
      apply elem_of_nil in Hm. destruct Hm.
Qed.

Lemma X4_witness :
  "sum" ∈ builtins /\
  ns (snd (run_cells Demo.lib (pick axis_grids [20; 4; 5]) builtin_env
             (0%Z, 0%N))) !! "sum" = Some (VBuiltin "sum").
Proof.
  assert (H : "sum" ∈ builtins) by apply list_elem_of_here.
  split; [exact H|].
  exact (proj1 (X4_modules_and_builtins_are_never_shadowed
                  Demo.lib (0%Z, 0%N) [20; 4; 5] "sum") H).
Defined.

(** After a complete run against the stand-in library all six module
    names are bound, to the modules of the table. *)
Example modules_after_a_complete_run :
  let r := snd (run_notebook Demo.lib axis_grids (0%Z, 0%N)) in
  List.map (fun p => ns r !! fst p) module_table
  = List.map (fun p => Some (snd p)) module_table.
Proof. vm_compute. reflexivity. Qed.

Section Provenance.

Context {world : Type}.
Variable lib : op -> world -> answer * world.
Variables x name : string.
Hypothesis x_not_sns : x <> "sns".

Lemma load_stmt_step (env : namespace) (w : world) (log : list event) :
  provenance x name env (w, log) ->
  provenance x name (ns (exec_stmt (logged lib) (load_stmt x name) env (w, log)))
             (after (exec_stmt (logged lib) (load_stmt x name) env (w, log))).
Proof.
  intros [Hsns Hx]. unfold load_stmt. simpl. unfold bind. simpl.
  destruct Hsns as [Hs | Hs]; rewrite Hs; simpl.
  - split; [left; exact Hs | exact Hx].
  - unfold ask, logged. simpl. fold (load_op name).
    destruct (lib (load_op name) w) as [[msg|v] w']; simpl.
    + split; [right; exact Hs|]. intros v Hv. apply elem_of_app. left.
      apply Hx. exact Hv.
    + split.
      * right. rewrite lookup_insert_ne by (intros E; apply x_not_sns; exact E).
        exact Hs.
      * intros v' Hv'. rewrite lookup_insert_eq in Hv'. injection Hv' as <-.
        apply elem_of_app. right. apply list_elem_of_singleton. reflexivity.
Qed.

Lemma is_load_stmt_eq (s : stmt) :
  is_load_stmt x name s = true -> s = load_stmt x name.
Proof.
  unfold is_load_stmt, load_stmt.
  repeat match goal with
         | |- context [match ?t with _ => _ end] =>
             is_var t; destruct t; try discriminate
         end.
  intros H. repeat (apply andb_true_iff in H as [H ?]).
  repeat match goal with
         | Hb : bool_decide _ = true |- _ => apply bool_decide_eq_true in Hb
         end.
  subst. reflexivity.
Qed.

Lemma keeps_provenance_step (s : stmt) (env : namespace)
    (wl : world * list event) :
  keeps_provenance x name s = true ->
  provenance x name env wl ->
  provenance x name (ns (exec_stmt (logged lib) s env wl))
             (after (exec_stmt (logged lib) s env wl)).
Proof.
  intros Hk Hi. destruct wl as [w log].
  unfold keeps_provenance in Hk. apply orb_true_iff in Hk as [Hk | Hk].
  { rewrite (is_load_stmt_eq s Hk). apply load_stmt_step. exact Hi. }
  apply andb_true_iff in Hk as [Hs Hb].
  destruct (exec_stmt_faithful lib s env w log Hs) as (l & El & _).
  destruct Hi as [Hsns Hx].
  assert (Hlog : forall v, env !! x = Some v ->
                 (load_op name, inr v)
                   ∈ snd (after (exec_stmt (logged lib) s env (w, log)))).
  { intros v Hv. rewrite El. apply elem_of_app. left. apply Hx. exact Hv. }
  destruct (simple_stmt_ns (logged lib) s env (w, log) Hs)
    as [-> | (y & v & Hy & -> & Hm)].
  { split; assumption. }
  rewrite Hy in Hb. case_bool_decide as Hys.
  - subst y. destruct (module_value s) as [v0|] eqn:E; [|discriminate].
    apply same_module_eq in Hb. subst v0. rewrite (Hm _ eq_refl). split.
    + right. apply lookup_insert_eq.
    + intros v' Hv'.
      rewrite lookup_insert_ne in Hv' by (intros E'; apply x_not_sns; symmetry; exact E').
      apply Hlog. exact Hv'.
  - apply negb_true_iff, bool_decide_eq_false in Hb. split.
    + rewrite lookup_insert_ne by exact Hys. exact Hsns.
    + intros v' Hv'. rewrite lookup_insert_ne in Hv' by exact Hb.
      apply Hlog. exact Hv'.
Qed.

End Provenance.

(** X5: in any session over the cells of the notebook, against any
    library, whenever the variable [tips] (or [iris]) is bound, its value
    is an answer the library gave to [sns.load_dataset] for the dataset of
    that name, with [sns] being seaborn: the dataset variables are never
    assigned anything else. *)
Theorem X5_dataset_variables_hold_loaded_datasets
  {world : Type} (lib : op -> world -> answer * world) (w : world)
  (positions : list nat) (x : string) (v : value) :
  x ∈ datasets ->
  ns (snd (run_cells (logged lib) (pick axis_grids positions) builtin_env
             (w, []))) !! x = Some v ->
  (load_op x, inr v)
    ∈ snd (after (snd (run_cells (logged lib) (pick axis_grids positions)
                         builtin_env (w, [])))).
Proof.
  intros Hx Hv.
  assert (Hne : x <> "sns").
  { unfold datasets in Hx.
    repeat (apply elem_of_cons in Hx as [-> | Hx]; [discriminate|]).
    apply elem_of_nil in Hx. destruct Hx. }
  assert (Hall : every_stmt (keeps_provenance x x) axis_grids = true).
  { unfold datasets in Hx.
    repeat (apply elem_of_cons in Hx as [-> | Hx]; [vm_compute; reflexivity|]).
    apply elem_of_nil in Hx. destruct Hx. }
  assert (Hfresh : builtin_env !! "sns" = None /\ builtin_env !! x = None).
  { unfold datasets in Hx.
    repeat (apply elem_of_cons in Hx as [-> | Hx];
            [split; vm_compute; reflexivity|]).
    apply elem_of_nil in Hx. destruct Hx. }
  destruct (run_cells_invariant (logged lib) (provenance x x)
              (keeps_provenance x x)
              (fun s env wl => keeps_provenance_step lib x x Hne s env wl)
              (pick axis_grids positions)
              (every_stmt_pick _ _ _ Hall) builtin_env (w, []))
    as [_ Hprov].
  - split; [left; apply Hfresh|]. intros v' Hv'.
    destruct Hfresh as [_ Hf]. rewrite Hf in Hv'. discriminate Hv'.
  - apply Hprov. exact Hv.
Qed.

Lemma X5_witness :
  "iris" ∈ datasets /\
  ns (snd (run_cells (logged Demo.lib) (pick axis_grids [4; 29; 29])
             builtin_env ((0%Z, 0%N), []))) !! "iris" = Some (VObj 3) /\
  (load_op "iris", inr (VObj 3))
    ∈ snd (after (snd (run_cells (logged Demo.lib) (pick axis_grids [4; 29; 29])
                         builtin_env ((0%Z, 0%N), [])))).
Proof.
  assert (H1 : "iris" ∈ datasets)
    by (apply list_elem_of_further; apply list_elem_of_here).
  assert (H2 : ns (snd (run_cells (logged Demo.lib) (pick axis_grids [4; 29; 29])
                          builtin_env ((0%Z, 0%N), []))) !! "iris"
               = Some (VObj 3))
    by (vm_compute; reflexivity).
  split; [exact H1|]. split; [exact H2|].
  exact (X5_dataset_variables_hold_loaded_datasets Demo.lib (0%Z, 0%N)
           [4; 29; 29] "iris" (VObj 3) H1 H2).
Defined.

(** ** X6: the calls at run time are the calls of the source, in order *)

Lemma performed_app (l1 l2 : list event) :
  performed (l1 ++ l2) = performed l1 ++ performed l2.
Proof. unfold performed. apply omap_app. Qed.

Lemma omap_flat_map {A B C} (h : B -> option C) (k : A -> list B)
    (l : list A) :
  omap h (flat_map k l) = flat_map (fun a => omap h (k a)) l.
Proof.
  induction l as [|a l IH]; [reflexivity|].
  simpl. rewrite omap_app, IH. reflexivity.
Qed.

Lemma all_some_Forall {A B} (p : A -> option B) (l : list A) (bs : list B) :
  all_some p l = Some bs -> Forall (fun a => is_Some (p a)) l.
Proof.
  revert bs. induction l as [|a l IH]; intros bs H; [constructor|].
  simpl in H. destruct (p a) as [b|] eqn:Ea; [|discriminate].
  destruct (all_some p l) as [bs'|] eqn:El; [|discriminate].
  constructor; [eauto | eapply IH; reflexivity].
Qed.

Lemma flat_map_nil {A B} (k : A -> list B) (l : list A) :
  Forall (fun a => k a = []) l -> flat_map k l = [].
Proof.
  induction 1 as [|a l Ha _ IH]; [reflexivity|]. simpl. rewrite Ha, IH.
  reflexivity.
Qed.

Lemma written_call (f : expr) (args : list expr)
    (kwargs : list (string * expr)) :
  written (ECall f args kwargs) =
  written f ++ flat_map written args
    ++ flat_map (fun kv => written (snd kv)) kwargs
    ++ from_option (fun a => [a]) [] (called_signature (ECall f args kwargs)).
Proof.
  unfold written. simpl calls. rewrite !omap_app, !omap_flat_map.
  do 3 (apply (f_equal2 app); [reflexivity|]).
  simpl. destruct f; reflexivity.
Qed.

(** An expression with a pure value writes no attribute call. *)
Lemma written_pure (e : expr) : is_Some (pure_eval e) -> written e = [].
Proof.
  induction e using expr_rect_deep; intros [v Hv]; simpl in Hv;
    try discriminate Hv; try reflexivity.
  - destruct (pure_eval e) as [v0|] eqn:E0; [|discriminate].
    change (written (ENeg e)) with (written e). apply IHe. eauto.
  - destruct (pure_eval e) as [fv|] eqn:Ef; [|discriminate].
    destruct (all_some pure_eval args) as [avs|] eqn:Ea;
      [|destruct fv; discriminate].
    destruct (all_some _ kwargs) as [kvs|] eqn:Ek;
      [|destruct fv; discriminate].
    rewrite written_call. rewrite IHe by eauto.
    rewrite (flat_map_nil written args).
    2:{ apply all_some_Forall in Ea. rewrite Forall_forall in *.
        intros a Ha. apply H; [exact Ha | apply Ea; exact Ha]. }
    rewrite (flat_map_nil (fun kv => written (snd kv)) kwargs).
    2:{ apply all_some_Forall in Ek. rewrite Forall_forall in *.
        intros kv Hkv. apply H0; [exact Hkv|].
        destruct (Ek kv Hkv) as [p Hp]. simpl in Hp.
        destruct (pure_eval (snd kv)); [eauto | discriminate]. }
    destruct e; try reflexivity. discriminate Ef.
  - destruct (all_some pure_eval es) as [vs|] eqn:Ea; [|discriminate].
    unfold written. simpl calls. rewrite omap_flat_map.
    apply flat_map_nil. apply all_some_Forall in Ea. rewrite Forall_forall in *.
    intros a Ha. apply H; [exact Ha | apply Ea; exact Ha].
  - destruct (all_some pure_eval es) as [vs|] eqn:Ea; [|discriminate].
    unfold written. simpl calls. rewrite omap_flat_map.
    apply flat_map_nil. apply all_some_Forall in Ea. rewrite Forall_forall in *.
    intros a Ha. apply H; [exact Ha | apply Ea; exact Ha].
Qed.

Section Performs.

Context {world : Type}.
Variable lib : op -> world -> answer * world.

Local Abbreviation W := (world * list event)%type.
Local Abbreviation any := (fun _ => True).

Lemma performs_ret {A} (a : A) (post : A -> Prop) :
  post a -> performs [] post (@ret W A a).
Proof.
  intros Hp w log. exists []. simpl. rewrite app_nil_r.
  split; [reflexivity|]. split; [reflexivity | exact Hp].
Qed.

Lemma performs_fail {A} (post : A -> Prop) (r : failure + A) :
  (forall a, r = inr a -> post a) -> performs [] post (@lift W A r).
Proof.
  intros Hp w log. exists []. simpl. rewrite app_nil_r.
  split; [reflexivity|]. destruct r as [f|a].
  - reflexivity.
  - split; [reflexivity | apply Hp; reflexivity].
Qed.

Lemma performs_post {A} (L : list signature) (post : A -> Prop) (m : @M W A) :
  performs L any m ->
  (forall wl a wl', m wl = (inr a, wl') -> post a) ->
  performs L post m.
Proof.
  intros Hm Hp w log. destruct (Hm w log) as (l & El & Hl). exists l.
  split; [exact El|].
  destruct (m (w, log)) as [[f|a] wl'] eqn:E; simpl in *; [exact Hl|].
  split; [apply Hl | eapply Hp; exact E].
Qed.

Lemma performs_any {A} (L : list signature) (post : A -> Prop) (m : @M W A) :
  performs L post m -> performs L any m.
Proof.
  intros Hm w log. destruct (Hm w log) as (l & El & Hl). exists l.
  split; [exact El|].
  destruct (fst (m (w, log))); [exact Hl | split; [apply Hl | exact I]].
Qed.

Lemma performs_bind {A B} (L1 L2 : list signature) (post1 : A -> Prop)
    (post2 : B -> Prop) (m : @M W A) (k : A -> @M W B) :
  performs L1 post1 m ->
  (forall a, post1 a -> performs L2 post2 (k a)) ->
  performs (L1 ++ L2) post2 (bind m k).
Proof.
  intros Hm Hk w log. unfold bind.
  destruct (Hm w log) as (l1 & E1 & H1).
  destruct (m (w, log)) as [[f|a] [w' log']] eqn:E; simpl in *.
  - exists l1. split; [exact E1|]. apply prefix_app_r. exact H1.
  - destruct H1 as [H1 Hp]. subst log'.
    destruct (Hk a Hp w' (log ++ l1)) as (l2 & E2 & H2).
    exists (l1 ++ l2). split; [rewrite E2, app_assoc; reflexivity|].
    rewrite performed_app, H1.
    destruct (fst (k a (w', log ++ l1))).
    + apply prefix_app. exact H2.
    + destruct H2 as [-> Hq]. split; [reflexivity | exact Hq].
Qed.

Lemma performs_mapM {A B} (Lf : A -> list signature) (R : A -> B -> Prop)
    (h : A -> @M W B) (l : list A) :
  Forall (fun a => performs (Lf a) (R a) (h a)) l ->
  performs (flat_map Lf l) (Forall2 R l) (mapM h l).
Proof.
  induction 1 as [|a l Ha _ IH]; simpl.
  - apply performs_ret. constructor.
  - apply (performs_bind _ _ (R a)); [exact Ha|]. intros b Hb.
    rewrite <- (app_nil_r (flat_map Lf l)).
    apply (performs_bind _ _ (Forall2 R l)); [exact IH|]. intros bs Hbs.
    apply performs_ret. constructor; assumption.
Qed.

Lemma performs_mapM_any {A B} (Lf : A -> list signature)
    (h : A -> @M W B) (l : list A) :
  Forall (fun a => performs (Lf a) any (h a)) l ->
  performs (flat_map Lf l) (fun bs => length bs = length l) (mapM h l).
Proof.
  intros H. apply (performs_post _ _ _).
  - apply (performs_any _ (Forall2 (fun _ _ => True) l)).
    apply performs_mapM. exact H.
  - clear H. induction l as [|a l IH]; intros wl bs wl' E; simpl in E.
    + injection E as <- _. reflexivity.
    + unfold bind in E. destruct (h a wl) as [[f|b] wl1]; [discriminate|].
      destruct (mapM h l wl1) as [[f|bs1] wl2] eqn:E1; [discriminate|].
      injection E as <- _. simpl. f_equal. eapply IH. exact E1.
Qed.

Lemma Forall2_keys {B C} (l : list (string * B)) (k : list (string * C)) :
  Forall2 (fun kv p => fst p = fst kv) l k -> List.map fst k = List.map fst l.
Proof. induction 1 as [|? ? ? ? E _ IH]; simpl; [|rewrite E, IH]; reflexivity. Qed.

Lemma performs_ask (o : op) :
  performs (performed [(o, inr VNone)]) any (ask (logged lib) o).
Proof.
  intros w log. unfold ask, logged. simpl.
  destruct (lib o w) as [[msg|v] w']; simpl.
  - exists [(o, inl msg)]. split; [reflexivity|]. reflexivity.
  - exists [(o, inr v)]. split; [reflexivity|]. split; [reflexivity | exact I].
Qed.

Lemma performs_pure (env : namespace) (e : expr) :
  is_Some (pure_eval e) -> builtins_intact env ->
  performs (written e) any (eval (logged lib) env e).
Proof.
  intros Hp He. rewrite (written_pure e Hp). destruct Hp as [v Hv].
  intros w log. exists []. rewrite app_nil_r.
  rewrite (pure_eval_sound (logged lib) e v Hv env (w, log) He). simpl.
  split; [reflexivity|]. split; [reflexivity | exact I].
Qed.

(** Evaluating an expression performs the attribute calls written in
    it, in the order [calls] lists them. *)
Lemma eval_performs (e : expr) :
  lib_only e = true ->
  forall env, builtins_intact env ->
  performs (written e) any (eval (logged lib) env e).
Proof.
  induction e using expr_rect_deep; intros Hl env He;
    try discriminate Hl.
  - simpl. destruct (env !! x).
    + apply performs_ret. exact I.
    + intros w log. exists []. simpl. rewrite app_nil_r.
      split; reflexivity.
  - apply performs_ret. exact I.
  - apply performs_ret. exact I.
  - apply performs_ret. exact I.
  - apply performs_ret. exact I.
  - apply performs_ret. exact I.
  - apply performs_pure; [|exact He].
    cbn [lib_only] in Hl. apply bool_decide_eq_true in Hl. exact Hl.
  - change (written (EAttr e a)) with (written e).
    cbn [lib_only] in Hl. apply andb_true_iff in Hl as [Hl _].
    rewrite <- (app_nil_r (written e)). simpl.
    apply (performs_bind _ _ any); [apply IHe; assumption|].
    intros v _. apply performs_fail. intros fv _. exact I.
  - destruct e;
      try (apply performs_pure; [|exact He];
           cbn [lib_only] in Hl; apply bool_decide_eq_true in Hl; exact Hl).
    simpl in Hl. apply andb_true_iff in Hl as [Hl Hkw].
    apply andb_true_iff in Hl as [Hf Hargs].
    rewrite forallb_forall in Hargs. rewrite forallb_forall in Hkw.
    rewrite Forall_forall in H. rewrite Forall_forall in H0.
    rewrite written_call.
    change (eval (logged lib) env (ECall (EAttr e attr) args kwargs)) with
      (bind (eval (logged lib) env (EAttr e attr)) (fun fv =>
         bind (mapM (eval (logged lib) env) args) (fun avs =>
           bind (mapM (fun kv => bind (eval (logged lib) env (snd kv))
                                   (fun v => ret (fst kv, v))) kwargs)
             (fun kvs => apply (logged lib) fv avs kvs)))).
    apply (performs_bind _ _ (fun fv => exists v, fv = VAttr v attr)).
    { apply performs_post; [apply IHe; [exact Hf | exact He]|].
      intros wl a wl'. apply eval_attr_shape. }
    intros fv [v ->].
    apply (performs_bind _ _ (fun avs => length avs = length args)).
    { apply performs_mapM_any. apply Forall_forall. intros a Ha. apply H.
      - exact Ha.
      - apply Hargs. apply list_elem_of_In. exact Ha.
      - exact He. }
    intros avs Havs.
    apply (performs_bind _ _
             (Forall2 (fun (kv : string * expr) (p : string * value) =>
                         fst p = fst kv) kwargs)).
    { apply performs_mapM. apply Forall_forall. intros kv Hkv.
      rewrite <- (app_nil_r (written (snd kv))).
      apply (performs_bind _ _ any);
        [|intros v0 _; apply performs_ret; reflexivity].
      apply H0.
      - exact Hkv.
      - apply Hkw. apply list_elem_of_In. exact Hkv.
      - exact He. }
    intros kvs Hkvs. apply Forall2_keys in Hkvs.
    simpl from_option. rewrite <- Havs, <- Hkvs.
    exact (performs_ask (OCall (VAttr v attr) avs kvs)).
  - simpl in Hl. rewrite forallb_forall in Hl. rewrite Forall_forall in H.
    unfold written. simpl calls. rewrite omap_flat_map.
    rewrite <- (app_nil_r (flat_map _ es)). simpl.
    apply (performs_bind _ _ any); [|intros vs _; apply performs_ret; exact I].
    eapply performs_any. apply (performs_mapM_any written). apply Forall_forall. intros a Ha. apply H.
    + exact Ha.
    + apply Hl. apply list_elem_of_In. exact Ha.
    + exact He.
  - simpl in Hl. rewrite forallb_forall in Hl. rewrite Forall_forall in H.
    unfold written. simpl calls. rewrite omap_flat_map.
    rewrite <- (app_nil_r (flat_map _ es)). simpl.
    apply (performs_bind _ _ any); [|intros vs _; apply performs_ret; exact I].
    eapply performs_any. apply (performs_mapM_any written). apply Forall_forall. intros a Ha. apply H.
    + exact Ha.
    + apply Hl. apply list_elem_of_In. exact Ha.
    + exact He.
  - simpl in Hl. rewrite forallb_forall in Hl. rewrite Forall_forall in H.
    unfold written. simpl calls. rewrite omap_flat_map.
    rewrite <- (app_nil_r (flat_map _ items)). simpl.
    apply (performs_bind _ _ any); [|intros vs _; apply performs_ret; exact I].
    eapply performs_any.
    apply (performs_mapM_any
             (fun kv => omap called_signature
                          (calls (fst kv) ++ calls (snd kv)))).
    apply Forall_forall. intros kv Hkv.
    destruct (H kv Hkv) as [Hk Hv].
    pose proof (Hl kv (proj1 (list_elem_of_In _ _) Hkv)) as Hlk.
    apply andb_true_iff in Hlk as [Hlk Hlv].
    rewrite omap_app. fold (written (fst kv)). fold (written (snd kv)).
    apply (performs_bind _ _ any); [apply Hk; assumption|]. intros k _.
    rewrite <- (app_nil_r (written (snd kv))).
    apply (performs_bind _ _ any); [apply Hv; assumption|]. intros v0 _.
    apply performs_ret. exact I.
Qed.

Lemma finish_performs (L : list signature) (env : namespace) (m : @M W value)
    (k : value -> namespace) (w : world) (log : list event) :
  performs L any m -> result_performs L log (finish env (m (w, log)) k).
Proof.
  intros Hm. destruct (Hm w log) as (l & El & Hl). exists l.
  unfold finish. destruct (m (w, log)) as [[f|v] [w' log']]; simpl in *.
  - split; assumption.
  - split; [exact El | apply Hl].
Qed.

Lemma exec_stmt_performs (s : stmt) (env : namespace) (w : world)
    (log : list event) :
  safe_stmt s = true -> builtins_intact env ->
  result_performs (written_in [s]) log (exec_stmt (logged lib) s env (w, log)).
Proof.
  intros Hs He. unfold safe_stmt in Hs. apply andb_true_iff in Hs as [Hs _].
  apply andb_true_iff in Hs as [Hsimple Hexpr].
  unfold written_in, cell_calls. simpl flat_map. rewrite app_nil_r.
  destruct s; try discriminate Hsimple; simpl in *.
  - apply finish_performs. apply (performs_ask (OMagic line)).
  - apply finish_performs. apply (performs_ask (OImport module)).
  - apply finish_performs. apply (performs_ask (OImport module)).
  - apply finish_performs. apply eval_performs; assumption.
  - apply finish_performs. apply eval_performs; assumption.
  - exists []. simpl. rewrite app_nil_r. split; reflexivity.
Qed.

Lemma written_in_cons (s : stmt) (rest : list stmt) :
  written_in (s :: rest) = written_in [s] ++ written_in rest.
Proof.
  unfold written_in, cell_calls. simpl. rewrite app_nil_r. apply omap_app.
Qed.

(** A safe cell performs the attribute calls written in it, in order. *)
Lemma exec_block_performs (ss : list stmt) :
  safe_cell ss = true ->
  forall (env : namespace) (w : world) (log : list event),
    builtins_intact env ->
    result_performs (written_in ss) log (exec_block (logged lib) ss env (w, log))
    /\ builtins_intact (ns (exec_block (logged lib) ss env (w, log))).
Proof.
  induction ss as [|s rest IH]; intros Hss env w log He.
  - split; [|exact He]. exists []. simpl. rewrite app_nil_r.
    split; reflexivity.
  - simpl in Hss. apply andb_true_iff in Hss as [Hs Hrest].
    rewrite exec_block_cons, written_in_cons.
    destruct (exec_stmt_performs s env w log Hs He) as (l1 & E1 & H1).
    pose proof (safe_stmt_intact (logged lib) s env (w, log) Hs He) as Hi.
    destruct (exec_stmt (logged lib) s env (w, log))
      as [[f|] env1 [w1 log1]] eqn:E; simpl in *.
    + split; [|exact Hi]. exists l1. split; [exact E1|].
      apply prefix_app_r. exact H1.
    + subst log1. destruct (IH Hrest env1 w1 (log ++ l1) Hi) as [(l2 & E2 & H2) Hi2].
      split; [|exact Hi2]. exists (l1 ++ l2).
      split; [rewrite E2, app_assoc; reflexivity|].
      rewrite performed_app, H1.
      destruct (failed (exec_block (logged lib) rest env1 (w1, log ++ l1))).
      * apply prefix_app. exact H2.
      * rewrite H2. reflexivity.
Qed.

Lemma run_cells_performs (cs : list (nat * list stmt)) :
  forallb (fun c => safe_cell (snd c)) cs = true ->
  forall (env : namespace) (w : world) (log : list event),
    builtins_intact env ->
    result_performs (flat_map (fun c => written_in (snd c)) cs) log
      (snd (run_cells (logged lib) cs env (w, log))).
Proof.
  induction cs as [|[i ss] cs IH]; intros Hcs env w log He.
  - exists []. simpl. rewrite app_nil_r. split; reflexivity.
  - simpl in Hcs. apply andb_true_iff in Hcs as [Hs Hrest].
    simpl. unfold exec_cell.
    destruct (exec_block_performs ss Hs env w log He) as [(l1 & E1 & H1) Hi].
    destruct (exec_block (logged lib) ss env (w, log))
      as [[f|] env1 [w1 log1]] eqn:E; simpl in *.
    + exists l1. split; [exact E1|]. apply prefix_app_r. exact H1.
    + subst log1. specialize (IH Hrest env1 w1 (log ++ l1) Hi).
      destruct (run_cells (logged lib) cs env1 (w1, log ++ l1)) as [visited r].
      simpl in *. destruct IH as (l2 & E2 & H2).
      exists (l1 ++ l2). split; [rewrite E2, app_assoc; reflexivity|].
      rewrite performed_app, H1. destruct (failed r).
      * apply prefix_app. exact H2.
      * rewrite H2. reflexivity.
Qed.

End Performs.

Lemma cells_safe_pick (nb : notebook) (positions : list nat) :
  forallb (fun c => safe_cell (snd c)) (code_cells nb) = true ->
  forallb (fun c => safe_cell (snd c)) (pick nb positions) = true.
Proof.
  intros H. apply forallb_forall. intros c Hc.
  apply list_elem_of_In, pick_sound, in_code_cells in Hc.
  destruct c as [i ss]. exact (forallb_elem _ _ (i, ss) H Hc).
Qed.

(** X6: in any session over the cells of the notebook, against any
    library, the calls the library receives through an attribute are
    exactly the ones written in the cells run: the same attribute, as
    many positional arguments and the same keywords, in the order of the
    source (callee and arguments before the call, statements top to
    bottom, cells in the order of the session).  A session that fails
    has performed an initial segment of them.  What the library answers
    never changes which calls are made. *)
Theorem X6_calls_at_run_time_follow_the_source
  {world : Type} (lib : op -> world -> answer * world) (w : world)
  (positions : list nat) :
  let r := snd (run_cells (logged lib) (pick axis_grids positions)
                  builtin_env (w, [])) in
  let L := flat_map (fun c => written_in (snd c)) (pick axis_grids positions) in
  performed (snd (after r)) `prefix_of` L /\
  (failed r = None -> performed (snd (after r)) = L).
Proof.
  cbv zeta.
  destruct (run_cells_performs lib (pick axis_grids positions)
              (cells_safe_pick axis_grids positions
                 ltac:(vm_compute; reflexivity))
              builtin_env w [] builtin_env_intact) as (l & El & Hl).
  rewrite app_nil_l in El. rewrite El.
  destruct (failed _).
  - split; [exact Hl | discriminate].
  - split; [rewrite Hl; reflexivity | intros _; exact Hl].
Qed.

Lemma X6_witness :
  failed (snd (run_cells (logged Demo.lib) (pick axis_grids [4; 7; 26; 5])
                 builtin_env ((0%Z, 0%N), []))) = None /\
  performed (snd (after (snd (run_cells (logged Demo.lib)
                                (pick axis_grids [4; 7; 26; 5])
                                builtin_env ((0%Z, 0%N), [])))))
  = flat_map (fun c => written_in (snd c)) (pick axis_grids [4; 7; 26; 5]).
Proof.
  assert (H : failed (snd (run_cells (logged Demo.lib)
                             (pick axis_grids [4; 7; 26; 5])
                             builtin_env ((0%Z, 0%N), []))) = None)
    by (vm_compute; reflexivity).
  split; [exact H|].
  exact (proj2 (X6_calls_at_run_time_follow_the_source
                  Demo.lib (0%Z, 0%N) [4; 7; 26; 5]) H).
Defined.

(** The cell that sets axis labels: what the library is asked, whatever
    it answers. *)
Example labels_cell_calls_in_order :
  written_in cell_facet_labels
  = [("FacetGrid", 1, ["row"; "col"; "margin_titles"; "size"]);
     ("map", 3, ["color"; "edgecolor"; "lw"]);
     ("set_axis_labels", 2, []);
     ("set", 0, ["xticks"; "yticks"]);
     ("subplots_adjust", 0, ["wspace"; "hspace"])].
Proof. reflexivity. Qed.

(** The seed is computed by builtins before the library sees it: the
    setup cell reaches the library twice. *)
Example setup_cell_calls_in_order :
  written_in cell_setup = [("set", 0, ["style"]); ("seed", 1, [])].
Proof. reflexivity. Qed.

(** ** X7: what the calls are made on *)

Section Silent.

Context {world : Type}.
Variable lib : op -> world -> answer * world.

Lemma silent_ret {A} (a : A) : silent_m (@ret world A a).
Proof. intros w. reflexivity. Qed.

Lemma silent_throw {A} (f : failure) : silent_m (@throw world A f).
Proof. intros w. reflexivity. Qed.

Lemma silent_lift {A} (r : failure + A) : silent_m (@lift world A r).
Proof. intros w. reflexivity. Qed.

Lemma silent_bind {A B} (m : @M world A) (k : A -> @M world B) :
  silent_m m -> (forall a, silent_m (k a)) -> silent_m (bind m k).
Proof.
  intros Hm Hk w. unfold bind. specialize (Hm w).
  destruct (m w) as [[f|a] w']; simpl in Hm; subst w'; [reflexivity|].
  apply Hk.
Qed.

Lemma silent_mapM {A B} (h : A -> @M world B) (l : list A) :
  Forall (fun a => silent_m (h a)) l -> silent_m (mapM h l).
Proof.
  induction 1 as [|a l Ha _ IH]; simpl; [apply silent_ret|].
  apply silent_bind; [exact Ha|]. intros b.
  apply silent_bind; [exact IH|]. intros bs. apply silent_ret.
Qed.

Lemma flat_map_eq_nil {A B} (k : A -> list B) (l : list A) :
  flat_map k l = [] -> Forall (fun a => k a = []) l.
Proof.
  induction l as [|a l IH]; simpl; intros H; [constructor|].
  apply app_eq_nil in H as [H1 H2]. constructor; [exact H1 | exact (IH H2)].
Qed.

(** An expression that holds no call leaves the world as it is. *)
Lemma no_calls_silent (e : expr) :
  calls e = [] -> forall env, silent_m (eval lib env e).
Proof.
  induction e using expr_rect_deep; intros Hc env; simpl in Hc.
  - simpl. destruct (env !! x); [apply silent_ret | apply silent_throw].
  - apply silent_ret.
  - apply silent_ret.
  - apply silent_ret.
  - apply silent_ret.
  - apply silent_ret.
  - simpl. apply silent_bind; [apply IHe; exact Hc|]. intros v.
    apply silent_lift.
  - simpl. apply silent_bind; [apply IHe; exact Hc|]. intros v.
    apply silent_lift.
  - exfalso. do 3 (apply app_eq_nil in Hc as [_ Hc]). discriminate Hc.
  - simpl. apply silent_bind; [|intros vs; apply silent_ret].
    apply silent_mapM. apply flat_map_eq_nil in Hc.
    rewrite Forall_forall in H. rewrite Forall_forall in Hc.
    apply Forall_forall. intros a Ha. apply H; [exact Ha | apply Hc, Ha].
  - simpl. apply silent_bind; [|intros vs; apply silent_ret].
    apply silent_mapM. apply flat_map_eq_nil in Hc.
    rewrite Forall_forall in H. rewrite Forall_forall in Hc.
    apply Forall_forall. intros a Ha. apply H; [exact Ha | apply Hc, Ha].
  - simpl. apply silent_bind; [|intros vs; apply silent_ret].
    apply silent_mapM. apply flat_map_eq_nil in Hc.
    rewrite Forall_forall in H. rewrite Forall_forall in Hc.
    apply Forall_forall. intros kv Hkv.
    destruct (H kv Hkv) as [Hk Hv].
    destruct (app_eq_nil _ _ (Hc kv Hkv)) as [Ck Cv].
    apply silent_bind; [apply Hk; exact Ck|]. intros k.
    apply silent_bind; [apply Hv; exact Cv|]. intros v. apply silent_ret.
  - apply app_eq_nil in Hc as [Hc1 Hc]. apply app_eq_nil in Hc as [Hc2 Hc3].
    simpl. apply silent_bind; [apply IHe1; exact Hc1|]. intros v.
    destruct (truthy v); [apply IHe2; exact Hc2 | apply IHe3; exact Hc3].
  - apply silent_throw.
  - apply silent_throw.
  - apply silent_throw.
Qed.

Lemma eval_silent (e : expr) (env : namespace) :
  silent e = true -> builtins_intact env -> silent_m (eval lib env e).
Proof.
  unfold silent, no_calls. intros H He.
  apply orb_true_iff in H as [H | H].
  - apply no_calls_silent. destruct (calls e); [reflexivity | discriminate H].
  - apply bool_decide_eq_true in H as [v Hv]. intros w.
    rewrite (pure_eval_sound lib e v Hv env w He). reflexivity.
Qed.

Lemma attr_call (env : namespace) (f : expr) (a : string)
    (args : list expr) (kwargs : list (string * expr))
    (w w1 : world) (r : value) :
  quiet_args args kwargs = true -> builtins_intact env ->
  eval lib env f w = (inr r, w1) ->
  (exists x, eval lib env (ECall (EAttr f a) args kwargs) w = (inl x, w1)) \/
  (exists avs kvs, eval lib env (ECall (EAttr f a) args kwargs) w
                   = ask lib (OCall (VAttr r a) avs kvs) w1).
Proof.
  intros Hq He Hf. apply andb_true_iff in Hq as [Ha Hk].
  rewrite forallb_forall in Ha. rewrite forallb_forall in Hk.
  change (eval lib env (ECall (EAttr f a) args kwargs)) with
    (bind (bind (eval lib env f) (fun v => lift (getattr v a))) (fun fv =>
       bind (mapM (eval lib env) args) (fun avs =>
         bind (mapM (fun kv => bind (eval lib env (snd kv))
                                 (fun v => ret (fst kv, v))) kwargs)
           (fun kvs => apply lib fv avs kvs)))).
  assert (S1 : silent_m (mapM (eval lib env) args)).
  { apply silent_mapM, Forall_forall. intros x Hx.
    apply eval_silent; [|exact He]. apply Ha, list_elem_of_In, Hx. }
  assert (S2 : silent_m (mapM (fun kv => bind (eval lib env (snd kv))
                                           (fun v => ret (fst kv, v))) kwargs)).
  { apply silent_mapM, Forall_forall. intros x Hx.
    apply silent_bind; [|intros v; apply silent_ret].
    apply eval_silent; [|exact He]. apply Hk, list_elem_of_In, Hx. }
  specialize (S1 w1). specialize (S2 w1).
  unfold bind in *. rewrite Hf. unfold lift.
  destruct (getattr r a) as [x|fv] eqn:Eg; [left; eexists; reflexivity|].
  apply getattr_shape in Eg. subst fv. cbv beta iota.
  destruct (mapM (eval lib env) args w1) as [[x|avs] w2]; simpl in S1; subst w2.
  - left. eauto.
  - destruct (mapM _ kwargs w1) as [[x|kvs] w3]; simpl in S2; subst w3.
    + left. eauto.
    + right. exists avs, kvs. reflexivity.
Qed.

Lemma attr_call_fails (env : namespace) (f : expr) (a : string)
    (args : list expr) (kwargs : list (string * expr))
    (w w1 : world) (x : failure) :
  eval lib env f w = (inl x, w1) ->
  eval lib env (ECall (EAttr f a) args kwargs) w = (inl x, w1).
Proof.
  intros Hf.
  change (eval lib env (ECall (EAttr f a) args kwargs)) with
    (bind (bind (eval lib env f) (fun v => lift (getattr v a))) (fun fv =>
       bind (mapM (eval lib env) args) (fun avs =>
         bind (mapM (fun kv => bind (eval lib env (snd kv))
                                 (fun v => ret (fst kv, v))) kwargs)
           (fun kvs => apply lib fv avs kvs)))).
  unfold bind. rewrite Hf. reflexivity.
Qed.

Lemma from_module_object (m : value) :
  from_module m = true -> is_object m = true.
Proof. destruct m; try discriminate; reflexivity. Qed.

Lemma module_table_from_modules :
  forallb (fun p => from_module (snd p)) module_table = true.
Proof. reflexivity. Qed.

Lemma module_path_table (x : string) (m : value) :
  module_path (EName x) = Some m -> (x, m) ∈ module_table.
Proof.
  unfold module_path.
  destruct (List.find (fun p => bool_decide (fst p = x)) module_table)
    as [[y v]|] eqn:E; [|discriminate].
  intros H. simpl in H. injection H as <-.
  apply find_some in E as [Hin Hy]. simpl in Hy.
  apply bool_decide_eq_true in Hy. subst y. apply list_elem_of_In. exact Hin.
Qed.

Lemma module_path_from_module (f : expr) :
  forall m, module_path f = Some m -> from_module m = true.
Proof.
  induction f using expr_rect_deep; intros m Hm; try discriminate Hm.
  - apply module_path_table, list_elem_of_In in Hm.
    exact (proj1 (forallb_forall _ _) module_table_from_modules (x, m) Hm).
  - simpl in Hm. destruct (module_path f) as [v|]; [|discriminate].
    injection Hm as <-. simpl. apply IHf. reflexivity.
Qed.

(** A dotted path into a module evaluates to what the import table
    says, or fails on an unbound name; the world stays as it is. *)
Lemma module_path_eval (f : expr) (env : namespace) (w : world) :
  forall m, module_path f = Some m -> names_ok env ->
  eval lib env f w = (inr m, w) \/
  exists x, eval lib env f w = (inl (NameError x), w).
Proof.
  induction f using expr_rect_deep; intros m Hm He; try discriminate Hm.
  - apply module_path_table in Hm. destruct He as [_ He].
    simpl. destruct (He x m Hm) as [-> | ->]; [right | left]; eauto.
  - simpl in Hm. destruct (module_path f) as [v|] eqn:Ev; [|discriminate].
    injection Hm as <-. simpl. unfold bind.
    destruct (IHf v eq_refl He) as [-> | [x ->]]; [left | right; eauto].
    unfold lift.
    rewrite (getattr_object v a
               (from_module_object v (module_path_from_module f v Ev))).
    reflexivity.
Qed.

Lemma members_here (P : value -> Prop) (r : value) : P r -> members P r.
Proof. intros H. destruct r; left; exact H. Qed.

Lemma members_impl (P Q : value -> Prop) (r : value) :
  (forall v, P v -> Q v) -> members P r -> members Q r.
Proof.
  intros HPQ. induction r; intros [H | H]; try (left; apply HPQ; exact H);
    try destruct H.
  right. apply IHr. exact H.
Qed.

Lemma grid_path_eval (f : expr) (gv : value) (env : namespace) (w : world) :
  grid_path f = true -> env !! "g" = Some gv ->
  (exists x, eval lib env f w = (inl x, w)) \/
  exists r, eval lib env f w = (inr r, w) /\ members (eq gv) r.
Proof.
  intros Hf Hg. induction f using expr_rect_deep; try discriminate Hf.
  - simpl in Hf. apply bool_decide_eq_true in Hf. subst x.
    right. exists gv. simpl. rewrite Hg. split; [reflexivity|].
    apply members_here. reflexivity.
  - simpl. unfold bind.
    destruct (IHf Hf) as [[x ->] | (r & -> & Hr)]; [left; eauto|].
    unfold lift. destruct (getattr r a) as [x|fv] eqn:Eg; [left; eauto|].
    apply getattr_shape in Eg. subst fv.
    right. exists (VAttr r a). split; [reflexivity|]. right. exact Hr.
Qed.

End Silent.

Lemma not_charting (r : value) (a : string) :
  a ∉ charting_api -> charting_callee (VAttr r a) = false.
Proof.
  intros Ha. destruct r; try reflexivity. simpl.
  rewrite (bool_decide_eq_false_2 _ Ha). apply andb_false_r.
Qed.

Lemma grid_of_snoc (log : list event) (ev : event) :
  grid_of (log ++ [ev]) = match chart_answer ev with
                          | Some v => Some v
                          | None => grid_of log
                          end.
Proof.
  unfold grid_of. rewrite omap_app. simpl.
  destruct (chart_answer ev) as [v|].
  - apply last_snoc.
  - rewrite app_nil_r. reflexivity.
Qed.

Lemma receivers_ok_nil : receivers_ok [].
Proof. intros before ev rest E. destruct before; discriminate E. Qed.

Lemma receivers_ok_snoc (log : list event) (o : op) (ans : answer) :
  receivers_ok log -> receiver_ok log o -> receivers_ok (log ++ [(o, ans)]).
Proof.
  intros Hl Ho before ev rest E.
  destruct rest as [|x rest _] using rev_ind.
  - apply app_inj_tail in E as [<- <-]. exact Ho.
  - change (ev :: rest ++ [x]) with ((ev :: rest) ++ [x]) in E.
    rewrite app_assoc in E. apply app_inj_tail in E as [E _].
    exact (Hl before ev rest E).
Qed.

Section Receivers.

Context {world : Type}.
Variable lib : op -> world -> answer * world.

Local Abbreviation W := (world * list event)%type.

Lemma ask_logged (o : op) (w : world) (log : list event) :
  exists ans w', ask (logged lib) o (w, log)
                 = (outcome_of ans, (w', log ++ [(o, ans)])).
Proof.
  unfold ask, logged. simpl.
  destruct (lib o w) as [[msg|v] w'].
  - exists (inl msg), w'. reflexivity.
  - exists (inr v), w'. reflexivity.
Qed.

Lemma one_call_in_order (chart : bool) (log : list event)
    (res : (failure + value) * W) :
  receivers_ok log -> one_call chart log res -> in_order chart log res.
Proof.
  intros Hl [[E [x Ex]] | (fv & avs & kvs & ans & E & Er & Ho & Hc)];
    unfold in_order; rewrite E.
  - split; [exact Hl|]. rewrite Ex. destruct chart; reflexivity.
  - split; [apply receivers_ok_snoc; assumption|].
    rewrite grid_of_snoc, Er. unfold chart_answer. rewrite Hc.
    destruct chart, ans; reflexivity.
Qed.

Lemma module_call_sound (e : expr) (chart : bool) (env : namespace)
    (w : world) (log : list event) :
  module_call e = Some chart -> names_ok env ->
  one_call chart log (eval (logged lib) env e (w, log)).
Proof.
  intros Hm He. destruct e; try discriminate Hm.
  destruct e; try discriminate Hm. simpl in Hm.
  destruct (quiet_args args kwargs) eqn:Hq; [|discriminate].
  destruct (module_path e) as [m|] eqn:Ep; [|discriminate].
  injection Hm as <-.
  destruct (module_path_eval (logged lib) e env (w, log) m Ep He)
    as [Ef | [x Ef]].
  - destruct (attr_call (logged lib) env e attr args kwargs _ _ m Hq
                (proj1 He) Ef) as [[x ->] | (avs & kvs & ->)].
    + left. split; [reflexivity | eauto].
    + destruct (ask_logged (OCall (VAttr m attr) avs kvs) w log)
        as (ans & w' & ->).
      right. exists (VAttr m attr), avs, kvs, ans.
      split; [reflexivity|]. split; [reflexivity|]. split; [|reflexivity].
      left. exact (module_path_from_module e m Ep).
  - rewrite (attr_call_fails (logged lib) env e attr args kwargs _ _ _ Ef).
    left. split; [reflexivity | eauto].
Qed.

Lemma grid_call_sound (f : expr) (a : string) (args : list expr)
    (kwargs : list (string * expr)) (gv : value) (env : namespace)
    (w : world) (log : list event) :
  quiet_args args kwargs = true -> a ∉ charting_api ->
  grid_path f = true -> builtins_intact env ->
  env !! "g" = Some gv -> grid_of log = Some gv ->
  one_call false log (eval (logged lib) env (ECall (EAttr f a) args kwargs)
                        (w, log)).
Proof.
  intros Hq Ha Hf He Hg Hlast.
  destruct (grid_path_eval (logged lib) f gv env (w, log) Hf Hg)
    as [[x Ef] | (r & Ef & Hr)].
  { rewrite (attr_call_fails (logged lib) env f a args kwargs _ _ x Ef).
    left. split; [reflexivity | eauto]. }
  destruct (attr_call (logged lib) env f a args kwargs _ _ r Hq He Ef)
    as [[x ->] | (avs & kvs & ->)].
  - left. split; [reflexivity | eauto].
  - destruct (ask_logged (OCall (VAttr r a) avs kvs) w log)
      as (ans & w' & ->).
    right. exists (VAttr r a), avs, kvs, ans.
    split; [reflexivity|]. split; [reflexivity|].
    split; [|apply not_charting; exact Ha].
    right. left. apply (members_impl (eq gv)); [|exact Hr].
    intros v <-. exact Hlast.
Qed.

Lemma chained_call_sound (f : expr) (a : string) (args : list expr)
    (kwargs : list (string * expr)) (env : namespace)
    (w : world) (log : list event) :
  quiet_args args kwargs = true -> a ∉ charting_api ->
  module_call f = Some false -> names_ok env -> receivers_ok log ->
  in_order false log (eval (logged lib) env (ECall (EAttr f a) args kwargs)
                        (w, log)).
Proof.
  intros Hq Ha Hf He Hl.
  pose proof (module_call_sound f false env w log Hf He) as H1.
  destruct (eval (logged lib) env f (w, log)) as [[x|r] [w1 log1]] eqn:Ef.
  - rewrite (attr_call_fails (logged lib) env f a args kwargs _ _ x Ef).
    apply one_call_in_order; assumption.
  - destruct H1 as [[_ [x Ex]] | (fv & avs & kvs & ans & E & Er & Ho & Hc)];
      [discriminate Ex|].
    simpl in E, Er. destruct ans as [msg|v]; [discriminate Er|].
    injection Er as ->.
    assert (Hl1 : receivers_ok log1)
      by (rewrite E; apply receivers_ok_snoc; assumption).
    assert (Hg1 : grid_of log1 = grid_of log).
    { rewrite E, grid_of_snoc. simpl. rewrite Hc. reflexivity. }
    assert (Ha1 : last log1 ≫= answer_of = Some v)
      by (rewrite E, last_snoc; reflexivity).
    clear E.
    destruct (attr_call (logged lib) env f a args kwargs _ _ v Hq
                (proj1 He) Ef) as [[x ->] | (avs2 & kvs2 & ->)].
    + split; [exact Hl1 | exact Hg1].
    + destruct (ask_logged (OCall (VAttr v a) avs2 kvs2) w1 log1)
        as (ans2 & w2 & ->).
      split; simpl.
      * apply receivers_ok_snoc; [exact Hl1|]. right. right. exact Ha1.
      * rewrite grid_of_snoc. unfold chart_answer.
        rewrite (not_charting v a Ha). rewrite Hg1.
        destruct ans2; reflexivity.
Qed.

(** What the classification of an expression promises of its
    evaluation. *)
Lemma target_sound (e : expr) (t : receiver) (env : namespace)
    (w : world) (log : list event) :
  target_of e = Some t -> names_ok env -> receivers_ok log ->
  (t = Grid -> exists gv, env !! "g" = Some gv /\ grid_of log = Some gv) ->
  in_order (match t with Module chart => chart | _ => false end) log
    (eval (logged lib) env e (w, log)).
Proof.
  unfold target_of. intros Ht He Hl Hg.
  destruct (silent e) eqn:Hs.
  - injection Ht as <-.
    pose proof (eval_silent (logged lib) e env Hs (proj1 He) (w, log)) as S.
    unfold in_order. rewrite S. simpl. split; [exact Hl | reflexivity].
  - destruct (module_call e) as [chart|] eqn:Hm.
    + injection Ht as <-. apply one_call_in_order; [exact Hl|].
      apply module_call_sound; assumption.
    + destruct e; try discriminate Ht. destruct e; try discriminate Ht.
      destruct (quiet_args args kwargs && negb (bool_decide (attr ∈ charting_api)))
        eqn:Hq; [|discriminate].
      apply andb_true_iff in Hq as [Hq Ha].
      apply negb_true_iff, bool_decide_eq_false in Ha.
      destruct (grid_path e) eqn:Hp.
      * injection Ht as <-. destruct (Hg eq_refl) as (gv & Hgv & Hlast).
        apply one_call_in_order; [exact Hl|].
        apply (grid_call_sound e attr args kwargs gv); try assumption.
        exact (proj1 He).
      * destruct (module_call e) as [[|]|] eqn:Hf; try discriminate Ht.
        injection Ht as <-. apply chained_call_sound; assumption.
Qed.

Lemma flow_expr_sound (fresh fresh' binds_g : bool) (e : expr)
    (env : namespace) (k : value -> namespace) (w : world)
    (log : list event) :
  flow_expr fresh binds_g e = Some fresh' ->
  (forall v, k v !! "g" = if binds_g then Some v else env !! "g") ->
  names_ok env -> fresh_ok fresh env log -> receivers_ok log ->
  let r := finish env (eval (logged lib) env e (w, log)) k in
  receivers_ok (snd (after r)) /\
  (failed r = None -> fresh_ok fresh' (ns r) (snd (after r))).
Proof.
  unfold flow_expr. intros Hf Hk He Hfresh Hl.
  destruct (target_of e) as [t|] eqn:Ht; [|discriminate].
  assert (Hg : t = Grid ->
               exists gv, env !! "g" = Some gv /\ grid_of log = Some gv).
  { intros ->. destruct fresh; [|discriminate]. apply Hfresh. reflexivity. }
  destruct (target_sound e t env w log Ht He Hl Hg) as [Hl' Hg'].
  cbv zeta. unfold finish.
  destruct (eval (logged lib) env e (w, log)) as [[x|v] [w' log']];
    simpl in *; (split; [exact Hl'|]); [discriminate|].
  intros _ Hf'. unfold fresh_ok in Hfresh.
  destruct t as [|[|]| |]; simpl in Hg'.
  - injection Hf as <-. apply andb_true_iff in Hf' as [-> Hb].
    apply negb_true_iff in Hb. subst binds_g.
    rewrite Hk, Hg'. apply Hfresh. reflexivity.
  - injection Hf as <-. subst binds_g. exists v. rewrite Hk. split; [reflexivity | exact Hg'].
  - injection Hf as <-. apply andb_true_iff in Hf' as [-> Hb].
    apply negb_true_iff in Hb. subst binds_g.
    rewrite Hk, Hg'. apply Hfresh. reflexivity.
  - destruct fresh; [|discriminate]. injection Hf as <-.
    apply negb_true_iff in Hf'. subst binds_g.
    rewrite Hk, Hg'. apply Hfresh. reflexivity.
  - injection Hf as <-. apply andb_true_iff in Hf' as [-> Hb].
    apply negb_true_iff in Hb. subst binds_g.
    rewrite Hk, Hg'. apply Hfresh. reflexivity.
Qed.

Lemma quiet_event (o : op) (env : namespace) (k : value -> namespace)
    (fresh fresh' : bool) (w : world) (log : list event) :
  receiver_ok log o -> chart_answer (o, inr VNone) = None ->
  (forall v, fresh' = true -> fresh = true /\ k v !! "g" = env !! "g") ->
  fresh_ok fresh env log -> receivers_ok log ->
  let r := finish env (ask (logged lib) o (w, log)) k in
  receivers_ok (snd (after r)) /\
  (failed r = None -> fresh_ok fresh' (ns r) (snd (after r))).
Proof.
  intros Ho Hc Hk Hfresh Hl. cbv zeta.
  destruct (ask_logged o w log) as (ans & w' & ->). unfold finish.
  assert (Hg : grid_of (log ++ [(o, ans)]) = grid_of log).
  { rewrite grid_of_snoc. destruct o, ans; try reflexivity.
    simpl in *. destruct (charting_callee f); [discriminate Hc | reflexivity]. }
  destruct ans as [msg|v]; simpl;
    (split; [apply receivers_ok_snoc; assumption|]); [discriminate|].
  intros _ Hf'. destruct (Hk v Hf') as [Hf Hkg].
  rewrite Hkg, Hg. apply Hfresh. exact Hf.
Qed.

Lemma flow_stmt_sound (s : stmt) (fresh fresh' : bool) (env : namespace)
    (w : world) (log : list event) :
  flow_stmt fresh s = Some fresh' ->
  names_ok env -> fresh_ok fresh env log -> receivers_ok log ->
  let r := exec_stmt (logged lib) s env (w, log) in
  receivers_ok (snd (after r)) /\
  (failed r = None -> fresh_ok fresh' (ns r) (snd (after r))).
Proof.
  intros Hf He Hfresh Hl. destruct s; try discriminate Hf; simpl in Hf.
  - injection Hf as <-.
    apply (quiet_event (OMagic line) env (fun _ => env) fresh fresh w log I
             eq_refl); [|exact Hfresh | exact Hl].
    intros _ H. split; [exact H | reflexivity].
  - injection Hf as <-.
    apply (quiet_event (OImport module) env
             (fun _ => <[asname := VModule module]> env) fresh _ w log I
             eq_refl); [|exact Hfresh | exact Hl].
    intros _ H. apply andb_true_iff in H as [H Hb].
    apply negb_true_iff, bool_decide_eq_false in Hb.
    split; [exact H|]. apply lookup_insert_ne. exact Hb.
  - injection Hf as <-.
    apply (quiet_event (OImport module) env
             (fun _ => <[name := VAttr (VModule module) name]> env) fresh _
             w log I eq_refl); [|exact Hfresh | exact Hl].
    intros _ H. apply andb_true_iff in H as [H Hb].
    apply negb_true_iff, bool_decide_eq_false in Hb.
    split; [exact H|]. apply lookup_insert_ne. exact Hb.
  - apply (flow_expr_sound fresh fresh' (bool_decide (target = "g")));
      try assumption.
    intros v. case_bool_decide as Hx.
    + subst target. apply lookup_insert_eq.
    + apply lookup_insert_ne. exact Hx.
  - apply (flow_expr_sound fresh fresh' false); try assumption.
    intros v. reflexivity.
  - injection Hf as <-. simpl. split; [exact Hl|]. intros _. exact Hfresh.
Qed.

Lemma flow_sound (ss : list stmt) :
  forall (fresh fresh' : bool) (env : namespace) (w : world)
         (log : list event),
    flow fresh ss = Some fresh' ->
    names_ok env -> fresh_ok fresh env log -> receivers_ok log ->
    let r := exec_block (logged lib) ss env (w, log) in
    names_ok (ns r) /\ receivers_ok (snd (after r)).
Proof.
  induction ss as [|s rest IH]; intros fresh fresh' env w log Hf He Hfresh Hl.
  - split; assumption.
  - simpl in Hf. destruct (keeps_names s) eqn:Hk; [|discriminate].
    destruct (flow_stmt fresh s) as [fresh1|] eqn:Hs; [|discriminate].
    cbv zeta. rewrite exec_block_cons.
    pose proof (keeps_names_step (logged lib) s env (w, log) Hk He) as He1.
    destruct (flow_stmt_sound s fresh fresh1 env w log Hs He Hfresh Hl)
      as [Hl1 Hf1].
    destruct (exec_stmt (logged lib) s env (w, log))
      as [[x|] env1 [w1 log1]]; simpl in *.
    + split; assumption.
    + apply (IH fresh1 fresh'); auto.
Qed.

Lemma run_cells_receivers (cs : list (nat * list stmt)) :
  forallb (fun c => disciplined (snd c)) cs = true ->
  forall (env : namespace) (w : world) (log : list event),
    names_ok env -> receivers_ok log ->
    receivers_ok (snd (after (snd (run_cells (logged lib) cs env (w, log))))).
Proof.
  induction cs as [|[i ss] cs IH]; intros Hcs env w log He Hl; [exact Hl|].
  simpl in Hcs. apply andb_true_iff in Hcs as [Hs Hrest].
  unfold disciplined in Hs. simpl in Hs.
  destruct (flow false ss) as [fresh'|] eqn:Hf; [|discriminate].
  simpl. unfold exec_cell.
  destruct (flow_sound ss false fresh' env w log Hf He) as [He1 Hl1];
    [intros H; discriminate H | exact Hl |].
  destruct (exec_block (logged lib) ss env (w, log))
    as [[x|] env1 [w1 log1]]; simpl in *; [exact Hl1|].
  specialize (IH Hrest env1 w1 log1 He1 Hl1).
  destruct (run_cells (logged lib) cs env1 (w1, log1)) as [visited r].
  exact IH.
Qed.

End Receivers.

Lemma cells_pick (p : list stmt -> bool) (nb : notebook)
    (positions : list nat) :
  forallb (fun c => p (snd c)) (code_cells nb) = true ->
  forallb (fun c => p (snd c)) (pick nb positions) = true.
Proof.
  intros H. apply forallb_forall. intros c Hc.
  apply list_elem_of_In, pick_sound, in_code_cells in Hc.
  destruct c as [i ss]. exact (forallb_elem _ _ (i, ss) H Hc).
Qed.

Lemma builtin_env_names_ok : names_ok builtin_env.
Proof.
  split; [apply builtin_env_intact|]. intros a m Ham. left.
  unfold module_table in Ham.
  repeat (apply elem_of_cons in Ham as [Ham | Ham];
          [injection Ham as -> ->; vm_compute; reflexivity|]).
  apply elem_of_nil in Ham. destruct Ham.
Qed.

(** X7: in any session over the cells of the notebook, against any
    library, every operation that reaches the library is a magic, an
    import, or a call through an attribute of one of three things: a
    module or a member of one ([sns.FacetGrid], [np.random.seed]); the
    grid the library built last, or an attribute of it ([g.map],
    [g.fig.subplots_adjust]); the value the library returned just
    before (the chained [.query]).  No cell calls a method of a grid
    that an earlier cell left in [g]. *)
Theorem X7_methods_reach_the_grid_built_last
  {world : Type} (lib : op -> world -> answer * world) (w : world)
  (positions : list nat) :
  receivers_ok
    (snd (after (snd (run_cells (logged lib) (pick axis_grids positions)
                        builtin_env (w, []))))).
Proof.
  apply run_cells_receivers.
  - apply (cells_pick disciplined). vm_compute. reflexivity.
  - exact builtin_env_names_ok.
  - exact receivers_ok_nil.
Qed.

(** The property is not one every session has: after the cell that
    builds a facet grid and the cell that draws a pair plot without
    keeping it, a cell that adds a legend to [g] would reach the facet
    grid, which is not the grid built last. *)
Example a_grid_left_over_is_out_of_order :
  ~ receivers_ok
      (snd (after (snd (run_cells (logged Demo.lib)
                          (pick axis_grids [4; 7; 29; 8; 43]
                             ++ [(61, cell_reusing_grid)])
                          builtin_env ((0%Z, 0%N), []))))).
Proof.
  intros H.
  set (L := snd (after (snd (run_cells (logged Demo.lib)
                              (pick axis_grids [4; 7; 29; 8; 43]
                                 ++ [(61, cell_reusing_grid)])
                              builtin_env ((0%Z, 0%N), []))))) in H.
  assert (E : L = removelast L ++ [List.last L (OMagic "none", inr VNone)])
    by (vm_compute; reflexivity).
  specialize (H _ _ _ E). vm_compute in H.
  destruct H as [H | [[H | []] | H]]; discriminate H.
Qed.

(** ** Attributes are asked of objects *)

Lemma negate_fails (v : value) (f : failure) :
  negate v = inl f -> internal f.
Proof.
  destruct v; simpl; intros H; try discriminate; injection H as <-; exact I.
Qed.

Lemma internal_no_attribute (f : failure) :
  internal f -> forall a, f <> AttributeError a.
Proof. destruct f; simpl; intros H a; try contradiction; discriminate. Qed.

Section Objects.

Context {world : Type}.
Variable lib : op -> world -> answer * world.
Hypothesis lib_objects : returns_objects lib.

Local Abbreviation any := (fun _ => True).

Lemma attr_free_ret {A} (post : A -> Prop) (a : A) :
  post a -> attr_free post (@ret world A a).
Proof. intros H w. exact H. Qed.

Lemma attr_free_throw {A} (post : A -> Prop) (f : failure) :
  (forall a, f <> AttributeError a) -> attr_free post (@throw world A f).
Proof. intros H w. exact H. Qed.

Lemma attr_free_lift {A} (post : A -> Prop) (r : failure + A) :
  (forall f, r = inl f -> internal f) -> (forall a, r = inr a -> post a) ->
  attr_free post (@lift world A r).
Proof.
  intros Hf Hp w. simpl. destruct r as [f|a].
  - apply internal_no_attribute, Hf. reflexivity.
  - apply Hp. reflexivity.
Qed.

Lemma attr_free_bind {A B} (post1 : A -> Prop) (post2 : B -> Prop)
    (m : @M world A) (k : A -> @M world B) :
  attr_free post1 m -> (forall a, post1 a -> attr_free post2 (k a)) ->
  attr_free post2 (bind m k).
Proof.
  intros Hm Hk w. unfold bind. specialize (Hm w).
  destruct (m w) as [[f|a] w']; simpl in *; [exact Hm|].
  apply (Hk a Hm).
Qed.

Lemma attr_free_any {A} (post : A -> Prop) (m : @M world A) :
  attr_free post m -> attr_free any m.
Proof.
  intros Hm w. specialize (Hm w). destruct (fst (m w)); [exact Hm | exact I].
Qed.

Lemma attr_free_post {A} (post : A -> Prop) (m : @M world A) :
  attr_free any m ->
  (forall w a w', m w = (inr a, w') -> post a) ->
  attr_free post m.
Proof.
  intros Hm Hp w. specialize (Hm w).
  destruct (m w) as [[f|a] w'] eqn:E; simpl in *; [exact Hm|].
  exact (Hp w a w' E).
Qed.

Lemma attr_free_mapM {A B} (h : A -> @M world B) (l : list A) :
  Forall (fun a => attr_free any (h a)) l -> attr_free any (mapM h l).
Proof.
  induction 1 as [|a l Ha _ IH]; simpl.
  - apply attr_free_ret. exact I.
  - apply (attr_free_bind any); [exact Ha|]. intros b _.
    apply (attr_free_bind any); [exact IH|]. intros bs _.
    apply attr_free_ret. exact I.
Qed.

(** A call does not fail on an attribute, and what one of the object
    makers returns is an object. *)
Lemma attr_free_apply (fv : value) (avs : list value)
    (kvs : list (string * value)) :
  attr_free (fun v => yields_object fv = true -> is_object v = true)
    (apply lib fv avs kvs).
Proof.
  assert (Hask : attr_free
                   (fun v => yields_object fv = true -> is_object v = true)
                   (ask lib (OCall fv avs kvs))).
  { intros w. unfold ask.
    pose proof (lib_objects fv avs kvs w) as Hobj.
    destruct (lib (OCall fv avs kvs) w) as [[msg|v] w']; simpl in *.
    - intros a. discriminate.
    - intros Hy. apply (Hobj v Hy). reflexivity. }
  destruct fv; simpl; try exact Hask;
    try (apply attr_free_throw; intros a; discriminate).
  apply attr_free_lift.
  - intros f. apply apply_builtin_internal.
  - intros v _ Hy. discriminate Hy.
Qed.

(** A path that starts at [g] evaluates to an object, or fails on the
    name. *)
Lemma grid_path_object (f : expr) (env : namespace) (w : world) :
  grid_path f = true -> objects_ok env ->
  eval lib env f w = (inl (NameError "g"), w) \/
  exists r, eval lib env f w = (inr r, w) /\ is_object r = true.
Proof.
  intros Hf [_ Hg]. induction f using expr_rect_deep; try discriminate Hf.
  - simpl in Hf. apply bool_decide_eq_true in Hf. subst x. simpl.
    destruct (env !! "g") as [gv|] eqn:E; [right | left; reflexivity].
    exists gv. split; [reflexivity | apply Hg; reflexivity].
  - simpl. unfold bind.
    destruct (IHf Hf) as [-> | (r & -> & Hr)]; [left; reflexivity|].
    right. exists (VAttr r a). unfold lift.
    rewrite (getattr_object r a Hr). split; reflexivity.
Qed.

(** A settled expression does not fail on an attribute, and when it is
    a call of an object maker its value is an object. *)
Lemma eval_settled (e : expr) :
  settled e = true ->
  forall env, objects_ok env ->
  attr_free (fun v => object_call e = true -> is_object v = true)
    (eval lib env e).
Proof.
  induction e using expr_rect_deep; intros Hs env He; try discriminate Hs.
  - simpl. destruct (env !! x).
    + apply attr_free_ret. intros H. discriminate H.
    + apply attr_free_throw. intros a. discriminate.
  - apply attr_free_ret. intros H. discriminate H.
  - apply attr_free_ret. intros H. discriminate H.
  - apply attr_free_ret. intros H. discriminate H.
  - apply attr_free_ret. intros H. discriminate H.
  - apply attr_free_ret. intros H. discriminate H.
  - simpl in Hs |- *.
    apply (attr_free_bind any); [apply (attr_free_any _ _ (IHe Hs env He))|].
    intros v _. apply attr_free_lift.
    + intros f. apply negate_fails.
    + intros v' _ H. discriminate H.
  - simpl in Hs. apply attr_free_post.
    2:{ intros w v w' _ H. discriminate H. }
    apply orb_true_iff in Hs as [Hs | Hs];
      [apply orb_true_iff in Hs as [Hs | Hs]|].
    + apply bool_decide_eq_true in Hs as [m Hm]. intros w. simpl. unfold bind.
      destruct (module_path_eval lib e env w m Hm (proj1 He)) as [-> | [x Ex]].
      * unfold lift.
        rewrite (getattr_object m a
                   (from_module_object m (module_path_from_module e m Hm))).
        exact I.
      * rewrite Ex. simpl. intros a0. discriminate.
    + intros w. simpl. unfold bind.
      destruct (grid_path_object e env w Hs He) as [-> | (r & -> & Hr)].
      * intros a0. discriminate.
      * unfold lift. rewrite (getattr_object r a Hr). exact I.
    + apply andb_true_iff in Hs as [Hc Hs]. simpl.
      apply (attr_free_bind (fun v => is_object v = true)).
      * apply attr_free_post; [apply (attr_free_any _ _ (IHe Hs env He))|].
        intros w v w' E. pose proof (IHe Hs env He w) as Hv.
        rewrite E in Hv. apply Hv. exact Hc.
      * intros v Hv w. simpl. rewrite (getattr_object v a Hv). exact I.
  - simpl in Hs. apply andb_true_iff in Hs as [Hs Hkw].
    apply andb_true_iff in Hs as [Hf Hargs].
    rewrite forallb_forall in Hargs. rewrite forallb_forall in Hkw.
    rewrite Forall_forall in H. rewrite Forall_forall in H0.
    change (eval lib env (ECall e args kwargs)) with
      (bind (eval lib env e) (fun fv =>
         bind (mapM (eval lib env) args) (fun avs =>
           bind (mapM (fun kv => bind (eval lib env (snd kv))
                                   (fun v => ret (fst kv, v))) kwargs)
             (fun kvs => apply lib fv avs kvs)))).
    apply (attr_free_bind
             (fun fv => object_call (ECall e args kwargs) = true ->
                        yields_object fv = true)).
    { apply attr_free_post; [apply (attr_free_any _ _ (IHe Hf env He))|].
      intros w fv w' E Hoc. simpl in Hoc.
      destruct (module_path e) as [m|] eqn:Hm; [|discriminate Hoc].
      destruct (module_path_eval lib e env w m Hm (proj1 He))
        as [Em | [x Ex]].
      - rewrite Em in E. injection E as <- _. exact Hoc.
      - rewrite Ex in E. discriminate E. }
    intros fv Hfv. apply (attr_free_bind any).
    { apply attr_free_mapM. apply Forall_forall. intros a Ha.
      apply (attr_free_any _ _ (H a Ha (Hargs a (proj1 (list_elem_of_In _ _) Ha))
                                  env He)). }
    intros avs _. apply (attr_free_bind any).
    { apply attr_free_mapM. apply Forall_forall. intros kv Hkv.
      apply (attr_free_bind any); [|intros v _; apply attr_free_ret; exact I].
      apply (attr_free_any _ _
               (H0 kv Hkv (Hkw kv (proj1 (list_elem_of_In _ _) Hkv)) env He)). }
    intros kvs _. intros w. pose proof (attr_free_apply fv avs kvs w) as Ha.
    destruct (fst (apply lib fv avs kvs w)); [exact Ha|].
    intros Hoc. exact (Ha (Hfv Hoc)).
  - simpl in Hs |- *. rewrite forallb_forall in Hs. rewrite Forall_forall in H.
    apply (attr_free_bind any).
    { apply attr_free_mapM. apply Forall_forall. intros a Ha.
      apply (attr_free_any _ _ (H a Ha (Hs a (proj1 (list_elem_of_In _ _) Ha))
                                  env He)). }
    intros vs _. apply attr_free_ret. intros Hoc. discriminate Hoc.
  - simpl in Hs |- *. rewrite forallb_forall in Hs. rewrite Forall_forall in H.
    apply (attr_free_bind any).
    { apply attr_free_mapM. apply Forall_forall. intros a Ha.
      apply (attr_free_any _ _ (H a Ha (Hs a (proj1 (list_elem_of_In _ _) Ha))
                                  env He)). }
    intros vs _. apply attr_free_ret. intros Hoc. discriminate Hoc.
  - simpl in Hs |- *. rewrite forallb_forall in Hs. rewrite Forall_forall in H.
    apply (attr_free_bind any).
    { apply attr_free_mapM. apply Forall_forall. intros kv Hkv.
      destruct (H kv Hkv) as [Hk Hv].
      pose proof (Hs kv (proj1 (list_elem_of_In _ _) Hkv)) as Hkv'.
      apply andb_true_iff in Hkv' as [Hsk Hsv].
      apply (attr_free_bind any); [apply (attr_free_any _ _ (Hk Hsk env He))|].
      intros k _.
      apply (attr_free_bind any); [apply (attr_free_any _ _ (Hv Hsv env He))|].
      intros v _. apply attr_free_ret. exact I. }
    intros vs _. apply attr_free_ret. intros Hoc. discriminate Hoc.
Qed.

Lemma finish_attr_free (env : namespace) (m : @M world value)
    (post : value -> Prop) (k : value -> namespace) (w : world) :
  attr_free post m ->
  (forall a, failed (finish env (m w) k) <> Some (AttributeError a)) /\
  (forall v, fst (m w) = inr v -> post v).
Proof.
  intros Hm. specialize (Hm w). unfold finish.
  destruct (m w) as [[f|v] w']; simpl in *.
  - split; [|discriminate]. intros a H. injection H as ->. exact (Hm a eq_refl).
  - split; [discriminate|]. intros v' H. injection H as <-. exact Hm.
Qed.

Lemma ask_attr_free (o : op) : attr_free any (ask lib o).
Proof.
  intros w. unfold ask. destruct (lib o w) as [[msg|v] w']; simpl.
  - intros a. discriminate.
  - exact I.
Qed.

(** One settled statement: it does not fail on an attribute, and [g]
    still holds an object if it holds anything. *)
Lemma settled_stmt_step (s : stmt) (env : namespace) (w : world) :
  settled_stmt s = true -> objects_ok env ->
  (forall a, failed (exec_stmt lib s env w) <> Some (AttributeError a)) /\
  objects_ok (ns (exec_stmt lib s env w)).
Proof.
  unfold settled_stmt. intros Hs He. apply andb_true_iff in Hs as [Hk Hs].
  pose proof (keeps_names_step lib s env w Hk (proj1 He)) as Hn.
  destruct He as [He Hg].
  destruct s; try (unfold keeps_names, safe_stmt in Hk; discriminate Hk).
  - split; [|split; [exact Hn|]].
    + apply (finish_attr_free env _ any). apply ask_attr_free.
    + simpl. unfold finish. destruct (ask lib _ w) as [[f|v] w']; exact Hg.
  - apply negb_true_iff, bool_decide_eq_false in Hs.
    split; [|split; [exact Hn|]].
    + apply (finish_attr_free env _ any). apply ask_attr_free.
    + simpl. unfold finish. destruct (ask lib _ w) as [[f|v] w']; simpl;
        [exact Hg|]. rewrite lookup_insert_ne by exact Hs. exact Hg.
  - apply negb_true_iff, bool_decide_eq_false in Hs.
    split; [|split; [exact Hn|]].
    + apply (finish_attr_free env _ any). apply ask_attr_free.
    + simpl. unfold finish. destruct (ask lib _ w) as [[f|v] w']; simpl;
        [exact Hg|]. rewrite lookup_insert_ne by exact Hs. exact Hg.
  - apply andb_true_iff in Hs as [Hs Hb].
    destruct (finish_attr_free env (eval lib env e) _
                (fun v => <[target := v]> env) w
                (eval_settled e Hs env (conj He Hg))) as [Hf Hv].
    split; [exact Hf|]. split; [exact Hn|].
    simpl. unfold finish.
    destruct (eval lib env e w) as [[f|v] w'] eqn:E; simpl; [exact Hg|].
    apply orb_true_iff in Hb as [Hb | Hb].
    + apply negb_true_iff, bool_decide_eq_false in Hb.
      rewrite lookup_insert_ne by exact Hb. exact Hg.
    + intros gv Hgv. destruct (decide (target = "g")) as [-> | Hne].
      * rewrite lookup_insert_eq in Hgv. injection Hgv as <-.
        exact (Hv v eq_refl Hb).
      * rewrite lookup_insert_ne in Hgv by exact Hne. exact (Hg gv Hgv).
  - destruct (finish_attr_free env (eval lib env e) _ (fun _ => env) w
                (eval_settled e Hs env (conj He Hg))) as [Hf _].
    split; [exact Hf|]. split; [exact Hn|].
    simpl. unfold finish. destruct (eval lib env e w) as [[f|v] w']; exact Hg.
  - split; [discriminate|]. split; [exact Hn | exact Hg].
Qed.

Lemma settled_block (ss : list stmt) :
  settled_cell ss = true ->
  forall (env : namespace) (w : world), objects_ok env ->
    (forall a, failed (exec_block lib ss env w) <> Some (AttributeError a)) /\
    objects_ok (ns (exec_block lib ss env w)).
Proof.
  induction ss as [|s rest IH]; intros Hss env w He.
  - split; [discriminate | exact He].
  - simpl in Hss. apply andb_true_iff in Hss as [Hs Hrest].
    rewrite exec_block_cons.
    destruct (settled_stmt_step s env w Hs He) as [Hf He1].
    destruct (failed (exec_stmt lib s env w)) eqn:E.
    + split; [|exact He1]. rewrite E. exact Hf.
    + apply (IH Hrest). exact He1.
Qed.

(** Settled cells, in any order: no failure on an attribute. *)
Lemma settled_run (cs : list (nat * list stmt)) :
  forallb (fun c => settled_cell (snd c)) cs = true ->
  forall (env : namespace) (w : world), objects_ok env ->
    forall a, failed (snd (run_cells lib cs env w)) <> Some (AttributeError a).
Proof.
  induction cs as [|[i ss] cs IH]; intros Hcs env w He; [discriminate|].
  simpl in Hcs. apply andb_true_iff in Hcs as [Hs Hrest].
  simpl. unfold exec_cell.
  destruct (settled_block ss Hs env w He) as [Hf He1].
  destruct (failed (exec_block lib ss env w)) eqn:E.
  - simpl. rewrite E. exact Hf.
  - specialize (IH Hrest _ (after (exec_block lib ss env w)) He1).
    destruct (run_cells lib cs _ _) as [visited r]. exact IH.
Qed.

End Objects.

Lemma builtin_env_objects_ok : objects_ok builtin_env.
Proof. split; [exact builtin_env_names_ok|]. intros gv H. discriminate H. Qed.

(** Every cell of the notebook is settled, hence so is every session. *)
Lemma sessions_settled (positions : list nat) :
  forallb (fun c => settled_cell (snd c)) (pick axis_grids positions) = true.
Proof. apply (cells_pick settled_cell). vm_compute. reflexivity. Qed.

(** ** X1, X2: what a top-to-bottom run can end in *)

Lemma fresh_answers : answers Fresh.lib.
Proof. intros o u. eexists. reflexivity. Qed.

Lemma fresh_returns_objects : returns_objects Fresh.lib.
Proof. intros fv args kwargs u v _ H. injection H as <-. reflexivity. Qed.

Lemma fresh_rejecting_returns_objects (a : string) :
  returns_objects (Fresh.lib_rejecting a).
Proof.
  intros fv args kwargs u v _. unfold Fresh.lib_rejecting.
  destruct fv; try (intros H; injection H as <-; reflexivity).
  destruct (bool_decide (attr = a)); [discriminate|].
  intros H. injection H as <-. reflexivity.
Qed.

(** A session over the cells of the notebook fails on a library error or
    on a missing attribute, and on a library error when the library
    returns objects. *)
Lemma session_failures {world : Type} (lib : op -> world -> answer * world)
    (w : world) (positions : list nat) (f : failure) :
  runnable (dom builtin_env) (pick axis_grids positions) = true ->
  failed (snd (run_cells lib (pick axis_grids positions) builtin_env w))
    = Some f ->
  library_or_attribute f /\ (returns_objects lib -> library_error f).
Proof.
  intros Hrun Hf.
  assert (H1 : library_or_attribute f).
  { apply (proj1 (run_fresh_safe lib library_or_attribute
                    (pick axis_grids positions) w
                    (ask_library_or_attribute lib)
                    (fun a => or_intror (ex_intro _ a eq_refl)) Hrun)).
    exact Hf. }
  split; [exact H1|]. intros Hobj. destruct H1 as [H1 | [a ->]]; [exact H1|].
  destruct (settled_run lib Hobj (pick axis_grids positions)
              (sessions_settled positions) builtin_env w
              builtin_env_objects_ok a Hf).
Qed.

Lemma pick_all :
  pick axis_grids
    [3; 4; 5; 7; 8; 10; 12; 14; 16; 18; 20; 22; 24; 26; 29; 31; 33; 35; 37;
     39; 41; 43; 45; 47; 49; 51; 53; 55; 57; 59]
  = code_cells axis_grids.
Proof. reflexivity. Qed.



(** The other way to fail: a library that answers [None] to everything.
    The first grid is [None], and the first cell that asks it for [map]
    stops the run there, before the library is asked anything. *)
Example none_has_no_map :
  let x := run_notebook (logged Quiet.lib) axis_grids (tt, []) in
  fst x = [3; 4; 5; 7; 8; 10] /\
  failed (snd x) = Some (AttributeError "map") /\
  performed (snd (after (snd x)))
  = [("set", 0, ["style"]); ("seed", 1, []); ("load_dataset", 1, []);
     ("FacetGrid", 1, ["col"]); ("FacetGrid", 1, ["col"])].
Proof. vm_compute. repeat split; reflexivity. Qed.



(** ** X3: the cells in any order *)



(** That session enters the last cell of the notebook right after the
    essential cells, then the cell that calls [plot], where it stops. *)
Example out_of_order_session_stops :
  fst (run_cells (Fresh.lib_rejecting "plot")
         (pick axis_grids (essentials ++ [59; 49; 8])) builtin_env 0%N)
  = [4; 7; 29; 59; 49].
Proof. vm_compute. reflexivity. Qed.

(** A session out of document order, with a repetition, completes
    against the stand-in library. *)
Example out_of_order_session :
  let x := run_cells Demo.lib (pick axis_grids (essentials ++ [59; 33; 8; 33]))
             builtin_env (0%Z, 0%N) in
  fst x = [4; 7; 29; 59; 33; 8; 33] /\ failed (snd x) = None.
Proof. vm_compute. split; reflexivity. Qed.

(** The essential cells are needed: without the load of [tips], the
    first cell that plots it reads an unbound name. *)
Example session_without_tips :
  failed (snd (run_cells Demo.lib (pick axis_grids [4; 29; 8])
                 builtin_env (0%Z, 0%N)))
  = Some (NameError "tips").
Proof. vm_compute. reflexivity. Qed.
